(** * PlugPort storage engine: key encoding, index manager, query planner
      and document store, embedded from the TypeScript sources under
      [packages/server/src/storage] and checked against the specification.

    Conventions of the embedding.
    - A JavaScript string is a [string]: a sequence of code units, here the
      8-bit ones (every separator, tag and hex digit the engine writes is
      below 256).  The relational operators on strings are the
      lexicographic comparison of code units, [String.compare].  What
      depends on the width of a code unit, the end of the range of a
      prefix in [scan] and [count], is embedded a second time over
      16-bit code units, in the module [Utf16].
    - A JavaScript number is an IEEE-754 binary64 value, a [spec_float]
      with precision 53 and maximal exponent 1024.
    - A value is a JSON value, as [JSON.parse] builds them; an object is the
      list of its own properties in [Object.entries] order.  Its prototype
      is [Object.prototype], that of an array [Array.prototype]: a read
      [obj[key]] and a test [key in obj] that find no own property find
      what the prototype holds, a [propertyValue].  A document's [_id] is
      a string, as its type [ObjectId] says; where the engine splices an
      [_id] into a key the model applies [String()] to it.
    - The built-ins whose result is fixed by the language and not by this
      repository (number formatting and parsing, the clock, the random
      source) are the fields of the class [JsBuiltins]; the general
      theorems hold for every instance, and the runs on concrete data
      that need these results take them from [integerBuiltins].
    - A thrown exception is the [Err] case of [result].
    - [async] functions run to completion one after the other (the
      per-collection mutex serialises them), so they are functions from a
      store to a result and a store. *)

From Stdlib Require Import ZArith NArith List String Ascii Bool Lia Arith.
From Stdlib Require Import DecimalString.
From Stdlib Require Import Sorting.Sorted.
From Stdlib Require Import Floats.SpecFloat.
Import ListNotations.

Set Warnings "-register-all,-abstract-large-number".

Open Scope string_scope.
Open Scope Z_scope.

(* ================================================================== *)
(** * Part I. The embedding                                            *)
(* ================================================================== *)

(** ** JavaScript strings *)

(** [a < b] on strings. *)
Definition str_ltb (a b : string) : bool := String.ltb a b.

(** [s.padStart(len, fill)] for a one-character [fill]. *)
Fixpoint replicate (n : nat) (c : ascii) : string :=
  match n with
  | O => EmptyString
  | S n' => String c (replicate n' c)
  end.

Definition padStart (len : nat) (fill : ascii) (s : string) : string :=
  replicate (len - String.length s) fill ++ s.

(** One digit of [Number.prototype.toString(16)]. *)
Definition hexDigit (d : Z) : ascii :=
  match d with
  | 0 => "0" | 1 => "1" | 2 => "2" | 3 => "3"
  | 4 => "4" | 5 => "5" | 6 => "6" | 7 => "7"
  | 8 => "8" | 9 => "9" | 10 => "a" | 11 => "b"
  | 12 => "c" | 13 => "d" | 14 => "e" | _ => "f"
  end%char.

(** [n.toString(16)] for a non-negative integer [n]: the digits are
    produced from the least significant one, without leading zeros. *)
Fixpoint toString16_loop (fuel : nat) (n : Z) (acc : string) : string :=
  match fuel with
  | O => acc
  | S fuel' =>
      let acc' := String (hexDigit (n mod 16)) acc in
      if n / 16 =? 0 then acc' else toString16_loop fuel' (n / 16) acc'
  end.

Definition toString16 (n : Z) : string :=
  toString16_loop (S (Z.to_nat (Z.log2 n))) n EmptyString.

(** The [k]-digit hexadecimal rendering of [n], most significant digit
    first; [hex8] below is shown to produce it on 32-bit words. *)
Fixpoint hexFixed (k : nat) (n : Z) : string :=
  match k with
  | O => EmptyString
  | S k' => hexFixed k' (n / 16) ++ String (hexDigit (n mod 16)) EmptyString
  end.

(** ** IEEE-754 doubles *)

Definition number := spec_float.

Definition prec : Z := 53.
Definition emax : Z := 1024.

(** The values a JavaScript number can take: the representations that
    are canonical binary64 numbers. *)
Definition isDouble (n : number) : bool := valid_binary prec emax n.

Definition isNaN (n : number) : bool :=
  match n with S754_nan => true | _ => false end.

Definition isFiniteNumber (n : number) : bool :=
  match n with
  | S754_zero _ | S754_finite _ _ _ => true
  | _ => false
  end.

Definition posZero : number := S754_zero false.
Definition negZero : number := S754_zero true.
Definition posInfinity : number := S754_infinity false.
Definition negInfinity : number := S754_infinity true.

(** [a < b], [a >= b] and [a === b] on numbers. *)
Definition num_ltb (a b : number) : bool := SFltb a b.
Definition num_geb (a b : number) : bool := SFleb b a.
Definition num_eqb (a b : number) : bool := SFeqb a b.

(** The 64 bits that [buf.writeDoubleBE(n, 0)] stores, as the unsigned
    integer read big-endian: sign, 11 bits of biased exponent, 52 bits of
    fraction. *)
Definition joinBits (s : bool) (biasedExp frac : Z) : Z :=
  (if s then 2 ^ 63 else 0) + biasedExp * 2 ^ 52 + frac.

Definition doubleBits (n : number) : Z :=
  match n with
  | S754_zero s => joinBits s 0 0
  | S754_infinity s => joinBits s 2047 0
  | S754_nan => joinBits false 2047 (2 ^ 51)
  | S754_finite s m e =>
      if 2 ^ 52 <=? Zpos m
      then joinBits s (e + 1075) (Zpos m - 2 ^ 52)
      else joinBits s 0 (Zpos m)
  end.

(** [x >>> 0]. *)
Definition uint32 (x : Z) : Z := x mod 2 ^ 32.

(** [buf.readUInt32BE(0)] and [buf.readUInt32BE(4)] of the 8 bytes. *)
Definition readHigh (bits : Z) : Z := bits / 2 ^ 32.
Definition readLow (bits : Z) : Z := bits mod 2 ^ 32.

(** [h.toString(16).padStart(8, '0')]. *)
Definition hex8 (h : Z) : string := padStart 8 "0"%char (toString16 h).

(** key-encoding.ts, [encodeNumber]. *)
Definition encodeNumber (n : number) : string :=
  if isNaN n then "2:N"
  else if (match n with S754_infinity false => true | _ => false end) then "2:Z"
  else if (match n with S754_infinity true => true | _ => false end) then "2:A"
  else
    let bits := doubleBits n in
    let high := readHigh bits in
    let low := readLow bits in
    if num_geb n posZero then
      let h := uint32 (Z.lor high 2147483648) in
      "2:" ++ hex8 h ++ hex8 low
    else
      let h := uint32 (Z.lnot high) in
      let l := uint32 (Z.lnot low) in
      "2:" ++ hex8 h ++ hex8 l.

(** The 64-bit word whose sixteen hexadecimal digits [encodeNumber]
    writes for a finite number: the two transformed 32-bit halves read as
    one big-endian integer. *)
Definition sortKey (n : number) : Z :=
  let bits := doubleBits n in
  if num_geb n posZero
  then 2 ^ 32 * uint32 (Z.lor (readHigh bits) 2147483648) + readLow bits
  else 2 ^ 32 * uint32 (Z.lnot (readHigh bits)) + uint32 (Z.lnot (readLow bits)).

(** The exponent and fraction fields of a finite number, without the
    sign bit. *)
Definition magnitudeBits (n : number) : Z :=
  match n with
  | S754_finite _ m e =>
      if 2 ^ 52 <=? Zpos m then (e + 1075) * 2 ^ 52 + (Zpos m - 2 ^ 52) else Zpos m
  | _ => 0
  end.

Definition isNegative (n : number) : bool :=
  match n with S754_finite true _ _ => true | _ => false end.

(** Doubles used in examples: an integer-valued double [m * 2^e]. *)
Definition one : number := S754_finite false 4503599627370496 (-52).
Definition minusOne : number := S754_finite true 4503599627370496 (-52).
Definition ten : number := S754_finite false 5629499534213120 (-49).
(** [Number.MAX_VALUE], which is [(2^53 - 1) * 2^971]. *)
Definition maxValue : number := S754_finite false 9007199254740991 971.

(** ** Exceptions *)

(** shared/src/index.ts, [ErrorCodes]. *)
Module ErrorCodes.
Definition OK : Z := 0.
Definition InternalError : Z := 1.
Definition BadValue : Z := 2.
Definition NoSuchKey : Z := 4.
Definition Unauthorized : Z := 13.
Definition TypeMismatch : Z := 14.
Definition InvalidLength : Z := 21.
Definition CommandNotFound : Z := 59.
Definition NamespaceNotFound : Z := 26.
Definition IndexNotFound : Z := 27.
Definition NamespaceExists : Z := 48.
Definition DuplicateKey : Z := 11000.
Definition DocumentValidationFailure : Z := 121.
Definition InvalidBSON : Z := 22.
Definition DocumentTooLarge : Z := 10334.
Definition WriteConflict : Z := 112.
Definition InvalidNamespace : Z := 73.
End ErrorCodes.

(** The exceptions the storage engine throws.  The human-readable message
    is kept only for the plain [Error]s, which carry nothing else. *)
Inductive exn : Type :=
| DocumentStoreError (code : Z) (codeName : option string)
| IndexError (code : Z)
| PlainError (message : string)
| TypeError   (* a call of what is not a function; a row read as a payload
                 of another kind than it holds *)
| LoopBound.  (* a [while (true)] loop did not end within the model's bound *)

Inductive result (A : Type) : Type :=
| Ok (a : A)
| Err (e : exn).
Arguments Ok {A} a.
Arguments Err {A} e.

Definition isOk {A} (r : result A) : bool :=
  match r with Ok _ => true | Err _ => false end.

(** The numeric code an exception carries, if any. *)
Definition exnCode (e : exn) : option Z :=
  match e with
  | DocumentStoreError c _ => Some c
  | IndexError c => Some c
  | _ => None
  end.

(** ** JSON values *)

Inductive value : Type :=
| VNull
| VBool (b : bool)
| VNum (n : number)
| VStr (s : string)
| VArr (items : list value)
| VObj (fields : list (string * value)).

(** [Record<string, unknown>]: documents, filters, operator payloads. *)
Definition document := list (string * value).

(** The own property [key] of an object given by its entries; [None] if
    it has none. *)
Fixpoint getField (key : string) (fields : document) : option value :=
  match fields with
  | [] => None
  | (k, v) :: rest => if String.eqb k key then Some v else getField key rest
  end.

(** [Object.hasOwn(obj, key)]; it is [key in obj] for the keys that no
    prototype has, as are the operators [$gt], [$eq], ... *)
Definition hasField (key : string) (fields : document) : bool :=
  match getField key fields with Some _ => true | None => false end.

(** [obj[key] = v]: an existing property keeps its place, a new one is
    appended. *)
Fixpoint setField (key : string) (v : value) (fields : document) : document :=
  match fields with
  | [] => [(key, v)]
  | (k, x) :: rest =>
      if String.eqb k key then (k, v) :: rest else (k, x) :: setField key v rest
  end.

(** [delete obj[key]]. *)
Fixpoint deleteField (key : string) (fields : document) : document :=
  match fields with
  | [] => []
  | (k, x) :: rest =>
      if String.eqb k key then deleteField key rest else (k, x) :: deleteField key rest
  end.

(** *** Properties inherited from the prototypes *)

(** The methods of [Object.prototype], as Node.js has them.  Its one
    other property is the accessor [__proto__]. *)
Definition objectPrototypeMethods : list string :=
  ["constructor"; "hasOwnProperty"; "isPrototypeOf"; "propertyIsEnumerable";
   "toLocaleString"; "toString"; "valueOf";
   "__defineGetter__"; "__defineSetter__"; "__lookupGetter__"; "__lookupSetter__"].

Definition isObjectPrototypeMethod (key : string) : bool :=
  existsb (String.eqb key) objectPrototypeMethods.

(** [key in {}]: [Object.prototype] has a property of this name. *)
Definition inObjectPrototype (key : string) : bool :=
  isObjectPrototypeMethod key || String.eqb key "__proto__".

(** What a property read gives on the objects and arrays of a document:
    nothing, a JSON value, a built-in function (given by its name), or
    one of the two prototypes. *)
Inductive propertyValue : Type :=
| Undefined
| Json (v : value)
| NativeFunction (name : string)
| ObjectPrototype
| ArrayPrototype.

(** [Object.prototype[key]]; its [__proto__] is [null]. *)
Definition objectPrototypeGet (key : string) : propertyValue :=
  if String.eqb key "constructor" then NativeFunction "Object"
  else if isObjectPrototypeMethod key then NativeFunction key
  else if String.eqb key "__proto__" then Json VNull
  else Undefined.

(** [obj[key]] on an object given by its entries: the own property, or
    else what [Object.prototype] gives, the accessor [__proto__] giving
    the prototype itself. *)
Definition readProperty (fields : document) (key : string) : propertyValue :=
  match getField key fields with
  | Some v => Json v
  | None =>
      if String.eqb key "__proto__" then ObjectPrototype
      else objectPrototypeGet key
  end.

(** [key in obj]. *)
Definition hasProperty (key : string) (fields : document) : bool :=
  hasField key fields || inObjectPrototype key.

(** [value === undefined || value === null]. *)
Definition isNullish (v : propertyValue) : bool :=
  match v with Undefined | Json VNull => true | _ => false end.

(** [String(i)] for an array index. *)
Definition indexKey (i : nat) : string := NilZero.string_of_uint (Nat.to_uint i).

(** The entries of an array, [Object.entries(arr)], from index [i] on. *)
Fixpoint arrayEntries (i : nat) (items : list value) : document :=
  match items with
  | [] => []
  | x :: rest => (indexKey i, x) :: arrayEntries (S i) rest
  end.

(** The entries of a string: one single-character string per index. *)
Fixpoint stringEntries (i : nat) (s : string) : document :=
  match s with
  | EmptyString => []
  | String c rest => (indexKey i, VStr (String c EmptyString)) :: stringEntries (S i) rest
  end.

(** [Object.entries(v)] for a value that is not [null]; numbers and
    booleans have no own enumerable property. *)
Definition objectEntries (v : value) : document :=
  match v with
  | VObj fields => fields
  | VArr items => arrayEntries 0 items
  | VStr s => stringEntries 0 s
  | _ => []
  end.

(** [Object.keys(v)]. *)
Definition objectKeys (v : value) : list string := map fst (objectEntries v).

(** [typeof v === 'object' && v !== null && !Array.isArray(v)]. *)
Definition isPlainObject (v : value) : bool :=
  match v with VObj _ => true | _ => false end.

(** [Boolean(v)]. *)
Definition truthy (v : value) : bool :=
  match v with
  | VNull => false
  | VBool b => b
  | VNum n => match n with S754_zero _ | S754_nan => false | _ => true end
  | VStr s => negb (String.eqb s "")
  | VArr _ | VObj _ => true
  end.

(** An integer as a number; exact below [2^53]. *)
Definition numberOfZ (z : Z) : number := binary_normalize prec emax z 0 false.

(** [a + b] on numbers. *)
Definition num_add (a b : number) : number := SFadd prec emax a b.

(** ** Built-ins of the language and of the platform *)

Class JsBuiltins : Type := {
  (** [Number.prototype.toString()] in radix 10, on a finite number *)
  numberToString : number -> string;
  (** [Number(s)] on a string *)
  stringToNumber : string -> number;
  (** the value of the [n]-th call of [Date.now()] *)
  dateNow : nat -> Z;
  (** the value of the [n]-th call of [uuidv4()], dashes removed *)
  uuidHex : nat -> string;
  (** the names of the methods of [Array.prototype], a list that grows
      with the version of the language *)
  arrayPrototypeMethods : list string;
  (** [String(f)] for the built-in function of this name, whose layout is
      left to the implementation *)
  functionToString : string -> string
}.

Section WithBuiltins.
Context {B : JsBuiltins}.

(** [String(v)]. *)
Fixpoint toStringJs (v : value) : string :=
  match v with
  | VNull => "null"
  | VBool b => if b then "true" else "false"
  | VNum n =>
      match n with
      | S754_nan => "NaN"
      | S754_infinity false => "Infinity"
      | S754_infinity true => "-Infinity"
      | _ => numberToString n
      end
  | VStr s => s
  | VArr items =>
      (fix join (l : list value) : string :=
         match l with
         | [] => ""
         | [x] => match x with VNull => "" | _ => toStringJs x end
         | x :: rest =>
             (match x with VNull => "" | _ => toStringJs x end) ++ "," ++ join rest
         end) items
  | VObj _ => "[object Object]"
  end.

(** [Number(v)]. *)
Definition toNumber (v : value) : number :=
  match v with
  | VNull => posZero
  | VBool b => if b then one else posZero
  | VNum n => n
  | VStr s => stringToNumber s
  | VArr _ | VObj _ => stringToNumber (toStringJs v)
  end.

(** One character of a string under [JSON.stringify]. *)
Definition quoteChar (c : ascii) : string :=
  let n := Z.of_N (N_of_ascii c) in
  if n =? 8 then "\b"
  else if n =? 9 then "\t"
  else if n =? 10 then "\n"
  else if n =? 12 then "\f"
  else if n =? 13 then "\r"
  else if n =? 34 then String "\"%char (String c EmptyString)
  else if n =? 92 then "\\"
  else if n <? 32 then "\u00" ++ hexFixed 2 n
  else String c EmptyString.

Fixpoint quoteChars (s : string) : string :=
  match s with
  | EmptyString => EmptyString
  | String c rest => quoteChar c ++ quoteChars rest
  end.

Definition dquote : string := String (ascii_of_nat 34) EmptyString.

Definition quoteJSONString (s : string) : string := dquote ++ quoteChars s ++ dquote.

(** [JSON.stringify(v)]. *)
Fixpoint jsonStringify (v : value) : string :=
  match v with
  | VNull => "null"
  | VBool b => if b then "true" else "false"
  | VNum n =>
      match n with
      | S754_zero _ => "0"
      | S754_finite _ _ _ => numberToString n
      | _ => "null"
      end
  | VStr s => quoteJSONString s
  | VArr items =>
      "[" ++
      (fix join (l : list value) : string :=
         match l with
         | [] => ""
         | [x] => jsonStringify x
         | x :: rest => jsonStringify x ++ "," ++ join rest
         end) items ++ "]"
  | VObj fields =>
      "{" ++
      (fix join (l : list (string * value)) : string :=
         match l with
         | [] => ""
         | [(k, x)] => quoteJSONString k ++ ":" ++ jsonStringify x
         | (k, x) :: rest => quoteJSONString k ++ ":" ++ jsonStringify x ++ "," ++ join rest
         end) fields ++ "}"
  end.

(** [JSON.stringify(v)] for what a property read gave; the result is
    [undefined] for [undefined] and for a function, and neither
    prototype has an enumerable property. *)
Definition jsonStringifyOpt (v : propertyValue) : option string :=
  match v with
  | Undefined | NativeFunction _ => None
  | Json x => Some (jsonStringify x)
  | ObjectPrototype => Some "{}"
  | ArrayPrototype => Some "[]"
  end.

End WithBuiltins.

(** [JSON.parse(JSON.stringify(v))]: what a reader of the stored text gets
    back.  Numbers that are not finite are written as [null], and a
    negative zero is written as [0]. *)
Fixpoint jsonRoundTrip (v : value) : value :=
  match v with
  | VNum n =>
      match n with
      | S754_zero _ => VNum posZero
      | S754_finite _ _ _ => v
      | _ => VNull
      end
  | VArr items => VArr (map jsonRoundTrip items)
  | VObj fields => VObj (map (fun kv => (fst kv, jsonRoundTrip (snd kv))) fields)
  | _ => v
  end.

Definition jsonRoundTripDoc (d : document) : document :=
  map (fun kv => (fst kv, jsonRoundTrip (snd kv))) d.

(** ** String methods used by the key codec *)

(** [s.indexOf(c)] for a one-character [c]; [None] is [-1]. *)
Fixpoint indexOf (c : ascii) (s : string) : option nat :=
  match s with
  | EmptyString => None
  | String x rest =>
      if Ascii.eqb x c then Some O else option_map S (indexOf c rest)
  end.

(** [s.lastIndexOf(c)]. *)
Fixpoint lastIndexOf (c : ascii) (s : string) : option nat :=
  match s with
  | EmptyString => None
  | String x rest =>
      match lastIndexOf c rest with
      | Some i => Some (S i)
      | None => if Ascii.eqb x c then Some O else None
      end
  end.

(** [s.substring(n)]. *)
Fixpoint strDrop (n : nat) (s : string) : string :=
  match n, s with
  | O, _ => s
  | S n', String _ rest => strDrop n' rest
  | S _, EmptyString => EmptyString
  end.

(** [s.substring(0, n)]. *)
Fixpoint strTake (n : nat) (s : string) : string :=
  match n, s with
  | O, _ => EmptyString
  | S n', String x rest => String x (strTake n' rest)
  | S _, EmptyString => EmptyString
  end.

(** [s.substring(a, b)] for [a <= b]. *)
Definition substring (a b : nat) (s : string) : string := strTake (b - a) (strDrop a s).

(** [s.indexOf(c, from)]. *)
Definition indexOfFrom (c : ascii) (from : nat) (s : string) : option nat :=
  option_map (Nat.add from) (indexOf c (strDrop from s)).

(** [s.startsWith(p)]. *)
Definition startsWith (p s : string) : bool := String.prefix p s.

(** [c] occurs in [s]. *)
Fixpoint containsChar (c : ascii) (s : string) : bool :=
  match s with
  | EmptyString => false
  | String x rest => Ascii.eqb x c || containsChar c rest
  end.

(** ** key-encoding.ts *)

Definition colon : ascii := ":"%char.
(** [IDX_ID_SEP], the unit separator [\x1F]. *)
Definition IDX_ID_SEP_char : ascii := ascii_of_nat 31.
Definition IDX_ID_SEP : string := String IDX_ID_SEP_char EmptyString.
(** ["\xff"]. *)
Definition xff : string := String (ascii_of_nat 255) EmptyString.

Definition encodeDocKey (collection id : string) : string :=
  "doc:" ++ collection ++ ":" ++ id.

Definition encodeMetaKey (collection : string) : string :=
  "meta:collection:" ++ collection.

Definition docPrefix (collection : string) : string := "doc:" ++ collection ++ ":".

Definition idxPrefix (collection field : string) : string :=
  "idx:" ++ collection ++ ":" ++ field ++ ":".

Definition idxCollectionPrefix (collection : string) : string :=
  "idx:" ++ collection ++ ":".

Definition metaPrefix : string := "meta:collection:".

(** The argument of [encodeValue] is typed [unknown]: what a property
    read gave, or a [Date] object.  A [Date] is given by [getTime()],
    [None] for an invalid date. *)
Inductive unknown : Type :=
| DateObject (time : option Z)
| Plain (v : propertyValue).

Coercion Plain : propertyValue >-> unknown.

(** [encodeDate]. *)
Definition encodeDate (time : option Z) : string :=
  let high := match time with Some ms => uint32 (ms / 4294967296) | None => 0 end in
  let low := match time with Some ms => uint32 ms | None => 0 end in
  "4:" ++ hex8 high ++ hex8 low.

Section KeyEncoding.
Context {B : JsBuiltins}.

(** [encodeValue].  The fallback writes [JSON.stringify(value)] into a
    template: for a function that is the text [undefined]. *)
Definition encodeValue (u : unknown) : result string :=
  match u with
  | Plain Undefined | Plain (Json VNull) => Ok "0:"
  | Plain (Json (VBool b)) => Ok ("1:" ++ (if b then "1" else "0"))
  | Plain (Json (VNum n)) => Ok (encodeNumber n)
  | Plain (Json (VStr s)) =>
      if (1024 <? String.length s)%nat
      then Err (PlainError "Index string value exceeds maximum length of 1024 characters")
      else Ok ("3:" ++ s)
  | DateObject t => Ok (encodeDate t)
  | Plain v =>
      Ok ("3:" ++ match jsonStringifyOpt v with
                  | Some text => text
                  | None => "undefined"
                  end)
  end.

(** [encodeIdxKey]. *)
Definition encodeIdxKey (collection field : string) (v : unknown) (id : string)
  : result string :=
  match encodeValue v with
  | Ok encodedValue =>
      Ok ("idx:" ++ collection ++ ":" ++ field ++ ":" ++ encodedValue ++ IDX_ID_SEP ++ id)
  | Err e => Err e
  end.

(** [computeIndexRange]; [operator] is the object holding the comparison
    operators. *)
Definition computeIndexRange (collection field : string) (operator : document)
  : result (string * string) :=
  let prefix := idxPrefix collection field in
  match getField "$eq" operator with
  | Some eq =>
      match encodeValue (Json eq) with
      | Ok enc => Ok (prefix ++ enc ++ IDX_ID_SEP, prefix ++ enc ++ IDX_ID_SEP ++ xff)
      | Err e => Err e
      end
  | None =>
      let startKey :=
        match getField "$gt" operator with
        | Some gt =>
            match encodeValue (Json gt) with
            | Ok enc => Ok (prefix ++ enc ++ IDX_ID_SEP ++ xff)
            | Err e => Err e
            end
        | None =>
            match getField "$gte" operator with
            | Some gte =>
                match encodeValue (Json gte) with
                | Ok enc => Ok (prefix ++ enc ++ IDX_ID_SEP)
                | Err e => Err e
                end
            | None => Ok prefix
            end
        end in
      match startKey with
      | Err e => Err e
      | Ok startKey =>
          match getField "$lt" operator with
          | Some lt =>
              match encodeValue (Json lt) with
              | Ok enc => Ok (startKey, prefix ++ enc ++ IDX_ID_SEP)
              | Err e => Err e
              end
          | None =>
              match getField "$lte" operator with
              | Some lte =>
                  match encodeValue (Json lte) with
                  | Ok enc => Ok (startKey, prefix ++ enc ++ IDX_ID_SEP ++ xff)
                  | Err e => Err e
                  end
              | None => Ok (startKey, prefix ++ xff)
              end
          end
      end
  end.

End KeyEncoding.

(** The result of [decodeIdxKey]. *)
Record DecodedIdxKey : Type := {
  dk_collection : string;
  dk_field : string;
  dk_encodedValue : string;
  dk_id : string
}.

(** [decodeIdxKey]. *)
Definition decodeIdxKey (key : string) : option DecodedIdxKey :=
  match indexOf colon key with
  | None => None
  | Some firstColon =>
      if negb (String.eqb (substring 0 firstColon key) "idx") then None
      else
        match indexOfFrom colon (firstColon + 1) key with
        | None => None
        | Some secondColon =>
            match indexOfFrom colon (secondColon + 1) key with
            | None => None
            | Some thirdColon =>
                let collection := substring (firstColon + 1) secondColon key in
                let field := substring (secondColon + 1) thirdColon key in
                let rest := strDrop (thirdColon + 1) key in
                match lastIndexOf IDX_ID_SEP_char rest with
                | None => None
                | Some sepIdx =>
                    Some {| dk_collection := collection;
                            dk_field := field;
                            dk_encodedValue := substring 0 sepIdx rest;
                            dk_id := strDrop (sepIdx + 1) rest |}
                end
            end
        end
  end.

(** ** query-planner.ts: residual filter evaluation *)

(** [s.split(c)] for a one-character separator. *)
Fixpoint splitOn (c : ascii) (s : string) : list string :=
  match s with
  | EmptyString => [EmptyString]
  | String x rest =>
      if Ascii.eqb x c then EmptyString :: splitOn c rest
      else match splitOn c rest with
           | [] => [String x EmptyString]
           | first :: others => String x first :: others
           end
  end.

(** ** key-encoding.ts: the decoders that split a key at [':'] *)

(** [parts.join(sep)]. *)
Fixpoint join (sep : string) (parts : list string) : string :=
  match parts with
  | [] => EmptyString
  | [x] => x
  | x :: rest => x ++ sep ++ join sep rest
  end.

Record DecodedDocKey : Type := {
  ddk_collection : string;
  ddk_id : string
}.

(** [decodeDocKey]; [split] returns at least one part. *)
Definition decodeDocKey (key : string) : option DecodedDocKey :=
  match splitOn colon key with
  | p0 :: p1 :: p2 :: rest =>
      if negb (String.eqb p0 "doc") then None
      else Some {| ddk_collection := p1; ddk_id := join ":" (p2 :: rest) |}
  | _ => None
  end.

(** [decodeMetaKey]. *)
Definition decodeMetaKey (key : string) : option string :=
  match splitOn colon key with
  | p0 :: p1 :: p2 :: rest =>
      if negb (String.eqb p0 "meta") || negb (String.eqb p1 "collection") then None
      else Some (join ":" (p2 :: rest))
  | _ => None
  end.

(** [encodeSystemMetaKey]. *)
Definition encodeSystemMetaKey (name : string) : string := "meta:system:" ++ name.

(** ** query-planner.ts: residual filter evaluation, continued *)

Section PropertyReads.
Context {B : JsBuiltins}.

Definition isArrayPrototypeMethod (key : string) : bool :=
  existsb (String.eqb key) arrayPrototypeMethods.

(** [Array.prototype[key]]: its own [length] is 0, its [constructor] is
    [Array], and its prototype is [Object.prototype]. *)
Definition arrayPrototypeGet (key : string) : propertyValue :=
  if String.eqb key "length" then Json (VNum posZero)
  else if String.eqb key "constructor" then NativeFunction "Array"
  else if isArrayPrototypeMethod key then NativeFunction key
  else if String.eqb key "__proto__" then ObjectPrototype
  else objectPrototypeGet key.

(** [arr[key]] on an array given by its items: the length, an element,
    or else what [Array.prototype] gives. *)
Definition readArray (items : list value) (key : string) : propertyValue :=
  if String.eqb key "length" then Json (VNum (numberOfZ (Z.of_nat (List.length items))))
  else
    match getField key (arrayEntries 0 items) with
    | Some v => Json v
    | None =>
        if String.eqb key "__proto__" then ArrayPrototype
        else arrayPrototypeGet key
    end.

(** [current[part]] when [typeof current] is [object] and [current] is
    not [null]; [None] when it is not so. *)
Definition getProperty (current : propertyValue) (part : string) : option propertyValue :=
  match current with
  | Json (VObj fields) => Some (readProperty fields part)
  | Json (VArr items) => Some (readArray items part)
  | ObjectPrototype => Some (objectPrototypeGet part)
  | ArrayPrototype => Some (arrayPrototypeGet part)
  | _ => None
  end.

(** [getNestedField]: the loop returns [undefined] as soon as [current]
    is [null], [undefined] or no object. *)
Definition getNestedField (doc : document) (path : string) : propertyValue :=
  fold_left
    (fun (current : propertyValue) (part : string) =>
       match getProperty current part with
       | Some next => next
       | None => Undefined
       end)
    (splitOn "."%char path) (Json (VObj doc)).

End PropertyReads.

(** [a === b] on two values that are not the same object: objects and
    arrays of a document and of a filter are never identical. *)
Definition strictEquals (a b : value) : bool :=
  match a, b with
  | VNull, VNull => true
  | VBool x, VBool y => Bool.eqb x y
  | VNum x, VNum y => num_eqb x y
  | VStr x, VStr y => String.eqb x y
  | _, _ => false
  end.

(** [typeof a === typeof b]. *)
Definition sameTypeof (a b : value) : bool :=
  match a, b with
  | VBool _, VBool _ | VNum _, VNum _ | VStr _, VStr _ => true
  | (VNull | VArr _ | VObj _), (VNull | VArr _ | VObj _) => true
  | _, _ => false
  end.

(** [deepEquals] on two defined values. *)
Fixpoint deepEqualsV (a b : value) {struct a} : bool :=
  if strictEquals a b then true
  else
    match a, b with
    | VNull, _ | _, VNull => false
    | VArr xs, VArr ys =>
        (List.length xs =? List.length ys)%nat &&
        (fix each (l : list value) (r : list value) : bool :=
           match l, r with
           | x :: l', y :: r' => deepEqualsV x y && each l' r'
           | _, _ => true
           end) xs ys
    | VObj fa, (VObj _ | VArr _) =>
        (List.length fa =? List.length (objectKeys b))%nat &&
        (fix each (l : list (string * value)) : bool :=
           match l with
           | [] => true
           | (key, x) :: l' =>
               match getField key (objectEntries b) with
               | Some y => deepEqualsV x y && each l'
               | None => false
               end
           end) fa
    | VArr xs, VObj fb =>
        (List.length xs =? List.length fb)%nat &&
        (fix each (i : nat) (l : list value) : bool :=
           match l with
           | [] => true
           | x :: l' =>
               match getField (indexKey i) fb with
               | Some y => deepEqualsV x y && each (S i) l'
               | None => false
               end
           end) O xs
    | _, _ => false
    end.

(** [deepEquals(a, b)] for what a property read gave and a value of the
    filter.  [undefined] and a function differ from every JSON value in
    their [typeof]; a prototype is an object, or an array, without
    enumerable property, and is identical to no value of the filter. *)
Definition deepEquals (a : propertyValue) (b : value) : bool :=
  match a with
  | Json x => deepEqualsV x b
  | Undefined | NativeFunction _ => false
  | ObjectPrototype => deepEqualsV (VObj []) b
  | ArrayPrototype => deepEqualsV (VArr []) b
  end.

Inductive comparator : Type := CmpGt | CmpGte | CmpLt | CmpLte.

Section ResidualFilter.
Context {B : JsBuiltins}.

(** [Number(a)] and [String(a)] for what a property read gave.  A
    function and [Object.prototype] convert through their [toString] to
    a text that is no number; [Array.prototype] converts as the empty
    array does. *)
Definition toNumberOf (a : propertyValue) : number :=
  match a with
  | Json v => toNumber v
  | Undefined | NativeFunction _ => S754_nan
  | ObjectPrototype => toNumber (VObj [])
  | ArrayPrototype => toNumber (VArr [])
  end.

Definition toStringOf (a : propertyValue) : string :=
  match a with
  | Json v => toStringJs v
  | Undefined => "undefined"
  | NativeFunction name => functionToString name
  | ObjectPrototype => toStringJs (VObj [])
  | ArrayPrototype => toStringJs (VArr [])
  end.

(** [compareValues]. *)
Definition compareValues (a : propertyValue) (b : value) (op : comparator) : bool :=
  let numA := toNumberOf a in
  let numB := toNumber b in
  if negb (isNaN numA) && negb (isNaN numB) then
    match op with
    | CmpGt => num_ltb numB numA
    | CmpGte => num_geb numA numB
    | CmpLt => num_ltb numA numB
    | CmpLte => num_geb numB numA
    end
  else
    let strA := toStringOf a in
    let strB := toStringJs b in
    match op with
    | CmpGt => str_ltb strB strA
    | CmpGte => negb (str_ltb strA strB)
    | CmpLt => str_ltb strA strB
    | CmpLte => negb (str_ltb strB strA)
    end.

(** A range operator of [matchesComparison]: the document value must be
    neither [null] nor [undefined]. *)
Definition rangeHolds (v : propertyValue) (target : value) (op : comparator) : bool :=
  if isNullish v then false else compareValues v target op.

(** One [case] of the [switch] of [matchesComparison]: [Ok false] is
    [return false], [Ok true] is [break]. *)
Definition matchesOperator (v : propertyValue) (op : string) (target : value)
  : result bool :=
  if String.eqb op "$eq" then Ok (deepEquals v target)
  else if String.eqb op "$ne" then Ok (negb (deepEquals v target))
  else if String.eqb op "$gt" then Ok (rangeHolds v target CmpGt)
  else if String.eqb op "$gte" then Ok (rangeHolds v target CmpGte)
  else if String.eqb op "$lt" then Ok (rangeHolds v target CmpLt)
  else if String.eqb op "$lte" then Ok (rangeHolds v target CmpLte)
  else if String.eqb op "$in" then
    match target with
    | VArr items =>
        if (2000 <? List.length items)%nat
        then Err (PlainError "Query exceeds maximum $in array limit of 2000")
        else Ok (existsb (fun t => deepEquals v t) items)
    | _ => Ok true
    end
  else if String.eqb op "$nin" then
    match target with
    | VArr items =>
        if (2000 <? List.length items)%nat
        then Err (PlainError "Query exceeds maximum $nin array limit of 2000")
        else Ok (negb (existsb (fun t => deepEquals v t) items))
    | _ => Ok true
    end
  else if String.eqb op "$exists" then
    Ok (Bool.eqb (truthy target) (match v with Undefined => false | _ => true end))
  else Ok true.

(** [matchesComparison]. *)
Fixpoint matchesComparison (v : propertyValue) (ops : document) : result bool :=
  match ops with
  | [] => Ok true
  | (op, target) :: rest =>
      match matchesOperator v op target with
      | Ok true => matchesComparison v rest
      | other => other
      end
  end.

(** The test [matchesFilter] makes for an entry that is neither [$and]
    nor [$or]. *)
Definition matchesField (doc : document) (field : string) (condition : value)
  : result bool :=
  let docValue := getNestedField doc field in
  match condition with
  | VObj ops => matchesComparison docValue ops
  | _ => Ok (deepEquals docValue condition)
  end.

(** [matchesFilter].  The keys of a filter that is an array or a string
    are indices, never [$and] or [$or]. *)
Fixpoint matchesFilter (doc : document) (filter : value) {struct filter}
  : result bool :=
  if negb (truthy filter) || (List.length (objectKeys filter) =? 0)%nat then Ok true
  else
    match filter with
    | VObj entries =>
        (fix loop (l : list (string * value)) : result bool :=
           match l with
           | [] => Ok true
           | (field, condition) :: rest =>
               if String.eqb field "$and" then
                 match condition with
                 | VArr subs =>
                     match
                       (fix all (ss : list value) : result bool :=
                          match ss with
                          | [] => Ok true
                          | sub :: ss' =>
                              match matchesFilter doc sub with
                              | Ok true => all ss'
                              | other => other
                              end
                          end) subs
                     with
                     | Ok true => loop rest
                     | other => other
                     end
                 | _ => loop rest
                 end
               else if String.eqb field "$or" then
                 match condition with
                 | VArr orFilters =>
                     if (0 <? List.length orFilters)%nat then
                       match
                         (fix some (ss : list value) : result bool :=
                            match ss with
                            | [] => Ok false
                            | sub :: ss' =>
                                match matchesFilter doc sub with
                                | Ok false => some ss'
                                | other => other
                                end
                            end) orFilters
                       with
                       | Ok found => if negb found then Ok false else loop rest
                       | Err e => Err e
                       end
                     else loop rest
                 | _ => loop rest
                 end
               else
                 match matchesField doc field condition with
                 | Ok true => loop rest
                 | other => other
                 end
           end) entries
    | other =>
        (fix loop (l : list (string * value)) : result bool :=
           match l with
           | [] => Ok true
           | (field, condition) :: rest =>
               match matchesField doc field condition with
               | Ok true => loop rest
               | r => r
               end
           end) (objectEntries other)
    end.

End ResidualFilter.

(** ** query-planner.ts: plan selection *)

Inductive planType : Type := IndexScan | CollectionScan.

Record QueryPlan : Type := {
  plan_type : planType;
  indexField : option string;
  indexName : option string;
  startKey : option string;
  endKey : option string;
  needsPostFilter : bool;
  estimatedCost : Z
}.

(** shared/src/index.ts, [IndexDefinition]. *)
Record IndexDefinition : Type := {
  idx_name : string;
  idx_field : string;
  idx_unique : bool
}.

Definition collectionScanPlan (postFilter : bool) : QueryPlan :=
  {| plan_type := CollectionScan; indexField := None; indexName := None;
     startKey := None; endKey := None; needsPostFilter := postFilter;
     estimatedCost := 1000 |}.

(** [indexes.find((idx) => idx.field === field)]. *)
Definition findIndexByField (indexes : list IndexDefinition) (field : string)
  : option IndexDefinition :=
  find (fun idx => String.eqb (idx_field idx) field) indexes.

(** [Object.keys(filter).filter((f) => f !== field && !f.startsWith('$'))]. *)
Definition otherFields (filter : value) (field : string) : list string :=
  List.filter (fun f => negb (String.eqb f field) && negb (startsWith "$" f))
              (objectKeys filter).

Definition setNeedsPostFilter (p : QueryPlan) (b : bool) : QueryPlan :=
  {| plan_type := plan_type p; indexField := indexField p; indexName := indexName p;
     startKey := startKey p; endKey := endKey p; needsPostFilter := b;
     estimatedCost := estimatedCost p |}.

Section Planner.
Context {B : JsBuiltins}.

(** The first loop of [planQuery], over the entries of the filter:
    [Ok (Some plan)] is a [return] from inside the loop, [Ok None] its
    normal end. *)
Fixpoint planFromEntries (filter : value) (indexes : list IndexDefinition)
         (collection : string) (entries : list (string * value))
  : result (option QueryPlan) :=
  match entries with
  | [] => Ok None
  | (field, condition) :: rest =>
      if startsWith "$" field then planFromEntries filter indexes collection rest
      else
        match findIndexByField indexes field with
        | None => planFromEntries filter indexes collection rest
        | Some index =>
            match condition with
            | VObj ops =>
                let hasComparison :=
                  hasField "$gt" ops || hasField "$gte" ops || hasField "$lt" ops
                  || hasField "$lte" ops || hasField "$eq" ops in
                if hasComparison then
                  match computeIndexRange collection field ops with
                  | Err e => Err e
                  | Ok (startK, endK) =>
                      Ok (Some
                            {| plan_type := IndexScan;
                               indexField := Some field;
                               indexName := Some (idx_name index);
                               startKey := Some startK;
                               endKey := Some endK;
                               needsPostFilter :=
                                 (0 <? List.length (otherFields filter field))%nat;
                               estimatedCost := 10 |})
                  end
                else planFromEntries filter indexes collection rest
            | _ =>
                match computeIndexRange collection field [("$eq", condition)] with
                | Err e => Err e
                | Ok (startK, endK) =>
                    Ok (Some
                          {| plan_type := IndexScan;
                             indexField := Some field;
                             indexName := Some (idx_name index);
                             startKey := Some startK;
                             endKey := Some endK;
                             needsPostFilter :=
                               (0 <? List.length (otherFields filter field))%nat;
                             estimatedCost := 1 |})
                end
            end
        end
  end.

(** [planQuery]. *)
Fixpoint planQuery (filter : value) (indexes : list IndexDefinition)
         (collection : string) {struct filter} : result QueryPlan :=
  if negb (truthy filter) || (List.length (objectKeys filter) =? 0)%nat
  then Ok (collectionScanPlan false)
  else
    match planFromEntries filter indexes collection (objectEntries filter) with
    | Err e => Err e
    | Ok (Some plan) => Ok plan
    | Ok None =>
        match filter with
        | VObj entries =>
            (* the loop over the sub-filters of [$and] or of [$or] *)
            let branches :=
              fix branches (subFilters : list value) (otherwise : result QueryPlan)
                : result QueryPlan :=
                match subFilters with
                | [] => otherwise
                | subFilter :: more =>
                    match planQuery subFilter indexes collection with
                    | Err e => Err e
                    | Ok plan =>
                        match plan_type plan with
                        | IndexScan => Ok (setNeedsPostFilter plan true)
                        | CollectionScan => branches more otherwise
                        end
                    end
                end in
            (* [if (filter[key] && Array.isArray(filter[key])) { ... }],
               the property read being written as a scan of the entries *)
            let whenArray :=
              fun (key : string) (otherwise : result QueryPlan) =>
                (fix read (l : list (string * value)) : result QueryPlan :=
                   match l with
                   | [] => otherwise
                   | (k, v) :: l' =>
                       if String.eqb k key then
                         match v with
                         | VArr subFilters => branches subFilters otherwise
                         | _ => otherwise
                         end
                       else read l'
                   end) entries in
            whenArray "$and" (whenArray "$or" (Ok (collectionScanPlan true)))
        | _ => Ok (collectionScanPlan true)
        end
    end.

End Planner.

(** ** document-store.ts: validation helpers *)

Definition MAX_COLLECTION_NAME_LENGTH : nat := 120.

(** The characters that [\s] matches, among the code units below 256. *)
Definition isWhitespace (c : ascii) : bool :=
  let n := nat_of_ascii c in
  ((9 <=? n) && (n <=? 13) || (n =? 32) || (n =? 160))%nat.

Fixpoint allWhitespace (s : string) : bool :=
  match s with
  | EmptyString => true
  | String c rest => isWhitespace c && allWhitespace rest
  end.

(** [s.includes(p)]. *)
Fixpoint includes (p s : string) : bool :=
  startsWith p s ||
  match s with
  | EmptyString => false
  | String _ rest => includes p rest
  end.

(** [COLLECTION_NAME_BLOCKLIST.test(name)] for
    [/[:\/\\\x00]|^\s*$|\.\.|\.\.|^system\./]. *)
Definition COLLECTION_NAME_BLOCKLIST (name : string) : bool :=
  containsChar ":"%char name || containsChar "/"%char name
  || containsChar "\"%char name || containsChar (ascii_of_nat 0) name
  || allWhitespace name
  || includes ".." name
  || startsWith "system." name.

(** [validateCollectionName], on a name that is a string. *)
Definition validateCollectionName (name : string) : result unit :=
  if (String.length name =? 0)%nat then
    Err (DocumentStoreError ErrorCodes.InvalidNamespace (Some "InvalidNamespace"))
  else if (MAX_COLLECTION_NAME_LENGTH <? String.length name)%nat then
    Err (DocumentStoreError ErrorCodes.InvalidNamespace (Some "InvalidNamespace"))
  else if COLLECTION_NAME_BLOCKLIST name then
    Err (DocumentStoreError ErrorCodes.InvalidNamespace (Some "InvalidNamespace"))
  else Ok tt.

(** [DANGEROUS_KEYS.has(key)]. *)
Definition DANGEROUS_KEYS (key : string) : bool :=
  String.eqb key "__proto__" || String.eqb key "constructor" || String.eqb key "prototype".

(** [sanitizeDocument].  It is called on objects and, from inside an
    array, on arrays as well, whose keys are their indices. *)
Fixpoint sanitizeDocument (doc : value) (depth : nat) {struct doc} : result unit :=
  if (20 <? depth)%nat then
    Err (DocumentStoreError ErrorCodes.DocumentTooLarge None)
  else
    (* the body of the loop for the property value [val] *)
    let visit :=
      fun (val : value) =>
        match val with
        | VObj _ => sanitizeDocument val (S depth)
        | VArr items =>
            (fix each (l : list value) : result unit :=
               match l with
               | [] => Ok tt
               | item :: l' =>
                   match
                     match item with
                     | VObj _ | VArr _ => sanitizeDocument item (S depth)
                     | _ => Ok tt
                     end
                   with
                   | Ok _ => each l'
                   | Err e => Err e
                   end
               end) items
        | _ => Ok tt
        end in
    match doc with
    | VObj fields =>
        (fix loop (l : list (string * value)) : result unit :=
           match l with
           | [] => Ok tt
           | (key, val) :: rest =>
               if DANGEROUS_KEYS key then
                 Err (DocumentStoreError ErrorCodes.BadValue (Some "BadValue"))
               else
                 match visit val with
                 | Ok _ => loop rest
                 | Err e => Err e
                 end
           end) fields
    | VArr items =>
        (fix loop (i : nat) (l : list value) : result unit :=
           match l with
           | [] => Ok tt
           | val :: rest =>
               if DANGEROUS_KEYS (indexKey i) then
                 Err (DocumentStoreError ErrorCodes.BadValue (Some "BadValue"))
               else
                 match visit val with
                 | Ok _ => loop (S i) rest
                 | Err e => Err e
                 end
           end) O items
    | _ => Ok tt
    end.

(** No object anywhere in the value has a key of the dangerous set. *)
Fixpoint dangerFree (v : value) : bool :=
  match v with
  | VObj fields =>
      (fix all (l : list (string * value)) : bool :=
         match l with
         | [] => true
         | (key, x) :: rest => negb (DANGEROUS_KEYS key) && dangerFree x && all rest
         end) fields
  | VArr items =>
      (fix all (l : list value) : bool :=
         match l with
         | [] => true
         | x :: rest => dangerFree x && all rest
         end) items
  | _ => true
  end.

(** The nesting depth of a value: the largest number of objects and
    arrays, one inside the other, below the value itself.  A flat document
    has depth 0. *)
Fixpoint nestingDepth (v : value) : nat :=
  let below :=
    fun (x : value) =>
      match x with
      | VObj _ | VArr _ => S (nestingDepth x)
      | _ => O
      end in
  match v with
  | VObj fields =>
      (fix most (l : list (string * value)) : nat :=
         match l with
         | [] => O
         | (_, x) :: rest => Nat.max (below x) (most rest)
         end) fields
  | VArr items =>
      (fix most (l : list value) : nat :=
         match l with
         | [] => O
         | x :: rest => Nat.max (below x) (most rest)
         end) items
  | _ => O
  end.

(** The nesting depth as [sanitizeDocument] counts it: the largest
    [depth] with which it calls itself below [v].  Visiting [v], it calls
    itself with [depth + 1] on every object that is a value of [v] (the
    value of a field, or an element if [v] is an array), and on every
    object or array that is an element of an array that is a value of
    [v]; that array itself is walked at the depth of [v].  So of arrays
    nested directly in one another only every second one adds a level. *)
Fixpoint sanitizeLevels (v : value) : nat :=
  let below :=
    fun (x : value) =>
      match x with
      | VObj _ => S (sanitizeLevels x)
      | VArr items =>
          (fix most (l : list value) : nat :=
             match l with
             | [] => O
             | item :: rest =>
                 Nat.max (match item with
                          | VObj _ | VArr _ => S (sanitizeLevels item)
                          | _ => O
                          end) (most rest)
             end) items
      | _ => O
      end in
  match v with
  | VObj fields =>
      (fix most (l : list (string * value)) : nat :=
         match l with
         | [] => O
         | (_, x) :: rest => Nat.max (below x) (most rest)
         end) fields
  | VArr items =>
      (fix most (l : list value) : nat :=
         match l with
         | [] => O
         | x :: rest => Nat.max (below x) (most rest)
         end) items
  | _ => O
  end.

(** [n] objects one inside the other, around [inner]. *)
Fixpoint nestObjects (n : nat) (inner : value) : value :=
  match n with
  | O => inner
  | S n' => VObj [("a", nestObjects n' inner)]
  end.

(** [n] times an object holding an array, around [inner]. *)
Fixpoint nestObjectArrays (n : nat) (inner : value) : value :=
  match n with
  | O => inner
  | S n' => VObj [("a", VArr [nestObjectArrays n' inner])]
  end.

(** [n] arrays one inside the other, around [inner]. *)
Fixpoint nestArrays (n : nat) (inner : value) : value :=
  match n with
  | O => inner
  | S n' => VArr [nestArrays n' inner]
  end.

(** Three documents nested more than 20 deep: one with a dangerous key
    in front of 25 nested objects, one of 15 objects each holding an
    array that holds the next, one with 41 arrays one inside the other. *)
Definition deepWithDangerousKey : document :=
  [("constructor", VNull); ("a", nestObjects 25 VNull)].

Definition deepThroughArrays : document :=
  [("a", VArr [nestObjectArrays 15 VNull])].

Definition deepArrays : document := [("a", nestArrays 41 VNull)].

(** [stripOperators]. *)
Fixpoint stripOperators (filter : document) : document :=
  match filter with
  | [] => []
  | (key, v) :: rest =>
      if startsWith "$" key then stripOperators rest
      else
        match v with
        | VObj fields =>
            if existsb (fun k => startsWith "$" k) (map fst fields)
            then stripOperators rest
            else (key, v) :: stripOperators rest
        | _ => (key, v) :: stripOperators rest
        end
  end.

(** ** kv-adapter.ts: InMemoryKVStore *)

(** shared/src/index.ts, [CollectionMetadata].  [documentCount] is an
    integer far below [2^53], on which the arithmetic of numbers is exact. *)
Record CollectionMetadata : Type := {
  cm_name : string;
  cm_indexes : list IndexDefinition;
  cm_createdAt : Z;
  cm_schemaVersion : Z;
  cm_documentCount : Z
}.

(** The [Buffer]s the engine stores.  A buffer holding a JSON text is
    represented by the value [JSON.parse] returns for it. *)
Inductive buffer : Type :=
| BufOne                                (* [Buffer.from('1')] *)
| BufDoc (d : document)                 (* [Buffer.from(JSON.stringify(doc))] *)
| BufMeta (m : CollectionMetadata).     (* [Buffer.from(JSON.stringify(metadata))] *)

Definition KVEntry : Type := (string * buffer)%type.

(** The [Map] and its array [sortedKeys] are one list of entries kept in
    increasing order of the keys; [ensureSorted] has then nothing to do. *)
Definition kvstore : Type := list KVEntry.

Definition sortedKeys (s : kvstore) : list string := map fst s.

(** The keys are strictly increasing. *)
Definition str_lt (a b : string) : Prop := String.compare a b = Lt.
Definition kv_wf (s : kvstore) : Prop := StronglySorted str_lt (sortedKeys s).

(** [get]. *)
Fixpoint kv_get (key : string) (s : kvstore) : option buffer :=
  match s with
  | [] => None
  | (k, v) :: rest => if String.eqb k key then Some v else kv_get key rest
  end.

(** [put]: [store.set(key, buf)], at the place the sorted order gives. *)
Fixpoint kv_put (key : string) (v : buffer) (s : kvstore) : kvstore :=
  match s with
  | [] => [(key, v)]
  | (k, x) :: rest =>
      match String.compare key k with
      | Eq => (k, v) :: rest
      | Lt => (key, v) :: (k, x) :: rest
      | Gt => (k, x) :: kv_put key v rest
      end
  end.

(** [delete]: the store without the key. *)
Fixpoint kv_delete (key : string) (s : kvstore) : kvstore :=
  match s with
  | [] => []
  | (k, x) :: rest =>
      if String.eqb k key then kv_delete key rest else (k, x) :: kv_delete key rest
  end.

(** [has]. *)
Definition kv_has (key : string) (s : kvstore) : bool :=
  match kv_get key s with Some _ => true | None => false end.

(** The loop of [binarySearch]; [below k] is [k < key]. *)
Fixpoint binarySearch_loop (fuel : nat) (keys : list string) (below : string -> bool)
         (lo hi : nat) : nat :=
  match fuel with
  | O => lo
  | S fuel' =>
      if (lo <? hi)%nat then
        let mid := ((lo + hi) / 2)%nat in
        if below (nth mid keys EmptyString)
        then binarySearch_loop fuel' keys below (mid + 1)%nat hi
        else binarySearch_loop fuel' keys below lo mid
      else lo
  end.

Definition binarySearchBy (keys : list string) (below : string -> bool) : nat :=
  binarySearch_loop (S (List.length keys)) keys below O (List.length keys).

(** [binarySearch(key)]. *)
Definition binarySearch (s : kvstore) (key : string) : nat :=
  binarySearchBy (sortedKeys s) (fun k => str_ltb k key).

(** [k < prefix.slice(0, -1) + String.fromCharCode(prefix.charCodeAt(prefix.length - 1) + 1)]:
    the comparison with the end of a prefix range.  The incremented code
    unit may be 256, which is why the bound is not built as a string; it
    is never [0x10000], the one value that [String.fromCharCode] reduces
    (see [Utf16.prefixEnd]). *)
Fixpoint belowPrefixEnd (prefix k : string) : bool :=
  match prefix with
  | EmptyString => false
  | String p EmptyString =>
      match k with
      | EmptyString => true
      | String x _ => (nat_of_ascii x <? nat_of_ascii p + 1)%nat
      end
  | String p prefix' =>
      match k with
      | EmptyString => true
      | String x k' =>
          match Ascii.compare x p with
          | Lt => true
          | Gt => false
          | Eq => belowPrefixEnd prefix' k'
          end
      end
  end.

(** shared/src/index.ts, [ScanOptions]; an absent option is [None]. *)
Record ScanOptions : Type := {
  scan_prefix : option string;
  scan_startKey : option string;
  scan_endKey : option string;
  scan_limit : option nat;
  scan_reverse : bool
}.

(** A string option that is truthy: present and not empty. *)
Definition truthyString (o : option string) : option string :=
  match o with
  | Some EmptyString => None
  | other => other
  end.

(** [arr.slice(a, b)]. *)
Definition slice {A} (a b : nat) (l : list A) : list A := firstn (b - a) (skipn a l).

(** [scan]. *)
Definition kv_scan (options : ScanOptions) (s : kvstore) : list KVEntry :=
  let keys := sortedKeys s in
  let startIdx := O in
  let endIdx := List.length keys in
  let '(startIdx, endIdx) :=
    match truthyString (scan_prefix options) with
    | Some prefix =>
        (binarySearch s prefix, binarySearchBy keys (belowPrefixEnd prefix))
    | None => (startIdx, endIdx)
    end in
  let startIdx :=
    match truthyString (scan_startKey options) with
    | Some startKey => Nat.max startIdx (binarySearch s startKey)
    | None => startIdx
    end in
  let endIdx :=
    match truthyString (scan_endKey options) with
    | Some endKey => Nat.min endIdx (binarySearch s endKey)
    | None => endIdx
    end in
  let range := slice startIdx endIdx s in
  let ordered := if scan_reverse options then rev range else range in
  match scan_limit options with
  | Some limit => firstn limit ordered
  | None => ordered
  end.

(** The keys that a scan selects, as the interface describes them:
    [prefix] matches the keys starting with the prefix, [startKey] is
    inclusive and [endKey] exclusive. *)
Definition inScanRange (options : ScanOptions) (k : string) : bool :=
  match truthyString (scan_prefix options) with
  | Some p => startsWith p k
  | None => true
  end
  && match truthyString (scan_startKey options) with
     | Some a => negb (str_ltb k a)
     | None => true
     end
  && match truthyString (scan_endKey options) with
     | Some b => str_ltb k b
     | None => true
     end.

(** A predicate on keys that holds on a first part of the store and
    fails from then on, and the length of that part. *)
Fixpoint isCut {K V : Type} (below : K -> bool) (s : list (K * V)) : Prop :=
  match s with
  | [] => True
  | e :: rest =>
      (below (fst e) = false -> Forall (fun x => below (fst x) = false) rest)
      /\ isCut below rest
  end.

Definition countBelow {K V : Type} (below : K -> bool) (s : list (K * V)) : nat :=
  List.length (List.filter (fun e => below (fst e)) s).

(** [count]. *)
Definition kv_count (prefix : option string) (s : kvstore) : nat :=
  match truthyString prefix with
  | None => List.length s
  | Some p => binarySearchBy (sortedKeys s) (belowPrefixEnd p) - binarySearch s p
  end.

(** [getKeyCount]: [store.size]. *)
Definition kv_getKeyCount (s : kvstore) : nat := List.length s.

(** [clear]. *)
Definition kv_clear (s : kvstore) : kvstore := [].

Definition scanPrefix (prefix : string) (startKey : option string) (limit : nat)
  : ScanOptions :=
  {| scan_prefix := Some prefix; scan_startKey := startKey; scan_endKey := None;
     scan_limit := Some limit; scan_reverse := false |}.

(** ** kv-adapter.ts over 16-bit code units

    The keys of the store above are strings of 8-bit code units, on which
    [charCodeAt(...) + 1] is never more than a code unit can hold.  A
    JavaScript string holds 16-bit code units, and [String.fromCharCode]
    reduces its argument modulo [2^16]: the end of the range of a prefix
    whose last code unit is [0xFFFF] ends with the code unit 0.  This
    module embeds [binarySearch], [scan] and [count] once more, over
    strings of 16-bit code units and with that reduction. *)
Module Utf16.

(** A string is the list of its code units, numbers below [2^16]. *)
Definition jsString : Type := list N.

(** The comparison behind [a < b] on strings and behind [Array.prototype.sort]
    without a comparator: code unit by code unit. *)
Fixpoint compare (a b : jsString) : comparison :=
  match a, b with
  | [], [] => Eq
  | [], _ :: _ => Lt
  | _ :: _, [] => Gt
  | x :: a', y :: b' =>
      match N.compare x y with
      | Eq => compare a' b'
      | c => c
      end
  end.

(** [a < b]. *)
Definition ltb (a b : jsString) : bool :=
  match compare a b with Lt => true | _ => false end.

(** [s.startsWith(p)]. *)
Fixpoint startsWith (p s : jsString) : bool :=
  match p, s with
  | [], _ => true
  | _ :: _, [] => false
  | x :: p', y :: s' => N.eqb x y && startsWith p' s'
  end.

(** [String.fromCharCode(n)]: the one code unit [ToUint16(n)]. *)
Definition fromCharCode (n : N) : jsString := [(n mod 65536)%N].

(** [prefix.slice(0, -1) + String.fromCharCode(prefix.charCodeAt(prefix.length - 1) + 1)].
    On the empty string [charCodeAt(-1)] is [NaN], which [fromCharCode]
    turns into the code unit 0. *)
Definition prefixEnd (prefix : jsString) : jsString :=
  match prefix with
  | [] => [0%N]
  | _ :: _ => (removelast prefix ++ fromCharCode (last prefix 0%N + 1))%list
  end.

Definition KVEntry : Type := (jsString * buffer)%type.

(** The [Map] and its array [sortedKeys], as one list of entries. *)
Definition store : Type := list KVEntry.

Definition sortedKeys (s : store) : list jsString := map fst s.

(** The keys are strictly increasing, as [ensureSorted] leaves them. *)
Definition lt (a b : jsString) : Prop := compare a b = Lt.
Definition wf (s : store) : Prop := StronglySorted lt (sortedKeys s).

(** The loop of [binarySearch]. *)
Fixpoint binarySearch_loop (fuel : nat) (keys : list jsString) (key : jsString)
         (lo hi : nat) : nat :=
  match fuel with
  | O => lo
  | S fuel' =>
      if (lo <? hi)%nat then
        let mid := ((lo + hi) / 2)%nat in
        if ltb (nth mid keys []) key
        then binarySearch_loop fuel' keys key (mid + 1)%nat hi
        else binarySearch_loop fuel' keys key lo mid
      else lo
  end.

(** [binarySearch(key)]. *)
Definition binarySearch (s : store) (key : jsString) : nat :=
  let keys := sortedKeys s in
  binarySearch_loop (S (List.length keys)) keys key O (List.length keys).

(** [ScanOptions]; an absent option is [None]. *)
Record ScanOptions : Type := {
  scan_prefix : option jsString;
  scan_startKey : option jsString;
  scan_endKey : option jsString;
  scan_limit : option nat;
  scan_reverse : bool
}.

(** A string option that is truthy: present and not empty. *)
Definition truthy (o : option jsString) : option jsString :=
  match o with
  | Some [] => None
  | other => other
  end.

(** [scan]. *)
Definition scan (options : ScanOptions) (s : store) : list KVEntry :=
  let keys := sortedKeys s in
  let startIdx := O in
  let endIdx := List.length keys in
  let '(startIdx, endIdx) :=
    match truthy (scan_prefix options) with
    | Some prefix => (binarySearch s prefix, binarySearch s (prefixEnd prefix))
    | None => (startIdx, endIdx)
    end in
  let startIdx :=
    match truthy (scan_startKey options) with
    | Some startKey => Nat.max startIdx (binarySearch s startKey)
    | None => startIdx
    end in
  let endIdx :=
    match truthy (scan_endKey options) with
    | Some endKey => Nat.min endIdx (binarySearch s endKey)
    | None => endIdx
    end in
  let range := slice startIdx endIdx s in
  let ordered := if scan_reverse options then rev range else range in
  match scan_limit options with
  | Some limit => firstn limit ordered
  | None => ordered
  end.

(** [count]: [endIdx - startIdx], a difference of numbers. *)
Definition count (prefix : option jsString) (s : store) : Z :=
  match truthy prefix with
  | None => Z.of_nat (List.length s)
  | Some prefix =>
      Z.of_nat (binarySearch s (prefixEnd prefix)) - Z.of_nat (binarySearch s prefix)
  end.

(** The last code unit of the prefix is the greatest one, [0xFFFF]: one
    more is reduced to 0. *)
Definition wraps (prefix : jsString) : bool := (65535 <=? last prefix 0)%N.

(** The keys that a scan selects: those that start with [prefix], unless
    the end of the range of the prefix wraps, then none; [startKey] is
    inclusive and [endKey] exclusive. *)
Definition inScanRange (options : ScanOptions) (k : jsString) : bool :=
  match truthy (scan_prefix options) with
  | Some p => negb (wraps p) && startsWith p k
  | None => true
  end
  && match truthy (scan_startKey options) with
     | Some a => negb (ltb k a)
     | None => true
     end
  && match truthy (scan_endKey options) with
     | Some b => ltb k b
     | None => true
     end.

(** The keys from the wrapped end of the range of a prefix up to the
    prefix. *)
Definition belowWrappedPrefix (p k : jsString) : bool :=
  negb (ltb k (prefixEnd p)) && ltb k p.

End Utf16.

(** A string of 8-bit code units as a string of 16-bit ones, and the
    store and the options of a scan read that way. *)
Definition codeUnits (s : string) : Utf16.jsString :=
  map N_of_ascii (list_ascii_of_string s).

Definition utf16Entry (e : KVEntry) : Utf16.KVEntry := (codeUnits (fst e), snd e).

Definition utf16Store (s : kvstore) : Utf16.store := map utf16Entry s.

Definition utf16Options (options : ScanOptions) : Utf16.ScanOptions :=
  {| Utf16.scan_prefix := option_map codeUnits (scan_prefix options);
     Utf16.scan_startKey := option_map codeUnits (scan_startKey options);
     Utf16.scan_endKey := option_map codeUnits (scan_endKey options);
     Utf16.scan_limit := scan_limit options;
     Utf16.scan_reverse := scan_reverse options |}.

(** ** The state the engine runs in *)

(** The key-value store and the number of readings taken so far from the
    clock and from the random source. *)
Record world : Type := {
  kv : kvstore;
  nowCalls : nat;
  uuidCalls : nat
}.

Definition emptyWorld : world := {| kv := []; nowCalls := O; uuidCalls := O |}.

Definition withKv (w : world) (s : kvstore) : world :=
  {| kv := s; nowCalls := nowCalls w; uuidCalls := uuidCalls w |}.

(** A computation that may throw; what it wrote before throwing stays
    written. *)
Definition M (A : Type) : Type := world -> result A * world.

Definition ret {A} (a : A) : M A := fun w => (Ok a, w).
Definition throw {A} (e : exn) : M A := fun w => (Err e, w).
Definition lift {A} (r : result A) : M A := fun w => (r, w).

Definition bind {A C} (m : M A) (k : A -> M C) : M C :=
  fun w =>
    match m w with
    | (Ok a, w') => k a w'
    | (Err e, w') => (Err e, w')
    end.

(** [try { m } catch (err) { handler(err) }]. *)
Definition tryCatch {A} (m : M A) (handler : exn -> M A) : M A :=
  fun w =>
    match m w with
    | (Ok a, w') => (Ok a, w')
    | (Err e, w') => handler e w'
    end.

Declare Scope monad_scope.
Delimit Scope monad_scope with monad.
Notation "x <- m ;; k" := (bind m (fun x => k))
  (at level 61, m at next level, right associativity) : monad_scope.
Notation "m ;;; k" := (bind m (fun _ => k))
  (at level 61, right associativity) : monad_scope.
Open Scope monad_scope.

(** The calls to the adapter. *)
Definition kvGet (key : string) : M (option buffer) :=
  fun w => (Ok (kv_get key (kv w)), w).
Definition kvPut (key : string) (v : buffer) : M unit :=
  fun w => (Ok tt, withKv w (kv_put key v (kv w))).
Definition kvDelete (key : string) : M bool :=
  fun w => (Ok (kv_has key (kv w)), withKv w (kv_delete key (kv w))).
Definition kvScan (options : ScanOptions) : M (list KVEntry) :=
  fun w => (Ok (kv_scan options (kv w)), w).

(** [JSON.parse(buf.toString())] read as a document, as metadata. *)
Definition asDocument (b : buffer) : result document :=
  match b with BufDoc d => Ok d | _ => Err TypeError end.
Definition asMetadata (b : buffer) : result CollectionMetadata :=
  match b with BufMeta m => Ok m | _ => Err TypeError end.

Section Engine.
Context {B : JsBuiltins}.

(** [Date.now()] and [uuidv4()]. *)
Definition DateNow : M Z :=
  fun w => (Ok (dateNow (nowCalls w)),
            {| kv := kv w; nowCalls := S (nowCalls w); uuidCalls := uuidCalls w |}).
Definition uuidv4 : M string :=
  fun w => (Ok (uuidHex (uuidCalls w)),
            {| kv := kv w; nowCalls := nowCalls w; uuidCalls := S (uuidCalls w) |}).

(** [`${v}`] for a document's [_id], which is typed as a string. *)
Definition idString (v : option value) : string :=
  match v with
  | Some x => toStringJs x
  | None => "undefined"
  end.

(** [doc._id] as a key component. *)
Definition idOf (doc : document) : string := idString (getField "_id" doc).

(** ** index-manager.ts *)

(** The loop of [checkUnique] over the rows found. *)
Fixpoint checkUnique_loop (existing : list KVEntry) (currentDocId : string)
         (excludeSelf : bool) : result unit :=
  match existing with
  | [] => Ok tt
  | entry :: rest =>
      let skip :=
        if excludeSelf then
          match decodeIdxKey (fst entry) with
          | Some decoded => String.eqb (dk_id decoded) currentDocId
          | None => false
          end
        else false in
      if skip then checkUnique_loop rest currentDocId excludeSelf
      else Err (IndexError ErrorCodes.DuplicateKey)
  end.

(** [IndexManager.checkUnique]. *)
Definition checkUnique (collectionName : string) (index : IndexDefinition)
           (v : propertyValue) (currentDocId : string) (excludeSelf : bool) : M unit :=
  encoded <- lift (encodeValue v) ;;
  let prefix := idxPrefix collectionName (idx_field index) ++ encoded ++ IDX_ID_SEP in
  existing <- kvScan {| scan_prefix := Some prefix; scan_startKey := None;
                        scan_endKey := None; scan_limit := Some 2%nat;
                        scan_reverse := false |} ;;
  lift (checkUnique_loop existing currentDocId excludeSelf).

(** [for (const put of puts) await this.kv.put(put.key, put.value)]. *)
Fixpoint putAll (puts : list KVEntry) : M unit :=
  match puts with
  | [] => ret tt
  | (key, v) :: rest => kvPut key v ;;; putAll rest
  end.

(** [for (const key of deletes) await this.kv.delete(key)]. *)
Fixpoint deleteAll (deletes : list string) : M unit :=
  match deletes with
  | [] => ret tt
  | key :: rest => kvDelete key ;;; deleteAll rest
  end.

(** Phase 1 of [onInsert]: the checks, and the puts to make. *)
Fixpoint onInsert_plan (collectionName : string) (indexes : list IndexDefinition)
         (doc : document) (docId : string) : M (list KVEntry) :=
  match indexes with
  | [] => ret []
  | index :: rest =>
      let v := readProperty doc (idx_field index) in
      if isNullish v then onInsert_plan collectionName rest doc docId
      else
        (if idx_unique index
         then checkUnique collectionName index v docId false
         else ret tt) ;;;
        key <- lift (encodeIdxKey collectionName (idx_field index) v docId) ;;
        puts <- onInsert_plan collectionName rest doc docId ;;
        ret ((key, BufOne) :: puts)
  end.

(** [IndexManager.onInsert]. *)
Definition onInsert (collectionName : string) (indexes : list IndexDefinition)
           (doc : document) (docId : string) : M unit :=
  puts <- onInsert_plan collectionName indexes doc docId ;;
  putAll puts.

(** Phase 1 of [onUpdate]: the deletes and the puts to make. *)
Fixpoint onUpdate_plan (collectionName : string) (indexes : list IndexDefinition)
         (oldDoc newDoc : document) (docId : string)
  : M (list string * list KVEntry) :=
  match indexes with
  | [] => ret ([], [])
  | index :: rest =>
      let oldValue := readProperty oldDoc (idx_field index) in
      let newValue := readProperty newDoc (idx_field index) in
      if match jsonStringifyOpt oldValue, jsonStringifyOpt newValue with
         | Some a, Some b => String.eqb a b
         | None, None => true
         | _, _ => false
         end
      then onUpdate_plan collectionName rest oldDoc newDoc docId
      else
        dels <- (if negb (isNullish oldValue)
                 then key <- lift (encodeIdxKey collectionName (idx_field index)
                                                oldValue docId) ;;
                      ret [key]
                 else ret []) ;;
        puts <- (if negb (isNullish newValue)
                 then
                   (if idx_unique index
                    then checkUnique collectionName index newValue docId true
                    else ret tt) ;;;
                   key <- lift (encodeIdxKey collectionName (idx_field index)
                                             newValue docId) ;;
                   ret [(key, BufOne)]
                 else ret []) ;;
        more <- onUpdate_plan collectionName rest oldDoc newDoc docId ;;
        ret ((dels ++ fst more)%list, (puts ++ snd more)%list)
  end.

(** [IndexManager.onUpdate]. *)
Definition onUpdate (collectionName : string) (indexes : list IndexDefinition)
           (oldDoc newDoc : document) (docId : string) : M unit :=
  plan <- onUpdate_plan collectionName indexes oldDoc newDoc docId ;;
  deleteAll (fst plan) ;;;
  putAll (snd plan).

(** [IndexManager.onDelete]. *)
Fixpoint onDelete (collectionName : string) (indexes : list IndexDefinition)
         (doc : document) (docId : string) : M unit :=
  match indexes with
  | [] => ret tt
  | index :: rest =>
      let v := readProperty doc (idx_field index) in
      if isNullish v then onDelete collectionName rest doc docId
      else
        key <- lift (encodeIdxKey collectionName (idx_field index) v docId) ;;
        kvDelete key ;;;
        onDelete collectionName rest doc docId
  end.

Definition BATCH_LIMIT : nat := 5000.

(** [lastKey ? lastKey + '\x00' : undefined]. *)
Definition afterKey (lastKey : option string) : option string :=
  match truthyString lastKey with
  | Some k => Some (k ++ String (ascii_of_nat 0) EmptyString)
  | None => None
  end.

(** The [for] loop of [IndexManager.createIndex] over one chunk; the
    state of the loop is [lastKey] and the map [seen]. *)
Fixpoint createIndex_entries (collectionName field : string) (unique : bool)
         (entries : list KVEntry) (lastKey : option string) (seen : list string)
  : M (option string * list string) :=
  match entries with
  | [] => ret (lastKey, seen)
  | entry :: rest =>
      doc <- lift (asDocument (snd entry)) ;;
      let v := readProperty doc field in
      seen' <-
        (if negb (isNullish v) then
           seen' <- (if unique then
                       encoded <- lift (encodeValue v) ;;
                       if existsb (String.eqb encoded) seen
                       then throw (IndexError ErrorCodes.DuplicateKey)
                       else ret (encoded :: seen)
                     else ret seen) ;;
           key <- lift (encodeIdxKey collectionName field v (idOf doc)) ;;
           kvPut key BufOne ;;;
           ret seen'
         else ret seen) ;;
      createIndex_entries collectionName field unique rest (Some (fst entry)) seen'
  end.

(** The [while (true)] loop of [IndexManager.createIndex]. *)
Fixpoint createIndex_loop (fuel : nat) (collectionName field : string) (unique : bool)
         (lastKey : option string) (seen : list string) : M unit :=
  match fuel with
  | O => throw LoopBound
  | S fuel' =>
      entries <- kvScan (scanPrefix ("doc:" ++ collectionName ++ ":")
                                    (afterKey lastKey) BATCH_LIMIT) ;;
      if (List.length entries =? 0)%nat then ret tt
      else
        st <- createIndex_entries collectionName field unique entries lastKey seen ;;
        if (List.length entries <? BATCH_LIMIT)%nat then ret tt
        else createIndex_loop fuel' collectionName field unique (fst st) (snd st)
  end.

(** [IndexManager.createIndex].  Every turn of the loop but the last
    reads [BATCH_LIMIT] further rows, so that the number of rows bounds
    the number of turns. *)
Definition IndexManager_createIndex (metadata : CollectionMetadata) (field : string)
           (unique : bool) : M IndexDefinition :=
  match findIndexByField (cm_indexes metadata) field with
  | Some existing => ret existing
  | None =>
      let indexDef := {| idx_name := field ++ "_1"; idx_field := field;
                         idx_unique := unique |} in
      fun w =>
        bind (createIndex_loop (S (List.length (kv w))) (cm_name metadata) field unique
                               None [])
             (fun _ => ret indexDef) w
  end.

(** The loop shared by [dropIndex] and [dropAllIndexes]. *)
Fixpoint dropRows_loop (fuel : nat) (prefix : string) (lastKey : option string) : M unit :=
  match fuel with
  | O => throw LoopBound
  | S fuel' =>
      entries <- kvScan (scanPrefix prefix (afterKey lastKey) BATCH_LIMIT) ;;
      if (List.length entries =? 0)%nat then ret tt
      else
        deleteAll (map fst entries) ;;;
        if (List.length entries <? BATCH_LIMIT)%nat then ret tt
        else dropRows_loop fuel' prefix (option_map fst (last (map Some entries) None))
  end.

(** [IndexManager.dropIndex]. *)
Definition IndexManager_dropIndex (collectionName field : string) : M unit :=
  fun w => dropRows_loop (S (List.length (kv w))) (idxPrefix collectionName field) None w.

(** [IndexManager.dropAllIndexes]. *)
Definition dropAllIndexes (collectionName : string) : M unit :=
  fun w => dropRows_loop (S (List.length (kv w))) (idxCollectionPrefix collectionName) None w.

End Engine.

(** ** query-planner.ts: execution *)

(** The options the document store passes to [executeQuery] for its own
    reads: [limit] and [skip].  ([sort] and [projection], which only
    [find] passes on, are not part of the model.) *)
Record QueryOptions : Type := {
  opt_limit : option nat;
  opt_skip : option nat
}.

Definition limitOnly (n : nat) : QueryOptions :=
  {| opt_limit := Some n; opt_skip := None |}.

Record QueryExecutionResult : Type := {
  documents : list document;
  scannedDocuments : nat;
  usedIndex : option string;
  executionTimeMs : Z
}.

(** [maxNeeded !== undefined && documents.length >= maxNeeded]. *)
Definition enough (maxNeeded : option nat) (docs : list document) : bool :=
  match maxNeeded with
  | Some n => (n <=? List.length docs)%nat
  | None => false
  end.

(** The state of the scanning loops. *)
Record scanState : Type := {
  st_documents : list document;
  st_scanned : nat;
  st_lastKey : option string;
  st_break : bool      (* the [for] loop was left by [break] *)
}.

Section Executor.
Context {B : JsBuiltins}.

(** [!plan.needsPostFilter || matchesFilter(doc, filter)]. *)
Definition passes (plan : QueryPlan) (doc : document) (filter : value) : result bool :=
  if negb (needsPostFilter plan) then Ok true else matchesFilter doc filter.

(** The [for] loop of the index scan over one chunk of index rows. *)
Fixpoint indexScan_entries (plan : QueryPlan) (collection : string) (filter : value)
         (maxNeeded : option nat) (entries : list KVEntry) (st : scanState)
  : M scanState :=
  match entries with
  | [] => ret st
  | entry :: rest =>
      let lastKey := Some (fst entry ++ String (ascii_of_nat 0) EmptyString) in
      let continue := fun (docs : list document) (scanned : nat) =>
        indexScan_entries plan collection filter maxNeeded rest
          {| st_documents := docs; st_scanned := scanned; st_lastKey := lastKey;
             st_break := false |} in
      match decodeIdxKey (fst entry) with
      | None => continue (st_documents st) (st_scanned st)
      | Some decoded =>
          docData <- kvGet (encodeDocKey collection (dk_id decoded)) ;;
          match docData with
          | None => continue (st_documents st) (st_scanned st)
          | Some buf =>
              doc <- lift (asDocument buf) ;;
              ok <- lift (passes plan doc filter) ;;
              if ok then
                let docs := (st_documents st ++ [doc])%list in
                if enough maxNeeded docs
                then ret {| st_documents := docs; st_scanned := S (st_scanned st);
                            st_lastKey := lastKey; st_break := true |}
                else continue docs (S (st_scanned st))
              else continue (st_documents st) (S (st_scanned st))
          end
      end
  end.

(** The [while (true)] loop of the index scan. *)
Fixpoint indexScan_loop (fuel : nat) (plan : QueryPlan) (collection : string)
         (filter : value) (maxNeeded : option nat) (endK : string) (st : scanState)
  : M scanState :=
  match fuel with
  | O => throw LoopBound
  | S fuel' =>
      indexEntries <- kvScan {| scan_prefix := None; scan_startKey := st_lastKey st;
                                scan_endKey := Some endK;
                                scan_limit := Some BATCH_LIMIT;
                                scan_reverse := false |} ;;
      if (List.length indexEntries =? 0)%nat then ret st
      else
        st' <- indexScan_entries plan collection filter maxNeeded indexEntries st ;;
        if enough maxNeeded (st_documents st') then ret st'
        else if (List.length indexEntries <? BATCH_LIMIT)%nat then ret st'
        else indexScan_loop fuel' plan collection filter maxNeeded endK st'
  end.

(** The [for] loop of the collection scan over one chunk of rows. *)
Fixpoint collectionScan_entries (plan : QueryPlan) (filter : value)
         (maxNeeded : option nat) (entries : list KVEntry) (st : scanState)
  : M scanState :=
  match entries with
  | [] => ret st
  | entry :: rest =>
      let lastKey := Some (fst entry) in
      doc <- lift (asDocument (snd entry)) ;;
      ok <- lift (passes plan doc filter) ;;
      if ok then
        let docs := (st_documents st ++ [doc])%list in
        if enough maxNeeded docs
        then ret {| st_documents := docs; st_scanned := S (st_scanned st);
                    st_lastKey := lastKey; st_break := true |}
        else collectionScan_entries plan filter maxNeeded rest
               {| st_documents := docs; st_scanned := S (st_scanned st);
                  st_lastKey := lastKey; st_break := false |}
      else collectionScan_entries plan filter maxNeeded rest
             {| st_documents := st_documents st; st_scanned := S (st_scanned st);
                st_lastKey := lastKey; st_break := false |}
  end.

(** The [while (true)] loop of the collection scan. *)
Fixpoint collectionScan_loop (fuel : nat) (plan : QueryPlan) (collection : string)
         (filter : value) (maxNeeded : option nat) (st : scanState) : M scanState :=
  match fuel with
  | O => throw LoopBound
  | S fuel' =>
      entries <- kvScan (scanPrefix (docPrefix collection) (afterKey (st_lastKey st))
                                    BATCH_LIMIT) ;;
      if (List.length entries =? 0)%nat then ret st
      else
        st' <- collectionScan_entries plan filter maxNeeded entries st ;;
        if enough maxNeeded (st_documents st') then ret st'
        else if (List.length entries <? BATCH_LIMIT)%nat then ret st'
        else collectionScan_loop fuel' plan collection filter maxNeeded st'
  end.

(** [executeQuery], without [sort] and [projection].  Every turn of a
    scanning loop but the last reads [BATCH_LIMIT] further rows, so that
    the number of rows bounds the number of turns. *)
Definition executeQuery (plan : QueryPlan) (collection : string) (filter : value)
           (options : QueryOptions) : M QueryExecutionResult :=
  startTime <- DateNow ;;
  let maxNeeded :=
    match opt_limit options with
    | None => None
    | Some limit => Some (match opt_skip options with Some s => s | None => O end + limit)%nat
    end in
  let st0 := {| st_documents := []; st_scanned := O; st_lastKey := None;
                st_break := false |} in
  st <- (match plan_type plan, truthyString (startKey plan), truthyString (endKey plan) with
         | IndexScan, Some startK, Some endK =>
             fun w =>
               indexScan_loop (S (List.length (kv w))) plan collection filter maxNeeded endK
                 {| st_documents := []; st_scanned := O; st_lastKey := Some startK;
                    st_break := false |} w
         | _, _, _ =>
             fun w =>
               collectionScan_loop (S (List.length (kv w))) plan collection filter
                                   maxNeeded st0 w
         end) ;;
  let docs := st_documents st in
  let docs := match opt_skip options with
              | Some s => if (0 <? s)%nat then skipn s docs else docs
              | None => docs
              end in
  let docs := match opt_limit options with
              | Some l => if (0 <? l)%nat then firstn l docs else docs
              | None => docs
              end in
  endTime <- DateNow ;;
  ret {| documents := docs; scannedDocuments := st_scanned st;
         usedIndex := truthyString (indexName plan);
         executionTimeMs := endTime - startTime |}.

End Executor.

(** ** document-store.ts *)

Record InsertResult : Type := {
  ins_acknowledged : bool;
  insertedId : option string;
  insertedIds : option (list string);
  insertedCount : nat
}.

Record UpdateResult : Type := {
  upd_acknowledged : bool;
  matchedCount : nat;
  modifiedCount : nat;
  upsertedId : option string
}.

Record DeleteResult : Type := {
  del_acknowledged : bool;
  deletedCount : nat
}.

Record CreateIndexResult : Type := {
  ci_acknowledged : bool;
  ci_indexName : string
}.

(** The update operators; [$inc] is typed [Record<string, number>]. *)
Record UpdateSpec : Type := {
  u_set : option document;
  u_inc : option (list (string * number));
  u_unset : option document
}.

Definition withDocumentCount (m : CollectionMetadata) (n : Z) : CollectionMetadata :=
  {| cm_name := cm_name m; cm_indexes := cm_indexes m; cm_createdAt := cm_createdAt m;
     cm_schemaVersion := cm_schemaVersion m; cm_documentCount := n |}.

Definition withIndexes (m : CollectionMetadata) (l : list IndexDefinition)
  : CollectionMetadata :=
  {| cm_name := cm_name m; cm_indexes := l; cm_createdAt := cm_createdAt m;
     cm_schemaVersion := cm_schemaVersion m; cm_documentCount := cm_documentCount m |}.

(** [documents.slice(i, i + n)] for [i = 0, n, 2n, ...]. *)
Fixpoint chunksOf_loop {A} (fuel n : nat) (l : list A) : list (list A) :=
  match fuel with
  | O => []
  | S fuel' =>
      match l with
      | [] => []
      | _ => firstn n l :: chunksOf_loop fuel' n (skipn n l)
      end
  end.

Definition chunksOf {A} (n : nat) (l : list A) : list (list A) :=
  chunksOf_loop (List.length l) n l.

(** The JSON object of an [$inc] payload, as [sanitizeDocument] sees it. *)
Definition incAsDocument (inc : list (string * number)) : document :=
  map (fun kv => (fst kv, VNum (snd kv))) inc.

Section DocumentStore.
Context {B : JsBuiltins}.
(** The second argument of the constructor of [DocumentStore]. *)
Variable maxDocumentSize : Z.

(** [await this.getCollectionLock(collection).lock()].  [collectionLocks]
    is a plain object.  For a name that [Object.prototype] has, the
    lookup finds the inherited value, which is truthy and has no method
    [lock], and the call throws a [TypeError].  For every other name it
    finds or makes the [Mutex] of the collection, which is free when the
    calls run one after the other. *)
Definition lockCollection (collection : string) : M unit :=
  if inObjectPrototype collection then throw TypeError else ret tt.

(** [getCollection]. *)
Definition getCollection (name : string) : M (option CollectionMetadata) :=
  data <- kvGet (encodeMetaKey name) ;;
  match data with
  | Some buf => m <- lift (asMetadata buf) ;; ret (Some m)
  | None => ret None
  end.

(** [saveMetadata]. *)
Definition saveMetadata (metadata : CollectionMetadata) : M unit :=
  kvPut (encodeMetaKey (cm_name metadata)) (BufMeta metadata).

(** [getOrCreateCollection]. *)
Definition getOrCreateCollection (name : string) : M CollectionMetadata :=
  lift (validateCollectionName name) ;;;
  let metaKey := encodeMetaKey name in
  existing <- kvGet metaKey ;;
  match existing with
  | Some buf => lift (asMetadata buf)
  | None =>
      now <- DateNow ;;
      let metadata :=
        {| cm_name := name;
           cm_indexes := [{| idx_name := "_id_"; idx_field := "_id"; idx_unique := true |}];
           cm_createdAt := now;
           cm_schemaVersion := 1;
           cm_documentCount := 0 |} in
      kvPut metaKey (BufMeta metadata) ;;;
      ret metadata
  end.

(** [generateId]. *)
Definition generateId : M string :=
  now <- DateNow ;;
  let timestamp := padStart 8 "0"%char (toString16 (now / 1000)) in
  u <- uuidv4 ;;
  ret (timestamp ++ substring 0 16 u).

(** The document store reads and writes a document's [_id] as a string. *)
Definition truthyId (doc : document) : option value :=
  match getField "_id" doc with
  | Some v => if truthy v then Some v else None
  | None => None
  end.

(** [if (insertedIds.length > 0) { metadata.documentCount += insertedIds.length;
    await this.saveMetadata(metadata); }]. *)
Definition commitCount (metadata : CollectionMetadata) (insertedIds : list string)
  : M unit :=
  if (0 <? List.length insertedIds)%nat
  then saveMetadata (withDocumentCount metadata
                       (cm_documentCount metadata + Z.of_nat (List.length insertedIds)))
  else ret tt.

(** The inner [for] loop of [_insertInternal] over one chunk; the result
    is [chunkInsertedIds]. *)
Fixpoint insertChunk (collection : string) (metadata : CollectionMetadata)
         (insertedIds : list string) (chunk : list document)
         (chunkInsertedIds : list string) : M (list string) :=
  match chunk with
  | [] => ret chunkInsertedIds
  | doc :: rest =>
      id <- (match truthyId doc with
             | Some v => ret v
             | None => s <- generateId ;; ret (VStr s)
             end) ;;
      let docWithId := setField "_id" id doc in
      let docId := idString (Some id) in
      let serialized := jsonStringify (VObj docWithId) in
      if maxDocumentSize <? Z.of_nat (String.length serialized) then
        commitCount metadata insertedIds ;;;
        throw (DocumentStoreError ErrorCodes.DocumentTooLarge None)
      else
        tryCatch (onInsert collection (cm_indexes metadata) docWithId docId)
                 (fun err =>
                    commitCount metadata insertedIds ;;;
                    match err with
                    | IndexError code => throw (DocumentStoreError code None)
                    | _ => throw err
                    end) ;;;
        kvPut (encodeDocKey collection docId) (BufDoc (jsonRoundTripDoc docWithId)) ;;;
        insertChunk collection metadata insertedIds rest
                    (chunkInsertedIds ++ [docId])%list
  end.

(** The outer [for] loop of [_insertInternal]; the result is
    [insertedIds]. *)
Fixpoint insertChunks (collection : string) (metadata : CollectionMetadata)
         (chunks : list (list document)) (insertedIds : list string)
  : M (list string) :=
  match chunks with
  | [] => ret insertedIds
  | chunk :: rest =>
      chunkInsertedIds <- insertChunk collection metadata insertedIds chunk [] ;;
      insertChunks collection metadata rest (insertedIds ++ chunkInsertedIds)%list
  end.

(** [_insertInternal].  [InMemoryKVStore] has no [batchWrite], and the
    branches that test for it are not taken. *)
Definition _insertInternal (collection : string) (docs : list document)
  : M InsertResult :=
  metadata <- getOrCreateCollection collection ;;
  insertedIds <- insertChunks collection metadata (chunksOf BATCH_LIMIT docs) [] ;;
  saveMetadata (withDocumentCount metadata
                  (cm_documentCount metadata + Z.of_nat (List.length insertedIds))) ;;;
  ret {| ins_acknowledged := true;
         insertedId := match insertedIds with [id] => Some id | _ => None end;
         insertedIds := if (1 <? List.length insertedIds)%nat
                        then Some insertedIds else None;
         insertedCount := List.length insertedIds |}.

(** [for (const doc of documents) sanitizeDocument(doc)]. *)
Fixpoint sanitizeAll (docs : list document) : result unit :=
  match docs with
  | [] => Ok tt
  | doc :: rest =>
      match sanitizeDocument (VObj doc) 0 with
      | Ok _ => sanitizeAll rest
      | Err e => Err e
      end
  end.

(** [insert]. *)
Definition insert (collection : string) (docs : list document) : M InsertResult :=
  lift (validateCollectionName collection) ;;;
  lift (sanitizeAll docs) ;;;
  lockCollection collection ;;;
  _insertInternal collection docs.

(** [if (x) sanitizeDocument(x)] on an optional operator payload. *)
Definition sanitizeOpt (payload : option document) : result unit :=
  match payload with
  | Some d => sanitizeDocument (VObj d) 0
  | None => Ok tt
  end.

(** The checks that open [updateOne] and [updateMany]. *)
Definition sanitizeUpdate (collection : string) (filter : document) (update : UpdateSpec)
  : M unit :=
  lift (validateCollectionName collection) ;;;
  lift (sanitizeDocument (VObj filter) 0) ;;;
  lift (sanitizeOpt (u_set update)) ;;;
  lift (sanitizeOpt (option_map incAsDocument (u_inc update))) ;;;
  lift (sanitizeOpt (u_unset update)).

(** The base document of an upsert. *)
Definition upsertBase (filter : document) (update : UpdateSpec) : document :=
  let baseDoc := stripOperators filter in
  let baseDoc :=
    match u_set update with
    | Some fields => fold_left (fun d kv => setField (fst kv) (snd kv) d) fields baseDoc
    | None => baseDoc
    end in
  match u_inc update with
  | Some incs => fold_left (fun d kv => setField (fst kv) (VNum (snd kv)) d) incs baseDoc
  | None => baseDoc
  end.

(** The upsert branch shared by [updateOne] and [updateMany]. *)
Definition upsert (collection : string) (filter : document) (update : UpdateSpec)
  : M UpdateResult :=
  insertResult <- _insertInternal collection [upsertBase filter update] ;;
  ret {| upd_acknowledged := true; matchedCount := 0; modifiedCount := 0;
         upsertedId := truthyString (insertedId insertResult) |}.

Definition noMatch : UpdateResult :=
  {| upd_acknowledged := true; matchedCount := 0; modifiedCount := 0;
     upsertedId := None |}.

(** [typeof current === 'number' ? current : 0] for [current =
    newDoc[field]]: only an own property can be a number, an inherited
    one being a function or a prototype. *)
Definition currentNum (current : option value) : number :=
  match current with
  | Some (VNum n) => n
  | _ => posZero
  end.

(** The three operators as [updateOne] applies them. *)
Definition applySet (fields : document) (newDoc : document) : document :=
  fold_left (fun d kv => setField (fst kv) (snd kv) d) fields newDoc.

Definition applyInc (incs : list (string * number)) (newDoc : document) : document :=
  fold_left
    (fun d kv => setField (fst kv) (VNum (num_add (currentNum (getField (fst kv) d)) (snd kv))) d)
    incs newDoc.

Definition applyUnset (fields : document) (newDoc : document) : document :=
  fold_left (fun d kv => deleteField (fst kv) d) fields newDoc.

Definition applyUpdate (update : UpdateSpec) (doc : document) : document :=
  let newDoc := doc in
  let newDoc := match u_set update with Some f => applySet f newDoc | None => newDoc end in
  let newDoc := match u_inc update with Some i => applyInc i newDoc | None => newDoc end in
  match u_unset update with Some f => applyUnset f newDoc | None => newDoc end.

(** [onUpdate] as the store calls it: an [IndexError] is rethrown as a
    [DocumentStoreError] with the same code. *)
Definition onUpdateWrapped (collection : string) (indexes : list IndexDefinition)
           (oldDoc newDoc : document) (docId : string) : M unit :=
  tryCatch (onUpdate collection indexes oldDoc newDoc docId)
           (fun err =>
              match err with
              | IndexError code => throw (DocumentStoreError code None)
              | _ => throw err
              end).

(** [updateOne]. *)
Definition updateOne (collection : string) (filter : document) (update : UpdateSpec)
           (upsertOption : bool) : M UpdateResult :=
  sanitizeUpdate collection filter update ;;;
  lockCollection collection ;;;
  metadata <- getOrCreateCollection collection ;;
  plan <- lift (planQuery (VObj filter) (cm_indexes metadata) collection) ;;
  result <- executeQuery plan collection (VObj filter) (limitOnly 1) ;;
  match documents result with
  | [] => if upsertOption then upsert collection filter update else ret noMatch
  | doc :: _ =>
      let oldDoc := doc in
      let newDoc := applyUpdate update doc in
      onUpdateWrapped collection (cm_indexes metadata) oldDoc newDoc (idOf doc) ;;;
      kvPut (encodeDocKey collection (idOf doc)) (BufDoc (jsonRoundTripDoc newDoc)) ;;;
      ret {| upd_acknowledged := true; matchedCount := 1; modifiedCount := 1;
             upsertedId := None |}
  end.

(** The three operators as [updateMany] applies them, with the flag
    [modified].  In [newDoc[field] !== value] an inherited property is,
    like an absent one, identical to no value of the update. *)
Definition applySetM (fields : document) (st : document * bool) : document * bool :=
  fold_left
    (fun (s : document * bool) kv =>
       if match getField (fst kv) (fst s) with
          | Some cur => negb (strictEquals cur (snd kv))
          | None => true
          end
       then (setField (fst kv) (snd kv) (fst s), true)
       else s)
    fields st.

Definition applyIncM (incs : list (string * number)) (st : document * bool)
  : document * bool :=
  fold_left
    (fun (s : document * bool) kv =>
       (setField (fst kv)
                 (VNum (num_add (currentNum (getField (fst kv) (fst s))) (snd kv)))
                 (fst s), true))
    incs st.

Definition applyUnsetM (fields : document) (st : document * bool) : document * bool :=
  fold_left
    (fun (s : document * bool) kv =>
       if hasProperty (fst kv) (fst s) then (deleteField (fst kv) (fst s), true) else s)
    fields st.

Definition applyUpdateM (update : UpdateSpec) (doc : document) : document * bool :=
  let st := (doc, false) in
  let st := match u_set update with Some f => applySetM f st | None => st end in
  let st := match u_inc update with Some i => applyIncM i st | None => st end in
  match u_unset update with Some f => applyUnsetM f st | None => st end.

(** The loop of [updateMany] over the matched documents; the chunks of
    [BATCH_LIMIT] only matter to [batchWrite]. *)
Fixpoint updateEach (collection : string) (indexes : list IndexDefinition)
         (update : UpdateSpec) (docs : list document) (totalMatched totalModified : nat)
  : M (nat * nat) :=
  match docs with
  | [] => ret (totalMatched, totalModified)
  | doc :: rest =>
      let oldDoc := doc in
      let '(newDoc, modified) := applyUpdateM update doc in
      (if modified
       then onUpdateWrapped collection indexes oldDoc newDoc (idOf doc)
       else ret tt) ;;;
      kvPut (encodeDocKey collection (idOf doc)) (BufDoc (jsonRoundTripDoc newDoc)) ;;;
      updateEach collection indexes update rest (S totalMatched)
                 (if modified then S totalModified else totalModified)
  end.

Definition MAX_BULK_UPDATE_LIMIT : nat := 50000.

(** [updateMany]. *)
Definition updateMany (collection : string) (filter : document) (update : UpdateSpec)
           (upsertOption : bool) : M UpdateResult :=
  sanitizeUpdate collection filter update ;;;
  lockCollection collection ;;;
  metadata <- getCollection collection ;;
  match metadata with
  | None => if upsertOption then upsert collection filter update else ret noMatch
  | Some metadata =>
      plan <- lift (planQuery (VObj filter) (cm_indexes metadata) collection) ;;
      result <- executeQuery plan collection (VObj filter) (limitOnly MAX_BULK_UPDATE_LIMIT) ;;
      totals <- updateEach collection (cm_indexes metadata) update (documents result) 0 0 ;;
      ret {| upd_acknowledged := true; matchedCount := fst totals;
             modifiedCount := snd totals; upsertedId := None |}
  end.

(** The checks that open [deleteOne], [deleteMany] and [countDocuments]. *)
Definition sanitizeFilter (collection : string) (filter : document) : M unit :=
  lift (validateCollectionName collection) ;;;
  lift (sanitizeDocument (VObj filter) 0).

(** [deleteOne]. *)
Definition deleteOne (collection : string) (filter : document) : M DeleteResult :=
  sanitizeFilter collection filter ;;;
  lockCollection collection ;;;
  metadata <- getCollection collection ;;
  match metadata with
  | None => ret {| del_acknowledged := true; deletedCount := 0 |}
  | Some metadata =>
      plan <- lift (planQuery (VObj filter) (cm_indexes metadata) collection) ;;
      result <- executeQuery plan collection (VObj filter) (limitOnly 1) ;;
      match documents result with
      | [] => ret {| del_acknowledged := true; deletedCount := 0 |}
      | doc :: _ =>
          onDelete collection (cm_indexes metadata) doc (idOf doc) ;;;
          kvDelete (encodeDocKey collection (idOf doc)) ;;;
          saveMetadata (withDocumentCount metadata
                          (Z.max 0 (cm_documentCount metadata - 1))) ;;;
          ret {| del_acknowledged := true; deletedCount := 1 |}
      end
  end.

(** The [for] loop of [deleteMany] over one batch. *)
Fixpoint deleteEach (collection : string) (indexes : list IndexDefinition)
         (docs : list document) : M unit :=
  match docs with
  | [] => ret tt
  | doc :: rest =>
      onDelete collection indexes doc (idOf doc) ;;;
      kvDelete (encodeDocKey collection (idOf doc)) ;;;
      deleteEach collection indexes rest
  end.

(** The [while (true)] loop of [deleteMany]; the result is
    [totalDeleted]. *)
Fixpoint deleteMany_loop (fuel : nat) (collection : string) (filter : document)
         (metadata : CollectionMetadata) (totalDeleted : nat) : M nat :=
  match fuel with
  | O => throw LoopBound
  | S fuel' =>
      plan <- lift (planQuery (VObj filter) (cm_indexes metadata) collection) ;;
      result <- executeQuery plan collection (VObj filter) (limitOnly BATCH_LIMIT) ;;
      if (List.length (documents result) =? 0)%nat then ret totalDeleted
      else
        deleteEach collection (cm_indexes metadata) (documents result) ;;;
        let totalDeleted := (totalDeleted + List.length (documents result))%nat in
        if (List.length (documents result) <? BATCH_LIMIT)%nat then ret totalDeleted
        else deleteMany_loop fuel' collection filter metadata totalDeleted
  end.

(** [deleteMany].  A turn of the loop that is not the last one deletes
    [BATCH_LIMIT] rows, so that the number of rows bounds the number of
    turns. *)
Definition deleteMany (collection : string) (filter : document) : M DeleteResult :=
  sanitizeFilter collection filter ;;;
  lockCollection collection ;;;
  metadata <- getCollection collection ;;
  match metadata with
  | None => ret {| del_acknowledged := true; deletedCount := 0 |}
  | Some metadata =>
      totalDeleted <-
        (fun w => deleteMany_loop (S (List.length (kv w))) collection filter metadata 0 w) ;;
      saveMetadata (withDocumentCount metadata
                      (Z.max 0 (cm_documentCount metadata - Z.of_nat totalDeleted))) ;;;
      ret {| del_acknowledged := true; deletedCount := totalDeleted |}
  end.

(** [DocumentStore.createIndex]. *)
Definition createIndex (collection field : string) (unique : bool)
  : M CreateIndexResult :=
  lift (validateCollectionName collection) ;;;
  lockCollection collection ;;;
  metadata <- getOrCreateCollection collection ;;
  match findIndexByField (cm_indexes metadata) field with
  | Some existing => ret {| ci_acknowledged := true; ci_indexName := idx_name existing |}
  | None =>
      indexDef <- tryCatch (IndexManager_createIndex metadata field unique)
                           (fun err =>
                              match err with
                              | IndexError code => throw (DocumentStoreError code None)
                              | _ => throw err
                              end) ;;
      saveMetadata (withIndexes metadata (cm_indexes metadata ++ [indexDef])%list) ;;;
      ret {| ci_acknowledged := true; ci_indexName := idx_name indexDef |}
  end.

(** [countDocuments]. *)
Definition countDocuments (collection : string) (filter : document) : M Z :=
  sanitizeFilter collection filter ;;;
  metadata <- getCollection collection ;;
  match metadata with
  | None => ret 0
  | Some metadata =>
      if (List.length filter =? 0)%nat then ret (cm_documentCount metadata)
      else
        plan <- lift (planQuery (VObj filter) (cm_indexes metadata) collection) ;;
        result <- executeQuery plan collection (VObj filter) (limitOnly 100000) ;;
        ret (Z.of_nat (List.length (documents result)))
  end.

(** [listIndexes]. *)
Definition listIndexes (collection : string) : M (list IndexDefinition) :=
  metadata <- getCollection collection ;;
  match metadata with
  | Some metadata => ret (cm_indexes metadata)
  | None => ret []
  end.

(** [arr.splice(idx, 1)] where [idx] is the place of the first element
    with [test]. *)
Fixpoint removeFirst {A} (test : A -> bool) (l : list A) : list A :=
  match l with
  | [] => []
  | x :: rest => if test x then rest else x :: removeFirst test rest
  end.

(** [DocumentStore.dropIndex]. *)
Definition dropIndex (collection indexName : string) : M bool :=
  lift (validateCollectionName collection) ;;;
  lockCollection collection ;;;
  metadata <- getCollection collection ;;
  match metadata with
  | None => ret false
  | Some metadata =>
      match find (fun i => String.eqb (idx_name i) indexName) (cm_indexes metadata) with
      | None => ret false
      | Some index =>
          if String.eqb indexName "_id_"
          then throw (DocumentStoreError ErrorCodes.InvalidLength None)
          else
            IndexManager_dropIndex collection (idx_field index) ;;;
            saveMetadata
              (withIndexes metadata
                 (removeFirst (fun i => String.eqb (idx_name i) indexName)
                              (cm_indexes metadata))) ;;;
            ret true
      end
  end.

(** [dropCollection]; its loop over the document rows is the loop of
    [dropIndex], on the prefix of the documents. *)
Definition dropCollection (name : string) : M bool :=
  metadata <- getCollection name ;;
  match metadata with
  | None => ret false
  | Some _ =>
      (fun w => dropRows_loop (S (List.length (kv w))) (docPrefix name) None w) ;;;
      dropAllIndexes name ;;;
      kvDelete (encodeMetaKey name) ;;;
      ret true
  end.

End DocumentStore.

(** ** Notions used to state the properties *)

(** The first [limit] entries of a list, all of them without a limit. *)
Definition applyLimit (limit : option nat) (l : list KVEntry) : list KVEntry :=
  match limit with
  | Some n => firstn n l
  | None => l
  end.

(** A computation that only changes the store in ways that keep [I]. *)
Definition preserves {A} (I : kvstore -> Prop) (m : M A) : Prop :=
  forall w r w', I (kv w) -> m w = (r, w') -> I (kv w').

(** A computation that leaves the store as it is. *)
Definition readOnly {A} (m : M A) : Prop :=
  forall w r w', m w = (r, w') -> kv w' = kv w.

(** The answer of [sanitizeDocument] below the depth limit. *)
Definition tooDeep : result unit :=
  Err (DocumentStoreError ErrorCodes.DocumentTooLarge None).

(** What [sanitizeDocument] answers on a value free of dangerous keys. *)
Definition sanitizeSpec (v : value) : Prop :=
  forall depth : nat,
    dangerFree v = true ->
    sanitizeDocument v depth =
    if (depth + sanitizeLevels v <=? 20)%nat then Ok tt else tooDeep.

(** [sanitizeSpec] for a value and, if it is an array, for its items. *)
Definition sanitizeQ (v : value) : Prop :=
  sanitizeSpec v /\
  match v with VArr items => Forall sanitizeSpec items | _ => True end.

(** The sanitizer never counts more levels than there are. *)
Definition levelsLe (v : value) : Prop := (sanitizeLevels v <= nestingDepth v)%nat.

(** It counts at least every second level. *)
Definition levelsGe (v : value) : Prop :=
  (nestingDepth v <= 2 * sanitizeLevels v + 1)%nat.

(** A computation that, started on the store [s], leaves the store as
    it is whenever it returns, and returns a result with [Post]. *)
Definition yields {A} (s : kvstore) (m : M A) (Post : A -> Prop) : Prop :=
  forall w a w', kv w = s -> m w = (Ok a, w') -> kv w' = s /\ Post a.

(** The documents stored in a collection. *)
Definition documentsOf (collection : string) (s : kvstore) : list document :=
  flat_map
    (fun entry =>
       if startsWith (docPrefix collection) (fst entry)
       then match snd entry with BufDoc doc => [doc] | _ => [] end
       else [])
    s.

(** The keys of the index rows of one field of one document. *)
Definition indexRowsFor (collection field id : string) (s : kvstore) : list string :=
  List.filter
    (fun key =>
       match decodeIdxKey key with
       | Some decoded =>
           String.eqb (dk_collection decoded) collection
           && String.eqb (dk_field decoded) field
           && String.eqb (dk_id decoded) id
       | None => false
       end)
    (sortedKeys s).

(** A plan that fits the indexes of a collection: an index scan names
    one of the indexes and its field, and its two keys start with the
    prefix of that field's index rows; a collection scan names no index
    and has no keys. *)
Definition planWellFormed (indexes : list IndexDefinition) (collection : string)
           (plan : QueryPlan) : Prop :=
  match plan_type plan with
  | IndexScan =>
      exists index startK endK,
        In index indexes
        /\ indexName plan = Some (idx_name index)
        /\ indexField plan = Some (idx_field index)
        /\ startKey plan = Some startK /\ endKey plan = Some endK
        /\ startsWith (idxPrefix collection (idx_field index)) startK = true
        /\ startsWith (idxPrefix collection (idx_field index)) endK = true
  | CollectionScan =>
      indexName plan = None /\ startKey plan = None /\ endKey plan = None
  end.

(** [sanitizeDocument] accepts [v] at no depth unless [v] is free of
    the dangerous keys. *)
Definition sanitizeSound (v : value) : Prop :=
  forall depth : nat, sanitizeDocument v depth = Ok tt -> dangerFree v = true.

(** The place of a value's type in the order of the type tags that
    [encodeValue] writes: [null] and [undefined], booleans, numbers,
    strings together with all that is written as JSON text (arrays,
    objects, the prototypes and, as [undefined], functions), dates. *)
Definition typeRank (u : unknown) : nat :=
  match u with
  | Plain Undefined | Plain (Json VNull) => 0
  | Plain (Json (VBool _)) => 1
  | Plain (Json (VNum _)) => 2
  | Plain _ => 3
  | DateObject _ => 4
  end.

Section StatementNotions.
Context {B : JsBuiltins}.

(** Every document stored in the collection has, for every index of the
    collection, one index row if its value at the field of the index is
    neither [undefined] nor [null], and none otherwise. *)
Definition indexedAsStored (collection : string) (s : kvstore) : bool :=
  match kv_get (encodeMetaKey collection) s with
  | Some (BufMeta metadata) =>
      forallb
        (fun doc =>
           forallb
             (fun index =>
                (List.length (indexRowsFor collection (idx_field index) (idOf doc) s)
                 =? (if isNullish (readProperty doc (idx_field index)) then 0 else 1))%nat)
             (cm_indexes metadata))
        (documentsOf collection s)
  | _ => true
  end.

(** A document that a query may return: one stored in the collection
    that passes the residual test of the plan, if the plan has one. *)
Definition answers (plan : QueryPlan) (collection : string) (filter : value)
           (s : kvstore) (doc : document) : Prop :=
  In doc (documentsOf collection s)
  /\ (needsPostFilter plan = true -> matchesFilter doc filter = Ok true).



End StatementNotions.

(** ** An instance of the built-ins for running examples

    It formats and parses the integers below [2^53] as JavaScript does;
    a larger integer it writes with all its digits, where JavaScript
    rounds to the shortest form or uses an exponent.  The examples of
    this file meet one larger integer, [maxValue], and there only use
    that its text is not [null] and is short.  The methods of
    [Array.prototype] are those of ECMAScript 2023, and a built-in
    function is printed as V8 prints it.  The theorems are stated for
    every instance. *)

(** The integer a number is equal to, if it is one. *)
Definition integerOf (n : number) : option Z :=
  match n with
  | S754_zero _ => Some 0
  | S754_finite s m e =>
      let magnitude :=
        if 0 <=? e then Some (Zpos m * 2 ^ e)
        else if Zpos m mod 2 ^ (- e) =? 0 then Some (Zpos m / 2 ^ (- e))
        else None in
      option_map (fun z => if s then - z else z) magnitude
  | _ => None
  end.

Definition decimalOfZ (z : Z) : string := NilZero.string_of_int (Z.to_int z).

Definition parseDecimal (s : string) : number :=
  match s with
  | EmptyString => posZero
  | _ =>
      match NilZero.int_of_string s with
      | Some i => numberOfZ (Z.of_int i)
      | None => S754_nan
      end
  end.

#[export] Instance integerBuiltins : JsBuiltins := {|
  numberToString := fun n =>
    match integerOf n with
    | Some z => decimalOfZ z
    | None => "NaN"
    end;
  stringToNumber := parseDecimal;
  dateNow := fun n => 1700000000000 + Z.of_nat n;
  uuidHex := fun n =>
    padStart 16 "0"%char (toString16 (Z.of_nat n)) ++ "0000000000000000";
  arrayPrototypeMethods :=
    ["at"; "concat"; "copyWithin"; "entries"; "every"; "fill"; "filter"; "find";
     "findIndex"; "findLast"; "findLastIndex"; "flat"; "flatMap"; "forEach";
     "includes"; "indexOf"; "join"; "keys"; "lastIndexOf"; "map"; "pop"; "push";
     "reduce"; "reduceRight"; "reverse"; "shift"; "slice"; "some"; "sort"; "splice";
     "toLocaleString"; "toReversed"; "toSorted"; "toSpliced"; "toString"; "unshift";
     "values"; "with"];
  functionToString := fun name => "function " ++ name ++ "() { [native code] }"
|}.

(** ** Data of the examples *)

Definition defaultMaxDocumentSize : Z := 1024 * 1024.

Definition idIndex : IndexDefinition :=
  {| idx_name := "_id_"; idx_field := "_id"; idx_unique := true |}.

Definition ageIndex : IndexDefinition :=
  {| idx_name := "age_1"; idx_field := "age"; idx_unique := false |}.

(** [{ age: { $gt: 1, $ne: 10 } }]. *)
Definition ageRangeAndNe : document :=
  [("age", VObj [("$gt", VNum one); ("$ne", VNum ten)])].

(** [{ $set: fields }]. *)
Definition setOnly (fields : document) : UpdateSpec :=
  {| u_set := Some fields; u_inc := None; u_unset := None |}.

(** [{ $inc: amounts }]. *)
Definition incOnly (amounts : list (string * number)) : UpdateSpec :=
  {| u_set := None; u_inc := Some amounts; u_unset := None |}.

(** A store with the keys [a], [b] and [c], put in another order. *)
Definition abcStore : kvstore :=
  kv_put "b" BufOne (kv_put "a" BufOne (kv_put "c" BufOne [])).

(** The keys ['a\u0001'], ['a\uFFFF'] and ['a\uFFFFb'] in a store of
    16-bit keys, and a scan of the prefix ['a\uFFFF']. *)
Definition ffffStore : Utf16.store :=
  [([97; 1]%N, BufOne); ([97; 65535]%N, BufOne); ([97; 65535; 98]%N, BufOne)].

Definition ffffPrefix : Utf16.jsString := [97; 65535]%N.

Definition ffffScan : Utf16.ScanOptions :=
  {| Utf16.scan_prefix := Some ffffPrefix; Utf16.scan_startKey := None;
     Utf16.scan_endKey := None; Utf16.scan_limit := None;
     Utf16.scan_reverse := false |}.


Section ExampleWorlds.
Context {B : JsBuiltins}.

(** The state after [insert("c", [{_id: "1", a: "x"}])] on the empty
    store. *)
Definition oneDocWorld : world :=
  snd (insert defaultMaxDocumentSize "c" [[("_id", VStr "1"); ("a", VStr "x")]] emptyWorld).

(** The state after [createIndex("c", "n")] and
    [insert("c", [{_id: "1", n: Number.MAX_VALUE}])] on the empty store. *)
Definition maxValueWorld : world :=
  snd (insert defaultMaxDocumentSize "c" [[("_id", VStr "1"); ("n", VNum maxValue)]]
              (snd (createIndex "c" "n" false emptyWorld))).

(** The state after [createIndex("users", "email", true)] on the empty
    store, and the metadata it holds. *)
Definition uniqueEmailWorld : world :=
  snd (createIndex "users" "email" true emptyWorld).


End ExampleWorlds.

(* ================================================================== *)
(** * Part II. Properties                                              *)
(* ================================================================== *)

(** ** Lexicographic order on strings *)

Lemma ascii_compare_refl (a : ascii) : Ascii.compare a a = Eq.
Proof. unfold Ascii.compare. apply N.compare_refl. Qed.

Lemma ascii_compare_lt_trans (a b c : ascii) :
  Ascii.compare a b = Lt -> Ascii.compare b c = Lt -> Ascii.compare a c = Lt.
Proof.
  unfold Ascii.compare. rewrite !N.compare_lt_iff. apply N.lt_trans.
Qed.

Lemma str_compare_refl (s : string) : String.compare s s = Eq.
Proof.
  induction s as [|c s IH]; simpl; [reflexivity|].
  now rewrite ascii_compare_refl.
Qed.

Lemma str_compare_eq (s t : string) : String.compare s t = Eq <-> s = t.
Proof.
  split; [apply String.compare_eq_iff|intros ->; apply str_compare_refl].
Qed.

Lemma str_compare_app_same (p a b : string) :
  String.compare (p ++ a) (p ++ b) = String.compare a b.
Proof.
  induction p as [|c p IH]; simpl; [reflexivity|].
  now rewrite ascii_compare_refl.
Qed.

Lemma str_compare_lt_app (a b x y : string) :
  String.compare a b = Lt -> String.length a = String.length b ->
  String.compare (a ++ x) (b ++ y) = Lt.
Proof.
  revert b. induction a as [|c a IH]; intros [|d b]; simpl; try discriminate.
  intros H L. destruct (Ascii.compare c d); try discriminate; auto.
Qed.

Lemma str_compare_lt_trans (a b c : string) :
  String.compare a b = Lt -> String.compare b c = Lt -> String.compare a c = Lt.
Proof.
  revert b c. induction a as [|x a IH]; intros [|y b] [|z c]; simpl;
    try discriminate; auto.
  destruct (Ascii.compare x y) eqn:Exy; try discriminate;
    destruct (Ascii.compare y z) eqn:Eyz; try discriminate; intros H1 H2.
  - apply Ascii.compare_eq_iff in Exy, Eyz. subst.
    rewrite ascii_compare_refl. eauto.
  - apply Ascii.compare_eq_iff in Exy. subst. now rewrite Eyz.
  - apply Ascii.compare_eq_iff in Eyz. subst. now rewrite Exy.
  - now rewrite (ascii_compare_lt_trans _ _ _ Exy Eyz).
Qed.

Lemma str_ltb_lt (a b : string) : str_ltb a b = true <-> String.compare a b = Lt.
Proof.
  unfold str_ltb, String.ltb. destruct (String.compare a b); split; congruence.
Qed.

Lemma str_length_app (a b : string) :
  String.length (a ++ b) = (String.length a + String.length b)%nat.
Proof. induction a; simpl; auto. Qed.

Lemma str_app_assoc (a b c : string) : (a ++ b) ++ c = a ++ (b ++ c).
Proof. induction a; simpl; congruence. Qed.

Lemma str_app_nil_r (a : string) : a ++ "" = a.
Proof. induction a; simpl; congruence. Qed.

(** ** Hexadecimal rendering *)

Lemma hexDigit_lt (a b : Z) :
  0 <= a -> a < b -> b < 16 -> Ascii.compare (hexDigit a) (hexDigit b) = Lt.
Proof.
  intros Ha Hab Hb.
  assert (Ea : a = 0 \/ a = 1 \/ a = 2 \/ a = 3 \/ a = 4 \/ a = 5 \/ a = 6 \/ a = 7 \/
               a = 8 \/ a = 9 \/ a = 10 \/ a = 11 \/ a = 12 \/ a = 13 \/ a = 14) by lia.
  assert (Eb : b = 1 \/ b = 2 \/ b = 3 \/ b = 4 \/ b = 5 \/ b = 6 \/ b = 7 \/
               b = 8 \/ b = 9 \/ b = 10 \/ b = 11 \/ b = 12 \/ b = 13 \/ b = 14 \/ b = 15) by lia.
  repeat (destruct Ea as [->|Ea]); try subst a;
    repeat (destruct Eb as [->|Eb]); try subst b; try reflexivity; lia.
Qed.

Lemma hexFixed_length (k : nat) (n : Z) : String.length (hexFixed k n) = k.
Proof.
  revert n. induction k as [|k IH]; intro n; simpl; [reflexivity|].
  rewrite str_length_app, IH. simpl. lia.
Qed.

Lemma hexFixed_lt (k : nat) (n m : Z) :
  0 <= n -> n < m -> m < 16 ^ Z.of_nat k ->
  String.compare (hexFixed k n) (hexFixed k m) = Lt.
Proof.
  revert n m. induction k as [|k IH]; intros n m Hn Hnm Hm.
  - simpl in Hm. lia.
  - rewrite Nat2Z.inj_succ, Z.pow_succ_r in Hm by lia.
    simpl.
    assert (Hdn := Z.div_mod n 16 ltac:(lia)).
    assert (Hdm := Z.div_mod m 16 ltac:(lia)).
    assert (Hrn := Z.mod_pos_bound n 16 ltac:(lia)).
    assert (Hrm := Z.mod_pos_bound m 16 ltac:(lia)).
    destruct (Z.eq_dec (n / 16) (m / 16)) as [E|NE].
    + rewrite E, str_compare_app_same. simpl.
      rewrite hexDigit_lt; [reflexivity|lia..].
    + apply str_compare_lt_app; [|now rewrite !hexFixed_length].
      assert (n / 16 <= m / 16) by (apply Z.div_le_mono; lia).
      apply IH; lia.
Qed.

Lemma hexFixed_split (a b : nat) (n : Z) :
  0 <= n ->
  hexFixed (a + b) n =
  hexFixed a (n / 16 ^ Z.of_nat b) ++ hexFixed b (n mod 16 ^ Z.of_nat b).
Proof.
  revert n. induction b as [|b IH]; intros n Hn.
  - rewrite Nat.add_0_r. simpl. now rewrite Z.div_1_r, str_app_nil_r.
  - rewrite Nat.add_succ_r. cbn [hexFixed].
    rewrite Nat2Z.inj_succ, Z.pow_succ_r by lia.
    assert (P : 0 < 16 ^ Z.of_nat b) by (apply Z.pow_pos_nonneg; lia).
    rewrite IH by (apply Z.div_pos; lia).
    rewrite str_app_assoc.
    rewrite Z.div_div by lia.
    assert (E : n mod (16 * 16 ^ Z.of_nat b) = n mod 16 + 16 * ((n / 16) mod 16 ^ Z.of_nat b))
      by (apply Z.rem_mul_r; lia).
    assert (R := Z.mod_pos_bound n 16 ltac:(lia)).
    assert (E1 : (n mod (16 * 16 ^ Z.of_nat b)) / 16 = (n / 16) mod 16 ^ Z.of_nat b).
    { rewrite E. rewrite (Z.mul_comm 16), Z.div_add by lia.
      rewrite Z.div_small by lia. reflexivity. }
    assert (E2 : (n mod (16 * 16 ^ Z.of_nat b)) mod 16 = n mod 16).
    { rewrite E. rewrite (Z.mul_comm 16), Z.mod_add by lia.
      apply Z.mod_mod. lia. }
    now rewrite E1, E2.
Qed.

Lemma hexFixed_zero (k : nat) : hexFixed k 0 = replicate k "0"%char.
Proof.
  induction k as [|k IH]; [reflexivity|].
  cbn [hexFixed]. rewrite Z.div_0_l, Z.mod_0_l, IH by lia.
  clear IH. induction k as [|k IH]; [reflexivity|].
  cbn [replicate String.append] in *. now rewrite IH.
Qed.

Lemma toString16_loop_spec (fuel : nat) :
  forall (n : Z) (acc : string) (k : nat),
    0 <= n -> n < 16 ^ Z.of_nat k -> n < 16 ^ Z.of_nat fuel -> (1 <= k)%nat ->
    padStart (k + String.length acc) "0"%char (toString16_loop fuel n acc) =
    hexFixed k n ++ acc.
Proof.
  induction fuel as [|fuel IH]; intros n acc k Hn Hk Hf K.
  - simpl in Hf. assert (n = 0) by lia. subst n.
    cbn [toString16_loop]. unfold padStart.
    replace (k + String.length acc - String.length acc)%nat with k by lia.
    now rewrite hexFixed_zero.
  - destruct k as [|k]; [lia|].
    cbn [toString16_loop hexFixed].
    rewrite Nat2Z.inj_succ, Z.pow_succ_r in Hk, Hf by lia.
    assert (Hd := Z.div_mod n 16 ltac:(lia)).
    assert (Hr := Z.mod_pos_bound n 16 ltac:(lia)).
    destruct (Z.eqb_spec (n / 16) 0) as [E|NE].
    + rewrite E, hexFixed_zero. unfold padStart. cbn [String.length].
      replace (S k + String.length acc - S (String.length acc))%nat with k by lia.
      now rewrite str_app_assoc.
    + assert (0 < n / 16) by (assert (0 <= n / 16) by (apply Z.div_pos; lia); lia).
      assert (k <> 0%nat) by (intros ->; simpl in Hk; lia).
      specialize (IH (n / 16) (String (hexDigit (n mod 16)) acc) k).
      cbn [String.length] in IH.
      replace (k + S (String.length acc))%nat with (S k + String.length acc)%nat in IH by lia.
      rewrite IH by lia.
      now rewrite str_app_assoc.
Qed.

Lemma hex8_fixed (n : Z) : 0 <= n -> n < 2 ^ 32 -> hex8 n = hexFixed 8 n.
Proof.
  intros Hn Hb. unfold hex8, toString16.
  rewrite <- (str_app_nil_r (hexFixed 8 n)).
  change 8%nat with (8 + String.length "")%nat at 1.
  apply toString16_loop_spec; try lia.
  rewrite Nat2Z.inj_succ, Z2Nat.id by apply Z.log2_nonneg.
  destruct (Z.eq_dec n 0) as [->|NZ]; [reflexivity|].
  assert (L := Z.log2_spec n ltac:(lia)).
  assert (0 <= Z.log2 n) by apply Z.log2_nonneg.
  eapply Z.lt_le_trans; [apply L|].
  apply Z.pow_le_mono_l. lia.
Qed.

(** ** Doubles *)

Lemma digits2_pos_bounds (m : positive) :
  2 ^ (Zpos (digits2_pos m) - 1) <= Zpos m < 2 ^ Zpos (digits2_pos m).
Proof.
  induction m as [m IH|m IH|]; cbn [digits2_pos].
  - rewrite Pos2Z.inj_succ.
    replace (Z.succ (Zpos (digits2_pos m)) - 1) with (Z.succ (Zpos (digits2_pos m) - 1)) by lia.
    rewrite !Z.pow_succ_r by lia. lia.
  - rewrite Pos2Z.inj_succ.
    replace (Z.succ (Zpos (digits2_pos m)) - 1) with (Z.succ (Zpos (digits2_pos m) - 1)) by lia.
    rewrite !Z.pow_succ_r by lia. lia.
  - simpl. lia.
Qed.

Lemma isDouble_finite_bounds (s : bool) (m : positive) (e : Z) :
  isDouble (S754_finite s m e) = true ->
  Zpos m < 2 ^ 53 /\ -1074 <= e <= 971 /\ (e <> -1074 -> 2 ^ 52 <= Zpos m).
Proof.
  unfold isDouble, valid_binary, bounded, canonical_mantissa, fexp, SpecFloat.emin, prec, emax.
  intros H. apply andb_true_iff in H. destruct H as [H1 H2].
  apply Z.eqb_eq in H1. apply Z.leb_le in H2.
  assert (B := digits2_pos_bounds m).
  set (d := Zpos (digits2_pos m)) in *.
  assert (Hd : 0 < d) by (unfold d; lia).
  assert (Hcase : (d = 53 /\ -1074 <= e) \/ (e = -1074 /\ d <= 53)) by lia.
  destruct Hcase as [[Ed He]|[Ee Hd53]].
  - rewrite Ed in B. simpl (53 - 1) in B. repeat split; try lia.
  - repeat split; try lia.
    destruct B as [_ B]. eapply Z.lt_le_trans; [apply B|].
    apply Z.pow_le_mono_r; lia.
Qed.

Lemma magnitudeBits_bounds (n : number) :
  isDouble n = true -> isFiniteNumber n = true ->
  0 <= magnitudeBits n < 2047 * 2 ^ 52.
Proof.
  destruct n as [s|s| |s m e]; intros V F; try discriminate F.
  - cbn [magnitudeBits]. lia.
  - apply isDouble_finite_bounds in V. destruct V as (Hm & He & Hn).
    cbn [magnitudeBits].
    destruct (Z.leb_spec (2 ^ 52) (Zpos m)); lia.
Qed.

Lemma doubleBits_finite (n : number) :
  isFiniteNumber n = true ->
  doubleBits n =
  (match n with S754_zero true | S754_finite true _ _ => 2 ^ 63 | _ => 0 end)
  + magnitudeBits n.
Proof.
  destruct n as [s|s| |s m e]; intros F; try discriminate F;
    cbn [doubleBits magnitudeBits]; unfold joinBits.
  - destruct s; lia.
  - destruct (2 ^ 52 <=? Zpos m); destruct s; lia.
Qed.

Lemma lor_high_bit (h : Z) :
  0 <= h -> h < 2 ^ 31 -> Z.lor h 2147483648 = h + 2 ^ 31.
Proof.
  intros H0 H1.
  assert (L : Z.land h (2 ^ 31) = 0).
  { apply Z.bits_inj'. intros i Hi.
    rewrite Z.land_spec, Z.bits_0, Z.pow2_bits_eqb by lia.
    destruct (Z.eqb_spec 31 i) as [<-|NE]; [|apply andb_false_r].
    rewrite andb_true_r. apply Z.testbit_false; [lia|].
    now rewrite Z.div_small by lia. }
  change 2147483648 with (2 ^ 31).
  now rewrite <- Z.lxor_lor, <- Z.add_nocarry_lxor.
Qed.

Lemma uint32_lnot (h : Z) :
  0 <= h -> h < 2 ^ 32 -> uint32 (Z.lnot h) = 2 ^ 32 - 1 - h.
Proof.
  intros H0 H1. unfold uint32, Z.lnot.
  replace (Z.pred (- h)) with ((2 ^ 32 - 1 - h) + (-1) * 2 ^ 32) by lia.
  rewrite Z.mod_add by lia. apply Z.mod_small. lia.
Qed.

Lemma sortKey_value (n : number) :
  isDouble n = true -> isFiniteNumber n = true ->
  sortKey n = if isNegative n then 2 ^ 63 - 1 - magnitudeBits n
              else 2 ^ 63 + magnitudeBits n.
Proof.
  intros V F. assert (B := magnitudeBits_bounds n V F).
  assert (D := doubleBits_finite n F).
  unfold sortKey, readHigh, readLow. rewrite D. clear D.
  set (g := magnitudeBits n) in *.
  assert (Hq : 0 <= g / 2 ^ 32 < 2 ^ 31).
  { split; [apply Z.div_pos; lia|]. apply Z.div_lt_upper_bound; lia. }
  assert (Hr := Z.mod_pos_bound g (2 ^ 32) ltac:(lia)).
  assert (Hg := Z.div_mod g (2 ^ 32) ltac:(lia)).
  destruct n as [s|s| |s m e]; try discriminate.
  - assert (g = 0) by reflexivity.
    destruct s; cbn [num_geb SFleb SFcompare posZero isNegative]; subst g;
      rewrite H; reflexivity.
  - destruct s; cbn [num_geb SFleb SFcompare posZero isNegative].
    + replace (2 ^ 63 + g) with (g + 2 ^ 31 * 2 ^ 32) by lia.
      rewrite Z.div_add, Z.mod_add by lia.
      rewrite !uint32_lnot by lia. lia.
    + rewrite Z.add_0_l, lor_high_bit by lia.
      unfold uint32. rewrite Z.mod_small by lia. lia.
Qed.

Lemma sortKey_bounds (n : number) :
  isDouble n = true -> isFiniteNumber n = true -> 0 <= sortKey n < 2 ^ 64.
Proof.
  intros V F. rewrite sortKey_value by assumption.
  assert (B := magnitudeBits_bounds n V F). destruct (isNegative n); lia.
Qed.

Lemma hex_pair (h l : Z) :
  0 <= h < 2 ^ 32 -> 0 <= l < 2 ^ 32 ->
  hex8 h ++ hex8 l = hexFixed 16 (2 ^ 32 * h + l).
Proof.
  intros Hh Hl. change 16%nat with (8 + 8)%nat. rewrite hexFixed_split by lia.
  change (16 ^ Z.of_nat 8) with (2 ^ 32).
  rewrite (Z.mul_comm (2 ^ 32)), Z.div_add_l by lia.
  rewrite Z.div_small, Z.add_0_r by lia.
  rewrite Z.add_comm, Z.mod_add by lia.
  rewrite Z.mod_small by lia.
  now rewrite !hex8_fixed by lia.
Qed.

Lemma encodeNumber_finite (n : number) :
  isDouble n = true -> isFiniteNumber n = true ->
  encodeNumber n = "2:" ++ hexFixed 16 (sortKey n).
Proof.
  intros V F. assert (B := magnitudeBits_bounds n V F).
  assert (D := doubleBits_finite n F).
  unfold encodeNumber, sortKey.
  set (bits := doubleBits n) in *.
  assert (Hb : 0 <= bits < 2 ^ 64) by (rewrite D; destruct n as [[|]|?| |[|] ? ?]; lia).
  assert (Hh : 0 <= readHigh bits < 2 ^ 32)
    by (unfold readHigh; split; [apply Z.div_pos; lia|apply Z.div_lt_upper_bound; lia]).
  assert (Hl : 0 <= readLow bits < 2 ^ 32) by (apply Z.mod_pos_bound; lia).
  assert (U : forall x, 0 <= uint32 x < 2 ^ 32) by (intro; apply Z.mod_pos_bound; lia).
  destruct n as [s|s| |s m e]; try discriminate F; cbn [isNaN]; cbv zeta;
    destruct (num_geb _ posZero); now rewrite hex_pair by auto.
Qed.

Lemma sortKey_lt (a b : number) :
  isDouble a = true -> isDouble b = true ->
  isFiniteNumber a = true -> isFiniteNumber b = true ->
  num_ltb a b = true -> sortKey a < sortKey b.
Proof.
  intros Va Vb Fa Fb L.
  rewrite !sortKey_value by assumption.
  assert (Ba := magnitudeBits_bounds a Va Fa).
  assert (Bb := magnitudeBits_bounds b Vb Fb).
  destruct a as [sa|sa| |sa ma ea]; try discriminate Fa;
    destruct b as [sb|sb| |sb mb eb]; try discriminate Fb;
    unfold num_ltb, SFltb in L; cbn [SFcompare] in L.
  - discriminate L.
  - destruct sb; [discriminate L|]. cbn [isNegative].
    apply isDouble_finite_bounds in Vb. cbn [magnitudeBits] in *.
    destruct (Z.leb_spec (2 ^ 52) (Zpos mb)); lia.
  - destruct sa; [|discriminate L]. cbn [isNegative].
    apply isDouble_finite_bounds in Va. cbn [magnitudeBits] in *.
    destruct (Z.leb_spec (2 ^ 52) (Zpos ma)); lia.
  - apply isDouble_finite_bounds in Va, Vb.
    destruct Va as (Hma & Hea & Hna), Vb as (Hmb & Heb & Hnb).
    cbn [magnitudeBits] in *.
    assert (M : forall x y, Pos.compare_cont Eq x y = (Zpos x ?= Zpos y)) by reflexivity.
    destruct sa, sb; cbn [isNegative]; try discriminate L; try lia.
    + (* both negative *)
      destruct (Z.compare_spec ea eb) as [E|E|E]; try discriminate L.
      * subst eb. rewrite M in L.
        destruct (Z.compare_spec (Zpos ma) (Zpos mb)) as [E|E|E]; try discriminate L.
        destruct (Z.leb_spec (2 ^ 52) (Zpos ma)), (Z.leb_spec (2 ^ 52) (Zpos mb)); lia.
      * destruct (Z.leb_spec (2 ^ 52) (Zpos ma)), (Z.leb_spec (2 ^ 52) (Zpos mb)); lia.
    + (* both positive *)
      destruct (Z.compare_spec ea eb) as [E|E|E]; try discriminate L.
      * subst eb. rewrite M in L.
        destruct (Z.compare_spec (Zpos ma) (Zpos mb)) as [E|E|E]; try discriminate L.
        destruct (Z.leb_spec (2 ^ 52) (Zpos ma)), (Z.leb_spec (2 ^ 52) (Zpos mb)); lia.
      * destruct (Z.leb_spec (2 ^ 52) (Zpos ma)), (Z.leb_spec (2 ^ 52) (Zpos mb)); lia.
Qed.

(** C1. For finite doubles [a < b] the encoding of [a] is
    lexicographically below the encoding of [b], whatever the signs; and
    [-0.0] is encoded exactly as [+0.0]. *)
Theorem encodeNumber_order_preserving :
  (forall a b : number,
      isDouble a = true -> isDouble b = true ->
      isFiniteNumber a = true -> isFiniteNumber b = true ->
      num_ltb a b = true ->
      str_ltb (encodeNumber a) (encodeNumber b) = true)
  /\ encodeNumber negZero = encodeNumber posZero.
Proof.
  split; [|reflexivity].
  intros a b Va Vb Fa Fb L.
  rewrite !encodeNumber_finite by assumption.
  apply str_ltb_lt. rewrite str_compare_app_same.
  assert (Ka := sortKey_bounds a Va Fa). assert (Kb := sortKey_bounds b Vb Fb).
  apply hexFixed_lt; [lia|now apply sortKey_lt|].
  change (16 ^ Z.of_nat 16) with (2 ^ 64). lia.
Qed.

Lemma encodeNumber_order_preserving_witness :
  num_ltb minusOne one = true /\
  str_ltb (encodeNumber minusOne) (encodeNumber one) = true.
Proof.
  split; [reflexivity|].
  apply (proj1 encodeNumber_order_preserving minusOne one); reflexivity.
Defined.

(** ** Index keys *)

Lemma indexOf_app_found (c : ascii) (a r : string) :
  containsChar c a = false ->
  indexOf c (a ++ String c r) = Some (String.length a).
Proof.
  induction a as [|x a IH]; cbn [containsChar String.append indexOf String.length].
  - intros _. now rewrite Ascii.eqb_refl.
  - intros H. apply orb_false_iff in H. destruct H as [H1 H2].
    rewrite H1, IH by assumption. reflexivity.
Qed.

Lemma indexOf_none (c : ascii) (s : string) :
  containsChar c s = false -> indexOf c s = None.
Proof.
  induction s as [|x s IH]; cbn [containsChar indexOf]; [reflexivity|].
  intros H. apply orb_false_iff in H. destruct H as [H1 H2].
  now rewrite H1, IH.
Qed.

Lemma lastIndexOf_none (c : ascii) (s : string) :
  containsChar c s = false -> lastIndexOf c s = None.
Proof.
  induction s as [|x s IH]; cbn [containsChar lastIndexOf]; [reflexivity|].
  intros H. apply orb_false_iff in H. destruct H as [H1 H2].
  now rewrite IH, H1.
Qed.

Lemma lastIndexOf_app_found (c : ascii) (a r : string) :
  containsChar c r = false ->
  lastIndexOf c (a ++ String c r) = Some (String.length a).
Proof.
  intros H. induction a as [|x a IH]; cbn [String.append lastIndexOf String.length].
  - now rewrite lastIndexOf_none, Ascii.eqb_refl.
  - now rewrite IH.
Qed.

Lemma strDrop_app (a r : string) : strDrop (String.length a) (a ++ r) = r.
Proof. induction a as [|x a IH]; cbn [String.length String.append strDrop]; auto. Qed.

Lemma strTake_app (a r : string) : strTake (String.length a) (a ++ r) = a.
Proof.
  induction a as [|x a IH]; cbn [String.length String.append strTake]; [reflexivity|].
  now rewrite IH.
Qed.

Lemma strDrop_plus (n m : nat) (s : string) :
  strDrop (n + m) s = strDrop m (strDrop n s).
Proof.
  revert s. induction n as [|n IH]; intros s; [reflexivity|].
  destruct s as [|x s]; cbn [Nat.add strDrop].
  - now destruct m.
  - apply IH.
Qed.

Lemma strDrop_app_succ (a r : string) (x : ascii) :
  strDrop (String.length a + 1) (a ++ String x r) = r.
Proof. now rewrite strDrop_plus, strDrop_app. Qed.

Lemma substring_app (n : nat) (a r s : string) :
  strDrop n s = a ++ r ->
  substring n (n + String.length a) s = a.
Proof.
  intros H. unfold substring. rewrite H.
  replace (n + String.length a - n)%nat with (String.length a) by lia.
  apply strTake_app.
Qed.

Lemma containsChar_app (c : ascii) (a b : string) :
  containsChar c (a ++ b) = containsChar c a || containsChar c b.
Proof.
  induction a as [|x a IH]; cbn [String.append containsChar]; [reflexivity|].
  now rewrite IH, orb_assoc.
Qed.

(** The shape of the keys [decodeIdxKey] takes apart. *)
Lemma decodeIdxKey_shape (head collection field tail : string) :
  containsChar colon head = false ->
  containsChar colon collection = false ->
  containsChar colon field = false ->
  decodeIdxKey (head ++ ":" ++ collection ++ ":" ++ field ++ ":" ++ tail) =
  if negb (String.eqb head "idx") then None
  else match lastIndexOf IDX_ID_SEP_char tail with
       | None => None
       | Some sepIdx =>
           Some {| dk_collection := collection;
                   dk_field := field;
                   dk_encodedValue := substring 0 sepIdx tail;
                   dk_id := strDrop (sepIdx + 1) tail |}
       end.
Proof.
  intros Hh Hc Hf. unfold decodeIdxKey.
  set (key := head ++ ":" ++ collection ++ ":" ++ field ++ ":" ++ tail).
  assert (D1 : strDrop (String.length head + 1) key = collection ++ ":" ++ field ++ ":" ++ tail)
    by apply strDrop_app_succ.
  assert (I1 : indexOf colon key = Some (String.length head))
    by (apply indexOf_app_found; assumption).
  rewrite I1.
  assert (S1 : substring 0 (String.length head) key = head)
    by (apply (substring_app 0 head (":" ++ collection ++ ":" ++ field ++ ":" ++ tail)); reflexivity).
  rewrite S1. destruct (String.eqb head "idx"); cbn [negb]; [|reflexivity].
  unfold indexOfFrom at 1. rewrite D1.
  change (collection ++ ":" ++ field ++ ":" ++ tail)
    with (collection ++ String colon (field ++ ":" ++ tail)).
  rewrite indexOf_app_found by assumption. cbn [option_map].
  set (second := (String.length head + 1 + String.length collection)%nat).
  assert (D2 : strDrop (second + 1) key = field ++ ":" ++ tail).
  { unfold second. rewrite <- Nat.add_assoc, strDrop_plus, D1.
    apply strDrop_app_succ. }
  unfold indexOfFrom. rewrite D2.
  change (field ++ ":" ++ tail) with (field ++ String colon tail).
  rewrite indexOf_app_found by assumption. cbn [option_map].
  set (third := (second + 1 + String.length field)%nat).
  assert (D3 : strDrop (third + 1) key = tail).
  { unfold third. rewrite <- Nat.add_assoc, strDrop_plus, D2.
    apply strDrop_app_succ. }
  rewrite D3.
  destruct (lastIndexOf IDX_ID_SEP_char tail) as [sepIdx|]; [|reflexivity].
  f_equal. f_equal.
  - unfold second.
    apply (substring_app _ collection (":" ++ field ++ ":" ++ tail)). exact D1.
  - unfold third.
    apply (substring_app _ field (":" ++ tail)). exact D2.
Qed.

Section IndexKeys.
Context {B : JsBuiltins}.

(** C6. For names without [':'] and an id without the unit separator,
    decoding the key that [encodeIdxKey] builds gives back the collection,
    the field, the encoded value and the id; and a key whose tail after the
    third [':'] holds no unit separator decodes to no result. *)
Theorem decodeIdxKey_encodeIdxKey :
  (forall (collection field : string) (v : unknown) (id key : string),
      containsChar colon collection = false ->
      containsChar colon field = false ->
      containsChar IDX_ID_SEP_char id = false ->
      encodeIdxKey collection field v id = Ok key ->
      exists enc,
        encodeValue v = Ok enc /\
        decodeIdxKey key =
        Some {| dk_collection := collection; dk_field := field;
                dk_encodedValue := enc; dk_id := id |})
  /\
  (forall head collection field tail : string,
      containsChar colon head = false ->
      containsChar colon collection = false ->
      containsChar colon field = false ->
      containsChar IDX_ID_SEP_char tail = false ->
      decodeIdxKey (head ++ ":" ++ collection ++ ":" ++ field ++ ":" ++ tail) = None).
Proof.
  split.
  - intros collection field v id key Hc Hf Hid E.
    unfold encodeIdxKey in E. destruct (encodeValue v) as [enc|e]; [|discriminate E].
    injection E as <-. exists enc. split; [reflexivity|].
    refine (eq_trans
              (decodeIdxKey_shape "idx" collection field (enc ++ IDX_ID_SEP ++ id)
                                  eq_refl Hc Hf) _).
    cbn [String.eqb Ascii.eqb Bool.eqb negb].
    change (enc ++ IDX_ID_SEP ++ id) with (enc ++ String IDX_ID_SEP_char id).
    rewrite lastIndexOf_app_found by assumption.
    f_equal. f_equal.
    + apply (substring_app 0 enc (String IDX_ID_SEP_char id)). reflexivity.
    + apply strDrop_app_succ.
  - intros head collection field tail Hh Hc Hf Ht.
    rewrite decodeIdxKey_shape by assumption.
    rewrite lastIndexOf_none by assumption.
    now destruct (negb _).
Qed.

End IndexKeys.

Lemma decodeIdxKey_encodeIdxKey_witness :
  exists enc,
    encodeValue (Json (VStr "a@x")) = Ok enc /\
    decodeIdxKey ("idx:users:email:3:a@x" ++ IDX_ID_SEP ++ "u1") =
    Some {| dk_collection := "users"; dk_field := "email";
            dk_encodedValue := enc; dk_id := "u1" |}.
Proof.
  apply (proj1 decodeIdxKey_encodeIdxKey "users" "email" (Json (VStr "a@x")) "u1");
    reflexivity.
Defined.

(** ** Input sanitization *)

(** Induction on values, with the elements of arrays and the values of
    fields as induction hypotheses. *)
Lemma value_ind' (P : value -> Prop) :
  P VNull -> (forall b, P (VBool b)) -> (forall n, P (VNum n)) ->
  (forall s, P (VStr s)) ->
  (forall items, Forall P items -> P (VArr items)) ->
  (forall fields, Forall (fun kv => P (snd kv)) fields -> P (VObj fields)) ->
  forall v, P v.
Proof.
  intros HN HB HNu HS HA HO. fix IH 1.
  intros [ | b | n | s | items | fields ];
    [exact HN | apply HB | apply HNu | apply HS | | ].
  - apply HA. induction items as [|x items IHi]; constructor; [apply IH|apply IHi].
  - apply HO. induction fields as [|[k x] fields IHf]; constructor; [apply IH|apply IHf].
Qed.

Lemma indexKey_not_dangerous (i : nat) : DANGEROUS_KEYS (indexKey i) = false.
Proof.
  unfold DANGEROUS_KEYS, indexKey.
  destruct (Nat.to_uint i) eqn:E; try reflexivity.
  (* the first character of a decimal numeral is a digit *)
  all: try (cbn; reflexivity).
Qed.

(** Splitting [dangerFree] along a list. *)
Lemma dangerFree_arr_cons (x : value) (items : list value) :
  dangerFree (VArr (x :: items)) = dangerFree x && dangerFree (VArr items).
Proof. reflexivity. Qed.

Lemma dangerFree_obj_cons (key : string) (x : value) (fields : list (string * value)) :
  dangerFree (VObj ((key, x) :: fields)) =
  negb (DANGEROUS_KEYS key) && dangerFree x && dangerFree (VObj fields).
Proof. reflexivity. Qed.

Ltac leb_cases :=
  repeat match goal with
         | |- context [(?a <=? ?b)%nat] => destruct (Nat.leb_spec a b)
         | |- context [(?a <? ?b)%nat] => destruct (Nat.ltb_spec a b)
         end; try reflexivity; try lia.

(** The loop of [sanitizeDocument] over the items of an array held in a
    field. *)
Lemma sanitize_each (depth : nat) (items : list value) :
  (depth <= 20)%nat -> Forall sanitizeSpec items -> dangerFree (VArr items) = true ->
  (fix each (l0 : list value) : result unit :=
     match l0 with
     | [] => Ok tt
     | item :: l' =>
         match
           match item with
           | VArr _ | VObj _ => sanitizeDocument item (S depth)
           | _ => Ok tt
           end
         with
         | Ok _ => each l'
         | Err e => Err e
         end
     end) items =
  if (depth +
      (fix most0 (l0 : list value) : nat :=
         match l0 with
         | [] => 0
         | item :: rest0 =>
             Nat.max
               match item with
               | VArr _ | VObj _ => S (sanitizeLevels item)
               | _ => 0
               end (most0 rest0)
         end) items <=? 20)%nat
  then Ok tt else tooDeep.
Proof.
  intros Hd IH DF. induction items as [|item items IHi].
  - leb_cases.
  - rewrite dangerFree_arr_cons in DF. apply andb_true_iff in DF. destruct DF as [DF1 DF2].
    inversion IH as [|? ? Hitem Hrest]; subst.
    specialize (IHi Hrest DF2).
    cbn beta iota fix.
    destruct item as [ | b | n | s | sub | sub ];
      try solve [rewrite IHi; leb_cases];
      rewrite (Hitem (S depth) DF1);
      match goal with
      | |- context [sanitizeLevels ?v] =>
          destruct (Nat.leb_spec (S depth + sanitizeLevels v) 20);
          [rewrite IHi; leb_cases | unfold tooDeep; leb_cases]
      end.
Qed.

Lemma sanitize_visit (depth : nat) (val : value) :
  (depth <= 20)%nat -> sanitizeQ val -> dangerFree val = true ->
  match val with
  | VArr items =>
      (fix each (l0 : list value) : result unit :=
         match l0 with
         | [] => Ok tt
         | item :: l' =>
             match
               match item with
               | VArr _ | VObj _ => sanitizeDocument item (S depth)
               | _ => Ok tt
               end
             with
             | Ok _ => each l'
             | Err e => Err e
             end
         end) items
  | VObj _ => sanitizeDocument val (S depth)
  | _ => Ok tt
  end =
  if (depth +
      match val with
      | VArr items =>
          (fix most0 (l0 : list value) : nat :=
             match l0 with
             | [] => 0
             | item :: rest0 =>
                 Nat.max
                   match item with
                   | VArr _ | VObj _ => S (sanitizeLevels item)
                   | _ => 0
                   end (most0 rest0)
             end) items
      | VObj _ => S (sanitizeLevels val)
      | _ => 0
      end <=? 20)%nat
  then Ok tt else tooDeep.
Proof.
  intros Hd [HS HQ] DF.
  destruct val as [ | b | n | s | items | fields ]; try solve [leb_cases].
  - now apply sanitize_each.
  - rewrite (HS (S depth) DF). leb_cases.
Qed.

Lemma sanitizeQ_all (v : value) : sanitizeQ v.
Proof.
  induction v as [ | b | n | s | items IH | fields IH ] using value_ind';
    try solve [split; [intros depth _; cbn [sanitizeDocument sanitizeLevels]; unfold tooDeep; leb_cases | exact I]].
  - split; [|eapply Forall_impl; [|exact IH]; now intros ? [? _]].
    intros depth DF. cbn [sanitizeDocument sanitizeLevels].
    destruct (Nat.ltb_spec 20 depth); [unfold tooDeep; leb_cases|].
    match goal with
    | |- ?loop O items = ?rhs =>
        assert (G : forall i, loop i items = rhs); [|exact (G O)]
    end.
    induction items as [|val items IHi]; intro i; [leb_cases|].
    rewrite dangerFree_arr_cons in DF. apply andb_true_iff in DF. destruct DF as [DF1 DF2].
    inversion IH as [|? ? Hval Hrest]; subst.
    specialize (IHi Hrest DF2 (S i)).
    cbn beta iota fix. rewrite indexKey_not_dangerous.
    rewrite (sanitize_visit depth val) by assumption.
    match goal with
    | |- context [(depth + ?m <=? 20)%nat] => destruct (Nat.leb_spec (depth + m) 20)
    end; [rewrite IHi; leb_cases | unfold tooDeep; leb_cases].
  - split; [|exact I].
    intros depth DF. cbn [sanitizeDocument sanitizeLevels].
    destruct (Nat.ltb_spec 20 depth); [unfold tooDeep; leb_cases|].
    induction fields as [|[key val] fields IHf]; [leb_cases|].
    rewrite dangerFree_obj_cons in DF. apply andb_true_iff in DF. destruct DF as [DF0 DF2].
    apply andb_true_iff in DF0. destruct DF0 as [DK DF1]. apply negb_true_iff in DK.
    inversion IH as [|? ? Hval Hrest]; subst.
    specialize (IHf Hrest DF2).
    cbn beta iota fix. rewrite DK.
    rewrite (sanitize_visit depth val) by assumption.
    match goal with
    | |- context [(depth + ?m <=? 20)%nat] => destruct (Nat.leb_spec (depth + m) 20)
    end; [rewrite IHf; leb_cases | unfold tooDeep; leb_cases].
Qed.

Lemma sanitizeLevels_le_nestingDepth (v : value) : levelsLe v.
Proof.
  enough (Q : levelsLe v /\
              match v with VArr items => Forall levelsLe items | _ => True end)
    by apply Q.
  induction v as [ | b | n | s | items IH | fields IH ] using value_ind';
    try solve [split; [unfold levelsLe; cbn [sanitizeLevels nestingDepth]; lia | exact I]].
  - assert (F : Forall levelsLe items)
      by (eapply Forall_impl; [|exact IH]; now intros ? [? _]).
    split; [|exact F].
    unfold levelsLe. cbn [sanitizeLevels nestingDepth].
    induction items as [|val items IHi]; [lia|].
    inversion IH as [|? ? [Hval Hsub] Hrest]; subst.
    inversion F as [|? ? _ Frest]; subst.
    specialize (IHi Hrest Frest). cbn beta iota fix.
    apply Nat.max_le_compat; [|exact IHi].
    destruct val as [ | b | n | s | sub | sub ]; try lia; [|unfold levelsLe in Hval; lia].
    match goal with |- (?a <= S ?b)%nat => enough (a <= b)%nat by lia end.
    clear - Hsub. cbn [nestingDepth].
    induction sub as [|x sub IHs]; [lia|].
    inversion Hsub as [|? ? Hx Hxs]; subst. specialize (IHs Hxs).
    cbn beta iota fix. apply Nat.max_le_compat; [|exact IHs].
    unfold levelsLe in Hx. destruct x; lia.
  - split; [|exact I].
    unfold levelsLe. cbn [sanitizeLevels nestingDepth].
    induction fields as [|[key val] fields IHf]; [lia|].
    inversion IH as [|? ? [Hval Hsub] Hrest]; subst.
    specialize (IHf Hrest). cbn beta iota fix.
    apply Nat.max_le_compat; [|exact IHf].
    cbn [snd] in Hval, Hsub.
    destruct val as [ | b | n | s | sub | sub ]; try lia; [|unfold levelsLe in Hval; lia].
    match goal with |- (?a <= S ?b)%nat => enough (a <= b)%nat by lia end.
    clear - Hsub. cbn [nestingDepth].
    induction sub as [|x sub IHs]; [lia|].
    inversion Hsub as [|? ? Hx Hxs]; subst. specialize (IHs Hxs).
    cbn beta iota fix. apply Nat.max_le_compat; [|exact IHs].
    unfold levelsLe in Hx. destruct x; lia.
Qed.

Lemma nestingDepth_le_sanitizeLevels (v : value) : levelsGe v.
Proof.
  enough (Q : levelsGe v /\
              match v with VArr items => Forall levelsGe items | _ => True end)
    by apply Q.
  induction v as [ | b | n | s | items IH | fields IH ] using value_ind';
    try solve [split; [unfold levelsGe; cbn [sanitizeLevels nestingDepth]; lia | exact I]].
  - assert (F : Forall levelsGe items)
      by (eapply Forall_impl; [|exact IH]; now intros ? [? _]).
    split; [|exact F].
    unfold levelsGe. cbn [sanitizeLevels nestingDepth].
    induction items as [|val items IHi]; [lia|].
    inversion IH as [|? ? [Hval Hsub] Hrest]; subst.
    inversion F as [|? ? _ Frest]; subst.
    specialize (IHi Hrest Frest). cbn beta iota fix.
    match goal with
    | |- (Nat.max ?a ?b <= 2 * Nat.max ?c ?d + 1)%nat =>
        enough (a <= 2 * c + 1)%nat by lia
    end.
    destruct val as [ | b | n | s | sub | sub ]; try lia; [|unfold levelsGe in Hval; lia].
    match goal with |- (S ?a <= 2 * ?b + 1)%nat => enough (a <= 2 * b)%nat by lia end.
    clear - Hsub. cbn [nestingDepth].
    induction sub as [|x sub IHs]; [lia|].
    inversion Hsub as [|? ? Hx Hxs]; subst. specialize (IHs Hxs).
    cbn beta iota fix.
    match goal with
    | |- (Nat.max ?a ?b <= 2 * Nat.max ?c ?d)%nat => enough (a <= 2 * c)%nat by lia
    end.
    unfold levelsGe in Hx. destruct x; lia.
  - split; [|exact I].
    unfold levelsGe. cbn [sanitizeLevels nestingDepth].
    induction fields as [|[key val] fields IHf]; [lia|].
    inversion IH as [|? ? [Hval Hsub] Hrest]; subst.
    specialize (IHf Hrest). cbn beta iota fix.
    match goal with
    | |- (Nat.max ?a ?b <= 2 * Nat.max ?c ?d + 1)%nat =>
        enough (a <= 2 * c + 1)%nat by lia
    end.
    cbn [snd] in Hval, Hsub.
    destruct val as [ | b | n | s | sub | sub ]; try lia; [|unfold levelsGe in Hval; lia].
    match goal with |- (S ?a <= 2 * ?b + 1)%nat => enough (a <= 2 * b)%nat by lia end.
    clear - Hsub. cbn [nestingDepth].
    induction sub as [|x sub IHs]; [lia|].
    inversion Hsub as [|? ? Hx Hxs]; subst. specialize (IHs Hxs).
    cbn beta iota fix.
    match goal with
    | |- (Nat.max ?a ?b <= 2 * Nat.max ?c ?d)%nat => enough (a <= 2 * c)%nat by lia
    end.
    unfold levelsGe in Hx. destruct x; lia.
Qed.

(** C10, as the code has it.  On a document free of the dangerous keys,
    sanitization raises DocumentTooLarge (10334) exactly when the nesting
    that the sanitizer counts, [sanitizeLevels], exceeds 20, and passes
    otherwise.  That count is at most the nesting depth and at least half
    of it, so that a document nested at most 20 deep passes and a document
    nested more than 41 deep is rejected; in between the answer depends
    on how many of the levels are arrays. *)
Theorem sanitizeDocument_depth_limit (doc : document) :
  dangerFree (VObj doc) = true ->
  sanitizeDocument (VObj doc) 0
  = (if (sanitizeLevels (VObj doc) <=? 20)%nat then Ok tt
     else Err (DocumentStoreError 10334 None))
  /\ ((nestingDepth (VObj doc) <= 20)%nat -> sanitizeDocument (VObj doc) 0 = Ok tt)
  /\ ((41 < nestingDepth (VObj doc))%nat ->
      sanitizeDocument (VObj doc) 0 = Err (DocumentStoreError 10334 None)).
Proof.
  intros DF. destruct (sanitizeQ_all (VObj doc)) as [S _].
  specialize (S O DF). rewrite S.
  assert (L := sanitizeLevels_le_nestingDepth (VObj doc)). unfold levelsLe in L.
  assert (G := nestingDepth_le_sanitizeLevels (VObj doc)). unfold levelsGe in G.
  split; [reflexivity|]. split; intros H; unfold tooDeep; leb_cases.
Qed.

Lemma sanitizeDocument_depth_limit_witness :
  sanitizeDocument (VObj [("a", nestObjects 21 VNull)]) 0
  = Err (DocumentStoreError 10334 None)
  /\ sanitizeDocument (VObj [("a", nestObjects 20 VNull)]) 0 = Ok tt.
Proof.
  split.
  - apply (proj1 (sanitizeDocument_depth_limit [("a", nestObjects 21 VNull)] eq_refl)).
  - apply (proj1 (proj2 (sanitizeDocument_depth_limit [("a", nestObjects 20 VNull)]
                           eq_refl))).
    cbv. lia.
Defined.

(** C10 as stated fails: a document nested more than 20 deep is answered
    with BadValue (2) when a dangerous key is met before the deep part, and
    is accepted when enough of its levels are arrays that the sanitizer
    walks without counting: 15 objects each in an array held by the one
    before, or 41 arrays one inside the other. *)
Lemma sanitizeDocument_depth_counterexample :
  (20 < nestingDepth (VObj deepWithDangerousKey))%nat
  /\ sanitizeDocument (VObj deepWithDangerousKey) 0
     = Err (DocumentStoreError 2 (Some "BadValue"))
  /\ (20 < nestingDepth (VObj deepThroughArrays))%nat
  /\ sanitizeDocument (VObj deepThroughArrays) 0 = Ok tt
  /\ nestingDepth (VObj deepArrays) = 41%nat
  /\ sanitizeLevels (VObj deepArrays) = 20%nat
  /\ sanitizeDocument (VObj deepArrays) 0 = Ok tt.
Proof. repeat split; cbv; lia. Qed.

(** ** Residual filter: [$or] *)

Section OrFilter.
Context {B : JsBuiltins}.

(** [matchesFilter] on a filter that is only an [$or]. *)
Lemma matchesFilter_or_unfold (doc : document) (subs : list value) :
  matchesFilter doc (VObj [("$or", VArr subs)]) =
  if (0 <? List.length subs)%nat then
    match
      (fix some (ss : list value) : result bool :=
         match ss with
         | [] => Ok false
         | sub :: ss' =>
             match matchesFilter doc sub with
             | Ok false => some ss'
             | other => other
             end
         end) subs
    with
    | Ok found => if negb found then Ok false else Ok true
    | Err e => Err e
    end
  else Ok true.
Proof. reflexivity. Qed.

(** The empty [$or] is ignored: the filter matches every document. *)
Lemma matchesFilter_or_empty (doc : document) :
  matchesFilter doc (VObj [("$or", VArr [])]) = Ok true.
Proof. reflexivity. Qed.

(** C9, as the code has it.  When no sub-filter raises an error, a filter
    [{$or: [f1, ...]}] with a non-empty array matches a document exactly
    when one of the sub-filters does; with an empty array it matches every
    document. *)
Theorem matchesFilter_or (doc : document) (subs : list value) :
  (forall sub, In sub subs -> exists b, matchesFilter doc sub = Ok b) ->
  (subs <> [] ->
   (matchesFilter doc (VObj [("$or", VArr subs)]) = Ok true <->
    exists sub, In sub subs /\ matchesFilter doc sub = Ok true))
  /\ (subs = [] -> matchesFilter doc (VObj [("$or", VArr subs)]) = Ok true).
Proof.
  intros NoErr. split; [|intros ->; apply matchesFilter_or_empty].
  intros NE. rewrite matchesFilter_or_unfold.
  match goal with
  | |- (if _ then ?X else _) = _ <-> ?R => assert (K : X = Ok true <-> R)
  end.
  { clear NE. induction subs as [|sub subs IH].
    - split; [discriminate|intros (x & [] & _)].
    - destruct (NoErr sub (or_introl eq_refl)) as [b Hb].
      assert (NoErr' : forall x, In x subs -> exists b, matchesFilter doc x = Ok b)
        by (intros x Hx; apply NoErr; now right).
      specialize (IH NoErr'). cbn beta iota fix. rewrite Hb.
      destruct b.
      + split; [|reflexivity]. intros _. exists sub. split; [now left|exact Hb].
      + rewrite IH. split.
        * intros (x & Hx & Hm). exists x. split; [now right|exact Hm].
        * intros (x & [<-|Hx] & Hm); [congruence|]. exists x. now split. }
  destruct subs; [congruence|exact K].
Qed.

End OrFilter.

Lemma matchesFilter_or_witness :
  matchesFilter [("a", VNum one)]
                (VObj [("$or", VArr [VObj [("a", VNum ten)]; VObj [("a", VNum one)]])])
  = Ok true.
Proof.
  apply (proj1 (matchesFilter_or [("a", VNum one)]
                                 [VObj [("a", VNum ten)]; VObj [("a", VNum one)]]
                                 ltac:(intros sub [<-|[<-|[]]]; eexists; reflexivity))).
  - discriminate.
  - exists (VObj [("a", VNum one)]). split; [right; left; reflexivity|reflexivity].
Defined.

(** C9 as stated fails on the empty array: [{$or: []}] does not reject, it
    matches. *)
Lemma matchesFilter_or_empty_counterexample :
  matchesFilter [("a", VNum one)] (VObj [("$or", VArr [])]) = Ok true.
Proof. reflexivity. Qed.

(** ** Plan selection *)

Section PlannerFacts.
Context {B : JsBuiltins}.

(** The flag of a plan chosen by the first loop of [planQuery] only
    depends on the other keys of the filter: the operators of the chosen
    condition play no part in it. *)
Lemma planFromEntries_needsPostFilter
      (filter : value) (indexes : list IndexDefinition) (collection : string)
      (entries : list (string * value)) (plan : QueryPlan) :
  planFromEntries filter indexes collection entries = Ok (Some plan) ->
  plan_type plan = IndexScan /\
  exists field,
    indexField plan = Some field /\
    (needsPostFilter plan = true <->
     exists other, In other (objectKeys filter) /\ other <> field
                   /\ startsWith "$" other = false).
Proof.
  induction entries as [|[field condition] entries IH]; [discriminate|].
  cbn [planFromEntries].
  destruct (startsWith "$" field); [exact IH|].
  destruct (findIndexByField indexes field) as [index|]; [|exact IH].
  assert (K : forall pf,
             pf = (0 <? List.length (otherFields filter field))%nat ->
             (pf = true <->
              exists other, In other (objectKeys filter) /\ other <> field
                            /\ startsWith "$" other = false)).
  { intros pf ->. unfold otherFields.
    destruct (List.filter _ (objectKeys filter)) as [|x l] eqn:E.
    - split; [discriminate|]. intros (other & Hin & Hne & Hop).
      assert (Hf : In other []).
      { rewrite <- E. apply filter_In. split; [exact Hin|].
        rewrite Hop. apply String.eqb_neq in Hne. now rewrite Hne. }
      destruct Hf.
    - split; [|reflexivity]. intros _.
      assert (Hx : In x (x :: l)) by now left.
      rewrite <- E in Hx. apply filter_In in Hx. destruct Hx as [Hin Hx].
      apply andb_true_iff in Hx. destruct Hx as [H1 H2].
      apply negb_true_iff in H1, H2. apply String.eqb_neq in H1.
      exists x. repeat split; assumption. }
  destruct condition as [ | b | n | s | items | ops ].
  6: destruct (hasField "$gt" ops || hasField "$gte" ops || hasField "$lt" ops
               || hasField "$lte" ops || hasField "$eq" ops); [|exact IH].
  all: destruct (computeIndexRange collection field _) as [[startK endK]|e];
    [|discriminate].
  all: intros H; injection H as <-; cbn [plan_type indexField needsPostFilter].
  all: split; [reflexivity|exists field; split; [reflexivity|now apply K]].
Qed.

(** C4 fails on the code: for [{ age: { $gt: 1, $ne: 10 } }] and an index
    on [age], [planQuery] chooses the index scan and leaves
    [needsPostFilter] false although the condition carries the non-range
    operator [$ne]. *)
Theorem planQuery_range_with_ne :
  exists plan,
    planQuery (VObj ageRangeAndNe) [idIndex; ageIndex] "users" = Ok plan
    /\ plan_type plan = IndexScan
    /\ indexField plan = Some "age"
    /\ needsPostFilter plan = false.
Proof. eexists. repeat split. Qed.

End PlannerFacts.

(** ** The document store on small inputs *)

Section StoreRuns.
Context {B : JsBuiltins}.

(** C7 fails on the code: [updateOne] on a collection without metadata,
    upsert not set, returns zero counts but leaves a metadata row behind,
    because it loads the metadata with [getOrCreateCollection]. *)
Theorem updateOne_missing_collection_creates_metadata :
  let run := updateOne defaultMaxDocumentSize "ghost" []
                       (setOnly [("a", VStr "x")]) false emptyWorld in
  kv_get (encodeMetaKey "ghost") (kv emptyWorld) = None
  /\ fst run = Ok noMatch
  /\ kv_get (encodeMetaKey "ghost") (kv (snd run)) =
     Some (BufMeta {| cm_name := "ghost"; cm_indexes := [idIndex];
                      cm_createdAt := dateNow 0; cm_schemaVersion := 1;
                      cm_documentCount := 0 |}).
Proof. repeat split. Qed.

(** [updateMany], the sibling of [updateOne], leaves the store alone in
    the same situation. *)
Example updateMany_missing_collection_unchanged :
  updateMany defaultMaxDocumentSize "ghost" [] (setOnly [("a", VStr "x")]) false emptyWorld
  = (Ok noMatch, emptyWorld).
Proof. reflexivity. Qed.

(** C8 fails on the code: [updateOne] with a [$set] that leaves the
    matched document as it is stored answers [modifiedCount = 1]. *)
Theorem updateOne_unchanged_document_counts_modified :
  let doc := [("_id", VStr "1"); ("a", VStr "x")] in
  let update := setOnly [("a", VStr "x")] in
  let run := updateOne defaultMaxDocumentSize "c" [("_id", VStr "1")] update false
                       oneDocWorld in
  kv_get (encodeDocKey "c" "1") (kv oneDocWorld) = Some (BufDoc doc)
  /\ applyUpdate update doc = doc
  /\ fst run = Ok {| upd_acknowledged := true; matchedCount := 1;
                     modifiedCount := 1; upsertedId := None |}
  /\ kv (snd run) = kv oneDocWorld.
Proof. repeat split. Qed.

(** [updateMany], the sibling of [updateOne], answers [modifiedCount = 0]
    for the same update. *)
Example updateMany_unchanged_document_counts_unmodified :
  fst (updateMany defaultMaxDocumentSize "c" [("_id", VStr "1")]
                  (setOnly [("a", VStr "x")]) false oneDocWorld)
  = Ok {| upd_acknowledged := true; matchedCount := 1; modifiedCount := 0;
          upsertedId := None |}.
Proof. reflexivity. Qed.

(** Whenever [updateOne] answers a match it answers a modification. *)
Lemma updateOne_matched_is_modified
      (maxDocumentSize : Z) (collection : string) (filter : document)
      (update : UpdateSpec) (upsertOption : bool) (w w' : world) (r : UpdateResult) :
  updateOne maxDocumentSize collection filter update upsertOption w = (Ok r, w') ->
  modifiedCount r = matchedCount r.
Proof.
  unfold updateOne, bind.
  destruct (sanitizeUpdate collection filter update w) as [[?|?] w0]; [|discriminate].
  destruct (lockCollection collection w0) as [[?|?] w1]; [|discriminate].
  destruct (getOrCreateCollection collection w1) as [[metadata|?] w2]; [|discriminate].
  unfold lift at 1.
  destruct (planQuery (VObj filter) (cm_indexes metadata) collection) as [plan|?];
    [|discriminate].
  destruct (executeQuery plan collection (VObj filter) (limitOnly 1) w2)
    as [[result|?] w3]; [|discriminate].
  destruct (documents result) as [|doc rest].
  - destruct upsertOption.
    + unfold upsert, bind.
      destruct (_insertInternal maxDocumentSize collection _ w3) as [[ins|?] w4];
        [|discriminate].
      unfold ret. intros H. injection H as <- _. reflexivity.
    + unfold ret. intros H. injection H as <- _. reflexivity.
  - destruct (onUpdateWrapped collection (cm_indexes metadata) doc
                              (applyUpdate update doc) (idOf doc) w3)
      as [[?|?] w4]; [|discriminate].
    unfold kvPut, ret. intros H. injection H as <- _. reflexivity.
Qed.

(** C5 fails on the code: [insert("c", [{_id: "1"}, {_id: "1"}])] ends with
    DuplicateKey at the second document; the first one is stored, and the
    persisted [documentCount] is still 0. *)
Theorem insert_duplicate_in_batch_count_not_committed :
  let run := insert defaultMaxDocumentSize "c"
                    [[("_id", VStr "1")]; [("_id", VStr "1")]] emptyWorld in
  fst run = Err (DocumentStoreError 11000 None)
  /\ kv_get (encodeDocKey "c" "1") (kv (snd run)) = Some (BufDoc [("_id", VStr "1")])
  /\ kv_get (encodeMetaKey "c") (kv (snd run)) =
     Some (BufMeta {| cm_name := "c"; cm_indexes := [idIndex];
                      cm_createdAt := dateNow 0; cm_schemaVersion := 1;
                      cm_documentCount := 0 |}).
Proof. repeat split. Qed.

End StoreRuns.

(** What C4's flag costs: with an index on [age] and the one document
    [{_id: "1", age: 10}], the filter [{ age: { $gt: 1, $ne: 10 } }]
    matches no document, and [countDocuments] counts one. *)
Example countDocuments_counts_excluded_document :
  let w1 := snd (createIndex "users" "age" false emptyWorld) in
  let w2 := snd (insert defaultMaxDocumentSize "users"
                        [[("_id", VStr "1"); ("age", VNum ten)]] w1) in
  matchesFilter [("_id", VStr "1"); ("age", VNum ten)] (VObj ageRangeAndNe) = Ok false
  /\ fst (countDocuments "users" ageRangeAndNe w2) = Ok 1.
Proof. split; reflexivity. Qed.

(** ** The key-value store *)

Lemma str_compare_gt_lt (a b : string) :
  String.compare a b = Gt <-> String.compare b a = Lt.
Proof.
  rewrite (String.compare_antisym b a).
  destruct (String.compare a b); cbn; split; congruence.
Qed.

Lemma str_lt_irrefl (a : string) : ~ str_lt a a.
Proof. unfold str_lt. rewrite str_compare_refl. discriminate. Qed.

Lemma str_lt_trans (a b c : string) : str_lt a b -> str_lt b c -> str_lt a c.
Proof. apply str_compare_lt_trans. Qed.

Lemma str_eqb_compare (a b : string) :
  String.eqb a b = match String.compare a b with Eq => true | _ => false end.
Proof.
  destruct (String.eqb_spec a b) as [->|NE].
  - now rewrite str_compare_refl.
  - destruct (String.compare a b) eqn:E; try reflexivity.
    apply String.compare_eq_iff in E. contradiction.
Qed.

(** *** get, put, delete *)

Lemma kv_get_put_same (key : string) (v : buffer) (s : kvstore) :
  kv_get key (kv_put key v s) = Some v.
Proof.
  induction s as [|[k x] s IH]; cbn [kv_put kv_get].
  - now rewrite String.eqb_refl.
  - destruct (String.compare key k) eqn:E; cbn [kv_get].
    + apply String.compare_eq_iff in E. subst. now rewrite String.eqb_refl.
    + now rewrite String.eqb_refl.
    + rewrite str_eqb_compare, String.compare_antisym, E. cbn. exact IH.
Qed.

Lemma kv_get_put_other (key key' : string) (v : buffer) (s : kvstore) :
  key <> key' -> kv_get key' (kv_put key v s) = kv_get key' s.
Proof.
  intros NE. induction s as [|[k x] s IH]; cbn [kv_put kv_get].
  - apply String.eqb_neq in NE. now rewrite NE.
  - destruct (String.compare key k) eqn:E; cbn [kv_get].
    + apply String.compare_eq_iff in E. subst.
      apply String.eqb_neq in NE. now rewrite NE.
    + apply String.eqb_neq in NE. now rewrite NE.
    + now rewrite IH.
Qed.

Lemma kv_get_delete_same (key : string) (s : kvstore) :
  kv_get key (kv_delete key s) = None.
Proof.
  induction s as [|[k x] s IH]; cbn [kv_delete kv_get]; [reflexivity|].
  destruct (String.eqb k key) eqn:E; [exact IH|].
  cbn [kv_get]. now rewrite E.
Qed.

Lemma kv_get_delete_other (key key' : string) (s : kvstore) :
  key <> key' -> kv_get key' (kv_delete key s) = kv_get key' s.
Proof.
  intros NE. induction s as [|[k x] s IH]; cbn [kv_delete kv_get]; [reflexivity|].
  destruct (String.eqb k key) eqn:E.
  - apply String.eqb_eq in E. subst k.
    apply String.eqb_neq in NE. now rewrite NE.
  - cbn [kv_get]. now rewrite IH.
Qed.

Lemma kv_get_In (key : string) (v : buffer) (s : kvstore) :
  kv_get key s = Some v -> In (key, v) s.
Proof.
  induction s as [|[k x] s IH]; cbn [kv_get]; [discriminate|].
  destruct (String.eqb_spec k key) as [->|NE].
  - intros H. injection H as ->. now left.
  - intros H. right. now apply IH.
Qed.

Lemma kv_wf_cons_inv (k : string) (x : buffer) (s : kvstore) :
  kv_wf ((k, x) :: s) -> kv_wf s /\ Forall (fun e => str_lt k (fst e)) s.
Proof.
  unfold kv_wf, sortedKeys. cbn [map fst]. intros H.
  inversion H as [|? ? Hs Hall]; subst. split; [exact Hs|].
  rewrite Forall_map in Hall. exact Hall.
Qed.

Lemma kv_wf_cons (k : string) (x : buffer) (s : kvstore) :
  kv_wf s -> Forall (fun e => str_lt k (fst e)) s -> kv_wf ((k, x) :: s).
Proof.
  unfold kv_wf, sortedKeys. cbn [map fst]. intros Hs Hall.
  constructor; [exact Hs|]. now rewrite Forall_map.
Qed.

Lemma kv_In_get (key : string) (v : buffer) (s : kvstore) :
  kv_wf s -> In (key, v) s -> kv_get key s = Some v.
Proof.
  induction s as [|[k x] s IH]; intros W H; [destruct H|].
  apply kv_wf_cons_inv in W. destruct W as [W Hall].
  cbn [kv_get]. destruct H as [E|H].
  - injection E as -> ->. now rewrite String.eqb_refl.
  - destruct (String.eqb_spec k key) as [->|NE]; [|now apply IH].
    rewrite Forall_forall in Hall. specialize (Hall _ H).
    now apply str_lt_irrefl in Hall.
Qed.

Lemma kv_put_keys (key : string) (v : buffer) (s : kvstore) (e : KVEntry) :
  In e (kv_put key v s) -> fst e = key \/ In e s.
Proof.
  induction s as [|[k x] s IH]; cbn [kv_put].
  - intros [<-|[]]. now left.
  - destruct (String.compare key k) eqn:E.
    + apply String.compare_eq_iff in E. subst.
      intros [<-|H]; [now left|right; now right].
    + intros [<-|H]; [now left|now right].
    + intros [<-|H]; [right; now left|].
      destruct (IH H) as [?|?]; [now left|right; now right].
Qed.

Lemma kv_put_wf (key : string) (v : buffer) (s : kvstore) :
  kv_wf s -> kv_wf (kv_put key v s).
Proof.
  induction s as [|[k x] s IH]; intros W; cbn [kv_put].
  - apply kv_wf_cons; [constructor|constructor].
  - destruct (kv_wf_cons_inv _ _ _ W) as [Ws Hall].
    destruct (String.compare key k) eqn:E.
    + apply kv_wf_cons; assumption.
    + apply kv_wf_cons; [exact W|]. constructor; [exact E|].
      eapply Forall_impl; [|exact Hall]. intros e He.
      eapply str_lt_trans; [exact E|exact He].
    + apply kv_wf_cons; [now apply IH|].
      apply Forall_forall. intros e He.
      destruct (kv_put_keys _ _ _ _ He) as [->|Hin].
      * now apply str_compare_gt_lt.
      * rewrite Forall_forall in Hall. now apply Hall.
Qed.

Lemma kv_delete_In (key : string) (s : kvstore) (e : KVEntry) :
  In e (kv_delete key s) <-> In e s /\ fst e <> key.
Proof.
  induction s as [|[k x] s IH]; cbn [kv_delete]; [tauto|].
  destruct (String.eqb_spec k key) as [->|NE].
  - rewrite IH. split.
    + intros [H1 H2]. split; [now right|exact H2].
    + intros [[<-|H1] H2]; [now contradiction H2|now split].
  - cbn [In]. rewrite IH. split.
    + intros [<-|[H1 H2]]; [split; [now left|exact NE]|split; [now right|exact H2]].
    + intros [[<-|H1] H2]; [now left|right; now split].
Qed.

Lemma kv_delete_wf (key : string) (s : kvstore) : kv_wf s -> kv_wf (kv_delete key s).
Proof.
  induction s as [|[k x] s IH]; intros W; cbn [kv_delete]; [exact W|].
  destruct (kv_wf_cons_inv _ _ _ W) as [Ws Hall].
  destruct (String.eqb k key); [now apply IH|].
  apply kv_wf_cons; [now apply IH|].
  apply Forall_forall. intros e He. apply kv_delete_In in He.
  rewrite Forall_forall in Hall. now apply Hall.
Qed.


(** *** Binary search and scans *)

(** Cuts of a list of entries with keys of any type. *)
Section Cuts.
Context {K V : Type}.

Lemma cut_StronglySorted (lt : K -> K -> Prop) (below : K -> bool) (s : list (K * V)) :
  StronglySorted lt (map fst s) ->
  (forall a b, lt a b -> below b = true -> below a = true) ->
  isCut below s.
Proof.
  intros W Mono. induction s as [|[k x] s IH]; [exact I|].
  cbn [map fst] in W. inversion W as [|? ? Ws Hall]; subst.
  cbn [isCut fst]. split; [|now apply IH].
  intros Hk. rewrite Forall_forall in Hall. apply Forall_forall.
  intros e He. destruct (below (fst e)) eqn:E; [|reflexivity].
  rewrite (Mono k (fst e)) in Hk; [discriminate| |exact E].
  apply Hall. now apply in_map.
Qed.

Lemma filter_all_false {A} (f : A -> bool) (l : list A) :
  Forall (fun x => f x = false) l -> List.filter f l = [].
Proof.
  induction 1 as [|x l Hx _ IH]; [reflexivity|]. cbn. now rewrite Hx.
Qed.

Lemma cut_cons (below : K -> bool) (e : K * V) (s : list (K * V)) :
  countBelow below (e :: s) =
  if below (fst e) then S (countBelow below s) else countBelow below s.
Proof. unfold countBelow. cbn [List.filter]. now destruct (below (fst e)). Qed.

Lemma cut_all_false (below : K -> bool) (s : list (K * V)) :
  Forall (fun x => below (fst x) = false) s -> countBelow below s = O.
Proof. intros H. unfold countBelow. now rewrite filter_all_false. Qed.

Lemma cut_le (below : K -> bool) (s : list (K * V)) :
  (countBelow below s <= List.length s)%nat.
Proof. unfold countBelow. apply filter_length_le. Qed.

(** Below the cut the predicate holds, from the cut on it fails. *)
Lemma cut_nth (d : K) (below : K -> bool) (s : list (K * V)) (i : nat) :
  isCut below s -> (i < List.length s)%nat ->
  below (nth i (map fst s) d) = (i <? countBelow below s)%nat.
Proof.
  revert i. induction s as [|e s IH]; intros i C Hi; [cbn in Hi; lia|].
  destruct C as [C1 C2]. rewrite cut_cons.
  destruct i as [|i]; cbn [map nth].
  - destruct (below (fst e)) eqn:E; [reflexivity|].
    now rewrite cut_all_false by auto.
  - cbn [List.length] in Hi.
    rewrite IH by (assumption || lia).
    destruct (below (fst e)) eqn:E; [reflexivity|].
    rewrite cut_all_false by auto. reflexivity.
Qed.

(** The part of the store a cut leaves. *)
Lemma cut_firstn (below : K -> bool) (s : list (K * V)) :
  isCut below s ->
  firstn (countBelow below s) s = List.filter (fun e => below (fst e)) s.
Proof.
  induction s as [|e s IH]; intros C; [reflexivity|].
  destruct C as [C1 C2]. rewrite cut_cons. cbn [List.filter].
  destruct (below (fst e)) eqn:E.
  - cbn [firstn]. now rewrite IH.
  - rewrite cut_all_false, filter_all_false by auto. reflexivity.
Qed.

Lemma cut_slice (lower upper : K -> bool) (s : list (K * V)) :
  isCut lower s -> isCut upper s ->
  slice (countBelow lower s) (countBelow upper s) s =
  List.filter (fun e => negb (lower (fst e)) && upper (fst e)) s.
Proof.
  unfold slice. induction s as [|e s IH]; intros Cl Cu.
  - now destruct (countBelow upper [] - countBelow lower [])%nat.
  - destruct Cl as [Cl1 Cl2], Cu as [Cu1 Cu2].
    rewrite !cut_cons. cbn [List.filter].
    destruct (lower (fst e)) eqn:El; destruct (upper (fst e)) eqn:Eu; cbn [negb andb].
    + cbn [skipn Nat.sub]. now apply IH.
    + rewrite (cut_all_false upper) by auto. cbn [Nat.sub firstn].
      symmetry. apply filter_all_false.
      eapply Forall_impl; [|apply (Cu1 eq_refl)].
      intros x Hx. cbn beta. rewrite Hx. apply andb_false_r.
    + rewrite (cut_all_false lower) by auto.
      cbn [skipn Nat.sub firstn]. f_equal.
      rewrite cut_firstn by assumption.
      apply filter_ext_in. intros x Hx.
      assert (F := Cl1 eq_refl). rewrite Forall_forall in F.
      now rewrite (F x Hx).
    + rewrite (cut_all_false lower), (cut_all_false upper) by auto.
      cbn [skipn Nat.sub firstn].
      symmetry. apply filter_all_false.
      eapply Forall_impl; [|apply (Cu1 eq_refl)].
      intros x Hx. cbn beta. rewrite Hx. apply andb_false_r.
Qed.

Lemma cut_or (a b : K -> bool) (s : list (K * V)) :
  isCut a s -> isCut b s -> isCut (fun k => a k || b k) s.
Proof.
  induction s as [|e s IH]; intros Ca Cb; [exact I|].
  destruct Ca as [Ca1 Ca2], Cb as [Cb1 Cb2]. split; [|now apply IH].
  intros H. apply orb_false_iff in H. destruct H as [Ha Hb].
  specialize (Ca1 Ha). specialize (Cb1 Hb).
  rewrite Forall_forall in *. intros x Hx.
  now rewrite (Ca1 x Hx), (Cb1 x Hx).
Qed.

Lemma cut_and (a b : K -> bool) (s : list (K * V)) :
  isCut a s -> isCut b s -> isCut (fun k => a k && b k) s.
Proof.
  induction s as [|e s IH]; intros Ca Cb; [exact I|].
  destruct Ca as [Ca1 Ca2], Cb as [Cb1 Cb2]. split; [|now apply IH].
  intros H. apply andb_false_iff in H.
  rewrite Forall_forall. intros x Hx.
  destruct H as [Ha|Hb].
  - specialize (Ca1 Ha). rewrite Forall_forall in Ca1. now rewrite (Ca1 x Hx).
  - specialize (Cb1 Hb). rewrite Forall_forall in Cb1.
    rewrite (Cb1 x Hx). apply andb_false_r.
Qed.

Lemma cut_max (a b : K -> bool) (s : list (K * V)) :
  isCut a s -> isCut b s ->
  Nat.max (countBelow a s) (countBelow b s) = countBelow (fun k => a k || b k) s.
Proof.
  induction s as [|e s IH]; intros Ca Cb; [reflexivity|].
  destruct Ca as [Ca1 Ca2], Cb as [Cb1 Cb2]. rewrite !cut_cons.
  destruct (a (fst e)) eqn:Ea; destruct (b (fst e)) eqn:Eb; cbn [orb].
  - cbn [Nat.max]. f_equal. now apply IH.
  - rewrite (cut_all_false b) by auto. rewrite Nat.max_0_r. f_equal.
    unfold countBelow. f_equal. apply filter_ext_in. intros x Hx.
    assert (F := Cb1 eq_refl). rewrite Forall_forall in F.
    rewrite (F x Hx). now rewrite orb_false_r.
  - rewrite (cut_all_false a) by auto. rewrite Nat.max_0_l. f_equal.
    unfold countBelow. f_equal. apply filter_ext_in. intros x Hx.
    assert (F := Ca1 eq_refl). rewrite Forall_forall in F.
    now rewrite (F x Hx).
  - now apply IH.
Qed.

Lemma cut_min (a b : K -> bool) (s : list (K * V)) :
  isCut a s -> isCut b s ->
  Nat.min (countBelow a s) (countBelow b s) = countBelow (fun k => a k && b k) s.
Proof.
  induction s as [|e s IH]; intros Ca Cb; [reflexivity|].
  destruct Ca as [Ca1 Ca2], Cb as [Cb1 Cb2]. rewrite !cut_cons.
  destruct (a (fst e)) eqn:Ea; destruct (b (fst e)) eqn:Eb; cbn [andb].
  - cbn [Nat.min]. f_equal. now apply IH.
  - rewrite (cut_all_false b) by auto. rewrite Nat.min_0_r.
    symmetry. apply cut_all_false.
    eapply Forall_impl; [|apply (Cb1 eq_refl)].
    intros x Hx. cbn beta. rewrite Hx. apply andb_false_r.
  - rewrite (cut_all_false a) by auto. rewrite Nat.min_0_l.
    symmetry. apply cut_all_false.
    eapply Forall_impl; [|apply (Ca1 eq_refl)].
    intros x Hx. cbn beta. now rewrite Hx.
  - now apply IH.
Qed.

Lemma cut_const (c : bool) (s : list (K * V)) :
  isCut (fun _ : K => c) s.
Proof.
  induction s as [|e s IH]; [exact I|]. split; [|exact IH].
  intros ->. now apply Forall_forall.
Qed.

Lemma cut_true (s : list (K * V)) :
  countBelow (fun _ : K => true) s = List.length s.
Proof.
  unfold countBelow. induction s as [|e s IH]; [reflexivity|]. cbn. now rewrite IH.
Qed.

Lemma cut_false (s : list (K * V)) :
  countBelow (fun _ : K => false) s = O.
Proof. apply cut_all_false. now apply Forall_forall. Qed.

Lemma cut_mono (a b : K -> bool) (s : list (K * V)) :
  (forall k, a k = true -> b k = true) -> (countBelow a s <= countBelow b s)%nat.
Proof.
  intros H. induction s as [|e s IH]; [apply Nat.le_refl|].
  rewrite !cut_cons.
  destruct (a (fst e)) eqn:Ea; [rewrite (H _ Ea); lia|].
  destruct (b (fst e)); lia.
Qed.

Lemma slice_length_le {A} (a b : nat) (l : list A) :
  (a <= b <= List.length l)%nat -> List.length (slice a b l) = (b - a)%nat.
Proof.
  intros H. unfold slice. rewrite length_firstn, length_skipn. lia.
Qed.

(** The number of entries between two cuts. *)
Lemma cut_between (lower upper : K -> bool) (s : list (K * V)) :
  isCut lower s -> isCut upper s ->
  (forall k, lower k = true -> upper k = true) ->
  (countBelow lower s <= countBelow upper s)%nat
  /\ List.length (List.filter (fun e => negb (lower (fst e)) && upper (fst e)) s)
     = (countBelow upper s - countBelow lower s)%nat.
Proof.
  intros Cl Cu Sub.
  assert (L : (countBelow lower s <= countBelow upper s)%nat) by now apply cut_mono.
  split; [exact L|].
  rewrite <- cut_slice by assumption.
  apply slice_length_le. split; [exact L|apply cut_le].
Qed.

End Cuts.

(** The same on the store of 8-bit keys. *)
Lemma isCut_sorted (below : string -> bool) (s : kvstore) :
  kv_wf s ->
  (forall a b, str_lt a b -> below b = true -> below a = true) ->
  isCut below s.
Proof.
  intros W Mono. induction s as [|[k x] s IH]; [exact I|].
  destruct (kv_wf_cons_inv _ _ _ W) as [Ws Hall].
  cbn [isCut fst]. split; [|now apply IH].
  intros Hk. eapply Forall_impl; [|exact Hall].
  intros e He. destruct (below (fst e)) eqn:E; [|reflexivity].
  rewrite (Mono _ _ He E) in Hk. discriminate.
Qed.

Lemma countBelow_cons (below : string -> bool) (e : KVEntry) (s : kvstore) :
  countBelow below (e :: s) =
  if below (fst e) then S (countBelow below s) else countBelow below s.
Proof. apply cut_cons. Qed.

Lemma countBelow_all_false (below : string -> bool) (s : kvstore) :
  Forall (fun x => below (fst x) = false) s -> countBelow below s = O.
Proof. apply cut_all_false. Qed.

Lemma countBelow_le (below : string -> bool) (s : kvstore) :
  (countBelow below s <= List.length s)%nat.
Proof. apply cut_le. Qed.

Lemma isCut_nth (below : string -> bool) (s : kvstore) (i : nat) :
  isCut below s -> (i < List.length s)%nat ->
  below (nth i (sortedKeys s) EmptyString) = (i <? countBelow below s)%nat.
Proof. apply cut_nth. Qed.

Lemma binarySearch_loop_spec (below : string -> bool) (s : kvstore) :
  isCut below s ->
  forall fuel lo hi,
    (lo <= countBelow below s <= hi)%nat -> (hi <= List.length s)%nat ->
    (hi - lo <= fuel)%nat ->
    binarySearch_loop fuel (sortedKeys s) below lo hi = countBelow below s.
Proof.
  intros C fuel. induction fuel as [|fuel IH]; intros lo hi B Hh Hf.
  - cbn. lia.
  - cbn [binarySearch_loop]. destruct (Nat.ltb_spec lo hi) as [L|L]; [|lia].
    assert (M : (lo <= (lo + hi) / 2 < hi)%nat).
    { split.
      - apply Nat.div_le_lower_bound; lia.
      - apply Nat.Div0.div_lt_upper_bound; lia. }
    set (mid := ((lo + hi) / 2)%nat) in *.
    rewrite (isCut_nth below s) by (assumption || lia).
    destruct (Nat.ltb_spec mid (countBelow below s)); apply IH; lia.
Qed.

Lemma binarySearchBy_spec (below : string -> bool) (s : kvstore) :
  isCut below s -> binarySearchBy (sortedKeys s) below = countBelow below s.
Proof.
  intros C. unfold binarySearchBy.
  replace (List.length (sortedKeys s)) with (List.length s)
    by (unfold sortedKeys; now rewrite length_map).
  apply binarySearch_loop_spec; try assumption; try lia.
  split; [lia|apply countBelow_le].
Qed.

Lemma firstn_countBelow (below : string -> bool) (s : kvstore) :
  isCut below s ->
  firstn (countBelow below s) s = List.filter (fun e => below (fst e)) s.
Proof. apply cut_firstn. Qed.

Lemma slice_cuts (lower upper : string -> bool) (s : kvstore) :
  isCut lower s -> isCut upper s ->
  slice (countBelow lower s) (countBelow upper s) s =
  List.filter (fun e => negb (lower (fst e)) && upper (fst e)) s.
Proof. apply cut_slice. Qed.

Lemma isCut_or (a b : string -> bool) (s : kvstore) :
  isCut a s -> isCut b s -> isCut (fun k => a k || b k) s.
Proof. apply cut_or. Qed.

Lemma isCut_and (a b : string -> bool) (s : kvstore) :
  isCut a s -> isCut b s -> isCut (fun k => a k && b k) s.
Proof. apply cut_and. Qed.

Lemma countBelow_max (a b : string -> bool) (s : kvstore) :
  isCut a s -> isCut b s ->
  Nat.max (countBelow a s) (countBelow b s) = countBelow (fun k => a k || b k) s.
Proof. apply cut_max. Qed.

Lemma countBelow_min (a b : string -> bool) (s : kvstore) :
  isCut a s -> isCut b s ->
  Nat.min (countBelow a s) (countBelow b s) = countBelow (fun k => a k && b k) s.
Proof. apply cut_min. Qed.

Lemma isCut_const (c : bool) (s : kvstore) : isCut (fun _ => c) s.
Proof. apply cut_const. Qed.

Lemma countBelow_true (s : kvstore) : countBelow (fun _ => true) s = List.length s.
Proof. apply cut_true. Qed.

Lemma countBelow_false (s : kvstore) : countBelow (fun _ => false) s = O.
Proof. apply cut_false. Qed.

Lemma str_ltb_cut (key : string) (s : kvstore) :
  kv_wf s -> isCut (fun k => str_ltb k key) s.
Proof.
  intros W. apply isCut_sorted; [exact W|].
  intros a b Hab Hb. apply str_ltb_lt. apply str_ltb_lt in Hb.
  eapply str_compare_lt_trans; eassumption.
Qed.

Lemma ascii_compare_nat (x p : ascii) :
  Ascii.compare x p = Nat.compare (nat_of_ascii x) (nat_of_ascii p).
Proof.
  unfold Ascii.compare, nat_of_ascii. now rewrite N2Nat.inj_compare.
Qed.

Lemma belowPrefixEnd_mono (p a b : string) :
  str_lt a b -> belowPrefixEnd p b = true -> belowPrefixEnd p a = true.
Proof.
  unfold str_lt. revert a b.
  induction p as [|c p IH]; intros a b Hab Hb; [discriminate|].
  destruct a as [|x a]; [now destruct p|].
  destruct b as [|y b]; [discriminate Hab|].
  cbn [String.compare] in Hab. rewrite ascii_compare_nat in Hab.
  destruct p as [|c' p'].
  - cbn [belowPrefixEnd] in *. apply Nat.ltb_lt in Hb. apply Nat.ltb_lt.
    destruct (Nat.compare_spec (nat_of_ascii x) (nat_of_ascii y)); try discriminate; lia.
  - cbn [belowPrefixEnd] in Hb |- *.
    rewrite ascii_compare_nat in Hb. rewrite ascii_compare_nat.
    destruct (Nat.compare_spec (nat_of_ascii x) (nat_of_ascii y)) as [E|L|G];
      try discriminate Hab.
    + rewrite E.
      destruct (Nat.compare_spec (nat_of_ascii y) (nat_of_ascii c)); try discriminate;
        [|reflexivity].
      eapply IH; eassumption.
    + destruct (Nat.compare_spec (nat_of_ascii y) (nat_of_ascii c)) as [E'|L'|G'];
        try discriminate Hb.
      * destruct (Nat.compare_spec (nat_of_ascii x) (nat_of_ascii c));
          first [reflexivity | lia].
      * destruct (Nat.compare_spec (nat_of_ascii x) (nat_of_ascii c));
          first [reflexivity | lia].
Qed.

Lemma belowPrefixEnd_cut (p : string) (s : kvstore) :
  kv_wf s -> isCut (belowPrefixEnd p) s.
Proof.
  intros W. apply isCut_sorted; [exact W|]. apply belowPrefixEnd_mono.
Qed.

Lemma nat_of_ascii_inj (x y : ascii) : nat_of_ascii x = nat_of_ascii y -> x = y.
Proof.
  intros H. rewrite <- (ascii_nat_embedding x), <- (ascii_nat_embedding y). now rewrite H.
Qed.

(** A key starts with the prefix exactly when it lies between the
    prefix and the end of its range. *)
Lemma startsWith_range (p k : string) :
  p <> EmptyString ->
  startsWith p k = negb (str_ltb k p) && belowPrefixEnd p k.
Proof.
  unfold startsWith, str_ltb, String.ltb. revert k.
  induction p as [|c p IH]; intros k NE; [congruence|].
  destruct k as [|x k]; [now destruct p|].
  cbn [String.prefix String.compare]. rewrite ascii_compare_nat.
  destruct p as [|c' p'].
  - cbn [belowPrefixEnd String.prefix].
    destruct (Ascii.ascii_dec c x) as [->|D].
    + rewrite Nat.compare_refl.
      replace (nat_of_ascii x <? nat_of_ascii x + 1)%nat with true
        by (symmetry; apply Nat.ltb_lt; lia).
      destruct k; reflexivity.
    + destruct (Nat.compare_spec (nat_of_ascii x) (nat_of_ascii c)) as [E|L|G].
      * apply nat_of_ascii_inj in E. congruence.
      * reflexivity.
      * cbn [negb andb]. symmetry. apply Nat.ltb_ge. lia.
  - cbn [belowPrefixEnd]. rewrite ascii_compare_nat.
    destruct (Ascii.ascii_dec c x) as [->|D].
    + rewrite Nat.compare_refl. apply IH. discriminate.
    + destruct (Nat.compare_spec (nat_of_ascii x) (nat_of_ascii c)) as [E|L|G];
        try reflexivity.
      apply nat_of_ascii_inj in E. congruence.
Qed.


(** *** Binary search and scans over 16-bit code units *)

Lemma utf16_compare_lt_trans (a b c : Utf16.jsString) :
  Utf16.compare a b = Lt -> Utf16.compare b c = Lt -> Utf16.compare a c = Lt.
Proof.
  revert b c. induction a as [|x a IH]; intros [|y b] [|z c]; cbn [Utf16.compare];
    try discriminate; try reflexivity.
  destruct (N.compare_spec x y) as [->|Lxy|Gxy]; try discriminate.
  - destruct (N.compare_spec y z); try discriminate; [apply IH|reflexivity].
  - intros _. destruct (N.compare_spec y z) as [->|Lyz|Gyz]; try discriminate; intros _.
    + now apply N.compare_lt_iff in Lxy as ->.
    + assert (L : (x < z)%N) by lia. now apply N.compare_lt_iff in L as ->.
Qed.

Lemma utf16_ltb_lt (a b : Utf16.jsString) :
  Utf16.ltb a b = true <-> Utf16.compare a b = Lt.
Proof. unfold Utf16.ltb. destruct (Utf16.compare a b); split; congruence. Qed.

Lemma utf16_ltb_cut (key : Utf16.jsString) (s : Utf16.store) :
  Utf16.wf s -> isCut (fun k => Utf16.ltb k key) s.
Proof.
  intros W. apply (cut_StronglySorted Utf16.lt); [exact W|].
  intros a b Hab Hb. apply utf16_ltb_lt. apply utf16_ltb_lt in Hb.
  eapply utf16_compare_lt_trans; eassumption.
Qed.

Lemma utf16_binarySearch_loop_spec (key : Utf16.jsString) (s : Utf16.store) :
  isCut (fun k => Utf16.ltb k key) s ->
  forall fuel lo hi,
    (lo <= countBelow (fun k => Utf16.ltb k key) s <= hi)%nat ->
    (hi <= List.length s)%nat ->
    (hi - lo <= fuel)%nat ->
    Utf16.binarySearch_loop fuel (map fst s) key lo hi
    = countBelow (fun k => Utf16.ltb k key) s.
Proof.
  intros C fuel. induction fuel as [|fuel IH]; intros lo hi B Hh Hf.
  - cbn. lia.
  - cbn [Utf16.binarySearch_loop]. destruct (Nat.ltb_spec lo hi) as [L|L]; [|lia].
    assert (M : (lo <= (lo + hi) / 2 < hi)%nat).
    { split.
      - apply Nat.div_le_lower_bound; lia.
      - apply Nat.Div0.div_lt_upper_bound; lia. }
    set (mid := ((lo + hi) / 2)%nat) in *.
    assert (Hm : (mid < List.length s)%nat) by lia.
    assert (Hn := cut_nth [] (fun k => Utf16.ltb k key) s mid C Hm).
    match goal with
    | |- context [Utf16.ltb ?t key] =>
        replace (Utf16.ltb t key)
          with (mid <? countBelow (fun k => Utf16.ltb k key) s)%nat
          by (symmetry; exact Hn)
    end.
    destruct (Nat.ltb_spec mid (countBelow (fun k => Utf16.ltb k key) s));
      apply IH; lia.
Qed.

(** On sorted keys [binarySearch(key)] is the number of keys below [key]. *)
Lemma utf16_binarySearch_spec (key : Utf16.jsString) (s : Utf16.store) :
  Utf16.wf s ->
  Utf16.binarySearch s key = countBelow (fun k => Utf16.ltb k key) s.
Proof.
  intros W. unfold Utf16.binarySearch, Utf16.sortedKeys. cbv zeta.
  rewrite length_map.
  apply utf16_binarySearch_loop_spec.
  - now apply utf16_ltb_cut.
  - split; [lia|apply cut_le].
  - apply Nat.le_refl.
  - rewrite Nat.sub_0_r. apply Nat.le_succ_diag_r.
Qed.

Lemma utf16_prefixEnd_cons (c : N) (p : Utf16.jsString) :
  p <> [] -> Utf16.prefixEnd (c :: p) = c :: Utf16.prefixEnd p.
Proof. destruct p as [|c' p]; [congruence|reflexivity]. Qed.

Lemma utf16_wraps_cons (c : N) (p : Utf16.jsString) :
  p <> [] -> Utf16.wraps (c :: p) = Utf16.wraps p.
Proof. destruct p as [|c' p]; [congruence|reflexivity]. Qed.

Lemma utf16_ltb_nil (k : Utf16.jsString) : Utf16.ltb k [] = false.
Proof. now destruct k. Qed.

Lemma utf16_ltb_single (x c : N) (k : Utf16.jsString) :
  Utf16.ltb (x :: k) [c] = (x <? c)%N.
Proof.
  unfold Utf16.ltb, N.ltb. cbn [Utf16.compare].
  destruct (x ?= c)%N; try reflexivity. now destruct k.
Qed.

Lemma utf16_ltb_cons (x c : N) (k p : Utf16.jsString) :
  p <> [] ->
  Utf16.ltb (x :: k) (c :: p)
  = match (x ?= c)%N with Eq => Utf16.ltb k p | Lt => true | Gt => false end.
Proof.
  intros _. unfold Utf16.ltb. cbn [Utf16.compare]. now destruct (x ?= c)%N.
Qed.

(** A key below the end of the range of a prefix that wraps is below the
    prefix. *)
Lemma utf16_wrapped_end_below (p k : Utf16.jsString) :
  p <> [] -> Utf16.wraps p = true ->
  Utf16.ltb k (Utf16.prefixEnd p) = true -> Utf16.ltb k p = true.
Proof.
  revert k. induction p as [|c p IH]; intros k NE Wr; [congruence|].
  destruct k as [|x k]; [reflexivity|].
  destruct p as [|c' p'].
  - unfold Utf16.prefixEnd, Utf16.fromCharCode. cbn [removelast last app].
    rewrite !utf16_ltb_single. unfold Utf16.wraps in Wr. cbn [last] in Wr.
    apply N.leb_le in Wr. intros H. apply N.ltb_lt in H. apply N.ltb_lt.
    assert (B : ((c + 1) mod 65536 < 65536)%N) by (apply N.mod_lt; lia).
    lia.
  - rewrite utf16_prefixEnd_cons by discriminate.
    rewrite utf16_wraps_cons in Wr by discriminate.
    rewrite !utf16_ltb_cons by (discriminate || now destruct p').
    destruct (x ?= c)%N; try easy.
    apply IH; [discriminate|exact Wr].
Qed.

(** A key below a prefix is below the end of the range of the prefix,
    when this end does not wrap. *)
Lemma utf16_below_prefix_below_end (p k : Utf16.jsString) :
  p <> [] -> Utf16.wraps p = false ->
  Utf16.ltb k p = true -> Utf16.ltb k (Utf16.prefixEnd p) = true.
Proof.
  revert k. induction p as [|c p IH]; intros k NE Wr; [congruence|].
  destruct k as [|x k]; [now destruct p|].
  destruct p as [|c' p'].
  - unfold Utf16.prefixEnd, Utf16.fromCharCode. cbn [removelast last app].
    rewrite !utf16_ltb_single. unfold Utf16.wraps in Wr. cbn [last] in Wr.
    apply N.leb_gt in Wr. rewrite N.mod_small by lia.
    intros H. apply N.ltb_lt in H. apply N.ltb_lt. lia.
  - rewrite utf16_prefixEnd_cons by discriminate.
    rewrite utf16_wraps_cons in Wr by discriminate.
    rewrite !utf16_ltb_cons by (discriminate || now destruct p').
    destruct (x ?= c)%N; try easy.
    apply IH; [discriminate|exact Wr].
Qed.

(** A key starts with the prefix exactly when it lies between the prefix
    and the end of its range and this end does not wrap; no key lies
    between a prefix and an end that wraps. *)
Lemma utf16_startsWith_range (p k : Utf16.jsString) :
  p <> [] ->
  negb (Utf16.ltb k p) && Utf16.ltb k (Utf16.prefixEnd p)
  = negb (Utf16.wraps p) && Utf16.startsWith p k.
Proof.
  intros NE. destruct (Utf16.wraps p) eqn:Wr; cbn [negb andb].
  - destruct (Utf16.ltb k (Utf16.prefixEnd p)) eqn:E.
    + now rewrite (utf16_wrapped_end_below p k NE Wr E).
    + apply andb_false_r.
  - revert k NE Wr. induction p as [|c p IH]; intros k NE Wr; [congruence|].
    destruct k as [|x k]; [now destruct p|].
    destruct p as [|c' p'].
    + unfold Utf16.prefixEnd, Utf16.fromCharCode. cbn [removelast last app].
      rewrite !utf16_ltb_single. unfold Utf16.wraps in Wr. cbn [last] in Wr.
      apply N.leb_gt in Wr. rewrite N.mod_small by lia.
      cbn [Utf16.startsWith]. rewrite andb_true_r.
      destruct (N.eqb_spec c x) as [->|D].
      * rewrite N.ltb_irrefl. cbn [negb andb]. apply N.ltb_lt. lia.
      * destruct (N.ltb_spec x c) as [L|G]; [reflexivity|].
        cbn [negb andb]. apply N.ltb_ge. lia.
    + rewrite utf16_prefixEnd_cons by discriminate.
      rewrite utf16_wraps_cons in Wr by discriminate.
      rewrite !utf16_ltb_cons by (discriminate || now destruct p').
      cbn [Utf16.startsWith].
      destruct (N.compare_spec x c) as [->|L|G].
      * rewrite N.eqb_refl. cbn [andb]. apply IH; [discriminate|exact Wr].
      * replace (c =? x)%N with false by (symmetry; apply N.eqb_neq; lia).
        reflexivity.
      * replace (c =? x)%N with false by (symmetry; apply N.eqb_neq; lia).
        reflexivity.
Qed.

Lemma utf16_truthy_nonempty (o : option Utf16.jsString) (p : Utf16.jsString) :
  Utf16.truthy o = Some p -> p <> [].
Proof. intros H ->. destruct o as [[|]|]; discriminate. Qed.

(** The entries a scan returns, when the keys are sorted. *)
Lemma utf16_scan_spec (options : Utf16.ScanOptions) (s : Utf16.store) :
  Utf16.wf s ->
  Utf16.scan options s =
  let range := List.filter (fun e => Utf16.inScanRange options (fst e)) s in
  let ordered := if Utf16.scan_reverse options then rev range else range in
  match Utf16.scan_limit options with
  | Some limit => firstn limit ordered
  | None => ordered
  end.
Proof.
  intros W. unfold Utf16.scan, Utf16.sortedKeys. rewrite length_map.
  assert (C0 := @cut_const Utf16.jsString buffer false s).
  assert (C1 := @cut_const Utf16.jsString buffer true s).
  assert (P0 := @cut_false Utf16.jsString buffer s).
  assert (P1 := @cut_true Utf16.jsString buffer s).
  assert (F : forall lower upper : Utf16.jsString -> bool,
             isCut lower s -> isCut upper s ->
             (forall k, negb (lower k) && upper k = Utf16.inScanRange options k) ->
             slice (countBelow lower s) (countBelow upper s) s
             = List.filter (fun e => Utf16.inScanRange options (fst e)) s).
  { intros lower upper Cl Cu Hf.
    transitivity (List.filter (fun e => negb (lower (fst e)) && upper (fst e)) s);
      [now apply cut_slice|].
    apply filter_ext. intros e. apply Hf. }
  cbv zeta.
  destruct (Utf16.truthy (Utf16.scan_prefix options)) as [p|] eqn:Ep;
    [assert (Np := utf16_truthy_nonempty _ _ Ep)|];
    destruct (Utf16.truthy (Utf16.scan_startKey options)) as [a|] eqn:Ea;
    destruct (Utf16.truthy (Utf16.scan_endKey options)) as [b|] eqn:Eb;
    cbv beta iota zeta;
    rewrite ?utf16_binarySearch_spec by exact W;
    rewrite <- ?P0, <- ?P1;
    rewrite ?cut_max, ?cut_min
      by (first [apply utf16_ltb_cut; exact W | exact C0 | exact C1]).
  all: match goal with
       | |- context [slice (countBelow ?lo _) (countBelow ?up _) _] =>
           rewrite (F lo up)
       end;
    [ reflexivity | .. ];
    repeat first [apply cut_or | apply cut_and | apply utf16_ltb_cut; exact W
                 | exact C0 | exact C1].
  all: intros k; unfold Utf16.inScanRange; rewrite Ep, Ea, Eb;
    try match goal with
        | Np : ?p <> [] |- _ => rewrite <- (utf16_startsWith_range p k Np)
        end;
    repeat match goal with
           | |- context [Utf16.ltb k ?x] => destruct (Utf16.ltb k x)
           end; reflexivity.
Qed.

(** The number [count] returns, when the keys are sorted. *)
Lemma utf16_count_spec (prefix : option Utf16.jsString) (s : Utf16.store) :
  Utf16.wf s ->
  Utf16.count prefix s =
  match Utf16.truthy prefix with
  | None => Z.of_nat (List.length s)
  | Some p =>
      if Utf16.wraps p
      then - Z.of_nat (List.length
                         (List.filter (fun e => Utf16.belowWrappedPrefix p (fst e)) s))
      else Z.of_nat (List.length
                       (List.filter (fun e => Utf16.startsWith p (fst e)) s))
  end.
Proof.
  intros W. unfold Utf16.count.
  destruct (Utf16.truthy prefix) as [p|] eqn:Ep; [|reflexivity].
  assert (Np := utf16_truthy_nonempty _ _ Ep).
  rewrite !utf16_binarySearch_spec by exact W.
  set (lo := fun k => Utf16.ltb k p).
  set (up := fun k => Utf16.ltb k (Utf16.prefixEnd p)).
  assert (Clo : isCut lo s) by (apply utf16_ltb_cut; exact W).
  assert (Cup : isCut up s) by (apply utf16_ltb_cut; exact W).
  destruct (Utf16.wraps p) eqn:Wr.
  - destruct (cut_between up lo s Cup Clo) as [L E].
    { intros k. now apply utf16_wrapped_end_below. }
    unfold Utf16.belowWrappedPrefix.
    replace (List.length
               (List.filter
                  (fun e : Utf16.jsString * buffer =>
                     negb (Utf16.ltb (fst e) (Utf16.prefixEnd p)) && Utf16.ltb (fst e) p) s))
      with (countBelow lo s - countBelow up s)%nat by (symmetry; exact E).
    lia.
  - destruct (cut_between lo up s Clo Cup) as [L E].
    { intros k. now apply utf16_below_prefix_below_end. }
    replace (List.length
               (List.filter (fun e : Utf16.jsString * buffer => Utf16.startsWith p (fst e)) s))
      with (countBelow up s - countBelow lo s)%nat.
    + lia.
    + rewrite <- E. f_equal. apply filter_ext. intros e. unfold lo, up.
      rewrite (utf16_startsWith_range p (fst e) Np), Wr. reflexivity.
Qed.

(** *** The store of 8-bit keys and the store of 16-bit keys *)

Lemma compare_codeUnits (a b : string) :
  Utf16.compare (codeUnits a) (codeUnits b) = String.compare a b.
Proof.
  unfold codeUnits. revert b.
  induction a as [|x a IH]; intros [|y b]; cbn; try reflexivity.
  unfold Ascii.compare. destruct (N_of_ascii x ?= N_of_ascii y)%N; [apply IH|..]; reflexivity.
Qed.

Lemma ltb_codeUnits (a b : string) :
  Utf16.ltb (codeUnits a) (codeUnits b) = str_ltb a b.
Proof. unfold Utf16.ltb, str_ltb, String.ltb. now rewrite compare_codeUnits. Qed.

Lemma N_of_ascii_inj (x y : ascii) : N_of_ascii x = N_of_ascii y -> x = y.
Proof.
  intros H. rewrite <- (ascii_N_embedding x), <- (ascii_N_embedding y). now rewrite H.
Qed.

Lemma startsWith_codeUnits (p k : string) :
  Utf16.startsWith (codeUnits p) (codeUnits k) = startsWith p k.
Proof.
  unfold codeUnits, startsWith. revert k.
  induction p as [|c p IH]; intros [|x k]; cbn; try reflexivity.
  rewrite IH. destruct (Ascii.ascii_dec c x) as [->|D].
  - now rewrite N.eqb_refl.
  - replace (N_of_ascii c =? N_of_ascii x)%N with false; [reflexivity|].
    symmetry. apply N.eqb_neq. intros E. now apply N_of_ascii_inj in E.
Qed.

Lemma wraps_codeUnits (p : string) : Utf16.wraps (codeUnits p) = false.
Proof.
  unfold Utf16.wraps. apply N.leb_gt.
  assert (H : forall l d, (d < 256)%N -> (last (map N_of_ascii l) d < 256)%N).
  { induction l as [|c l IH]; intros d Hd; [exact Hd|].
    destruct l as [|c' l']; [apply N_ascii_bounded|]. apply (IH d Hd). }
  specialize (H (list_ascii_of_string p) 0%N). unfold codeUnits. lia.
Qed.

Lemma codeUnits_nil (p : string) : codeUnits p = [] <-> p = EmptyString.
Proof. destruct p; cbn; split; congruence. Qed.

Lemma truthy_codeUnits (o : option string) :
  Utf16.truthy (option_map codeUnits o) = option_map codeUnits (truthyString o).
Proof. now destruct o as [[|]|]. Qed.

Lemma inScanRange_codeUnits (options : ScanOptions) (k : string) :
  Utf16.inScanRange (utf16Options options) (codeUnits k) = inScanRange options k.
Proof.
  unfold Utf16.inScanRange, inScanRange, utf16Options.
  cbn [Utf16.scan_prefix Utf16.scan_startKey Utf16.scan_endKey].
  rewrite !truthy_codeUnits.
  destruct (truthyString (scan_prefix options)) as [p|];
    destruct (truthyString (scan_startKey options)) as [a|];
    destruct (truthyString (scan_endKey options)) as [b|]; cbn [option_map];
    rewrite ?wraps_codeUnits, ?startsWith_codeUnits, ?ltb_codeUnits; reflexivity.
Qed.

Lemma utf16Store_wf (s : kvstore) : kv_wf s -> Utf16.wf (utf16Store s).
Proof.
  unfold kv_wf, Utf16.wf, sortedKeys, Utf16.sortedKeys, utf16Store.
  induction s as [|e s IH]; intros W; cbn [map]; [constructor|].
  cbn [map] in W. inversion W as [|? ? Ws Hall]; subst.
  constructor; [now apply IH|].
  apply Forall_forall. intros x Hx. rewrite map_map in Hx. apply in_map_iff in Hx.
  destruct Hx as (y & <- & Hy). rewrite Forall_forall in Hall.
  unfold Utf16.lt. cbn [utf16Entry fst]. rewrite compare_codeUnits.
  apply Hall. now apply in_map.
Qed.

Lemma filter_utf16Store (options : ScanOptions) (s : kvstore) :
  List.filter (fun e => Utf16.inScanRange (utf16Options options) (fst e)) (utf16Store s)
  = utf16Store (List.filter (fun e => inScanRange options (fst e)) s).
Proof.
  unfold utf16Store. induction s as [|e s IH]; [reflexivity|].
  cbn [map List.filter utf16Entry fst]. rewrite inScanRange_codeUnits, IH.
  now destruct (inScanRange options (fst e)).
Qed.

(** ** Reasoning about computations *)

Lemma bind_Ok_inv {A C} (m : M A) (k : A -> M C) (w w' : world) (c : C) :
  bind m k w = (Ok c, w') ->
  exists a w1, m w = (Ok a, w1) /\ k a w1 = (Ok c, w').
Proof.
  unfold bind. destruct (m w) as [[a|e] w1]; [|discriminate].
  intros H. now exists a, w1.
Qed.

Lemma bind_Ok {A C} (m : M A) (k : A -> M C) (w w1 : world) (a : A) :
  m w = (Ok a, w1) -> bind m k w = k a w1.
Proof. unfold bind. now intros ->. Qed.

Lemma bind_Err {A C} (m : M A) (k : A -> M C) (w w1 : world) (e : exn) :
  m w = (Err e, w1) -> bind m k w = (Err e, w1).
Proof. unfold bind. now intros ->. Qed.

Lemma lift_Ok_inv {A} (r : result A) (w w' : world) (a : A) :
  lift r w = (Ok a, w') -> r = Ok a /\ w' = w.
Proof. unfold lift. intros H. injection H as -> ->. now split. Qed.

(** *** Computations that keep a property of the store *)

Section Preserves.
Variable I : kvstore -> Prop.

Lemma preserves_ret {A} (a : A) : preserves I (ret a).
Proof. intros w r w' H E. injection E as _ <-. exact H. Qed.

Lemma preserves_throw {A} (e : exn) : preserves I (@throw A e).
Proof. intros w r w' H E. injection E as _ <-. exact H. Qed.

Lemma preserves_lift {A} (x : result A) : preserves I (lift x).
Proof. intros w r w' H E. injection E as _ <-. exact H. Qed.

Lemma preserves_bind {A C} (m : M A) (k : A -> M C) :
  preserves I m -> (forall a, preserves I (k a)) -> preserves I (bind m k).
Proof.
  intros Hm Hk w r w' H E. unfold bind in E.
  destruct (m w) as [[a|e] w1] eqn:Em.
  - eapply Hk; [|exact E]. eapply Hm; eassumption.
  - injection E as _ <-. eapply Hm; eassumption.
Qed.

Lemma preserves_tryCatch {A} (m : M A) (h : exn -> M A) :
  preserves I m -> (forall e, preserves I (h e)) -> preserves I (tryCatch m h).
Proof.
  intros Hm Hh w r w' H E. unfold tryCatch in E.
  destruct (m w) as [[a|e] w1] eqn:Em.
  - injection E as _ <-. eapply Hm; eassumption.
  - eapply Hh; [|exact E]. eapply Hm; eassumption.
Qed.

Lemma preserves_kvGet (key : string) : preserves I (kvGet key).
Proof. intros w r w' H E. injection E as _ <-. exact H. Qed.

Lemma preserves_kvScan (options : ScanOptions) : preserves I (kvScan options).
Proof. intros w r w' H E. injection E as _ <-. exact H. Qed.

Lemma preserves_withWorld {A} (f : world -> M A) :
  (forall w0, preserves I (f w0)) -> preserves I (fun w => f w w).
Proof. intros Hf w r w' H E. eapply Hf; eassumption. Qed.

Hypothesis I_put : forall key v s, I s -> I (kv_put key v s).
Hypothesis I_delete : forall key s, I s -> I (kv_delete key s).

Lemma preserves_kvPut (key : string) (v : buffer) : preserves I (kvPut key v).
Proof. intros w r w' H E. injection E as _ <-. cbn. now apply I_put. Qed.

Lemma preserves_kvDelete (key : string) : preserves I (kvDelete key).
Proof. intros w r w' H E. injection E as _ <-. cbn. now apply I_delete. Qed.

Lemma preserves_putAll (puts : list KVEntry) : preserves I (putAll puts).
Proof.
  induction puts as [|[key v] puts IH]; cbn [putAll].
  - apply preserves_ret.
  - apply preserves_bind; [apply preserves_kvPut|intros _; exact IH].
Qed.

Lemma preserves_deleteAll (keys : list string) : preserves I (deleteAll keys).
Proof.
  induction keys as [|key keys IH]; cbn [deleteAll].
  - apply preserves_ret.
  - apply preserves_bind; [apply preserves_kvDelete|intros _; exact IH].
Qed.

End Preserves.

(** *** Computations that do not write *)

Lemma readOnly_preserves {A} (m : M A) (I : kvstore -> Prop) :
  readOnly m -> preserves I m.
Proof. intros R w r w' H E. now rewrite (R _ _ _ E). Qed.

Lemma readOnly_ret {A} (a : A) : readOnly (ret a).
Proof. intros w r w' E. now injection E as _ <-. Qed.

Lemma readOnly_throw {A} (e : exn) : readOnly (@throw A e).
Proof. intros w r w' E. now injection E as _ <-. Qed.

Lemma readOnly_lift {A} (x : result A) : readOnly (lift x).
Proof. intros w r w' E. now injection E as _ <-. Qed.

Lemma readOnly_kvGet (key : string) : readOnly (kvGet key).
Proof. intros w r w' E. now injection E as _ <-. Qed.

Lemma readOnly_kvScan (options : ScanOptions) : readOnly (kvScan options).
Proof. intros w r w' E. now injection E as _ <-. Qed.

Lemma readOnly_bind {A C} (m : M A) (k : A -> M C) :
  readOnly m -> (forall a, readOnly (k a)) -> readOnly (bind m k).
Proof.
  intros Hm Hk w r w' E. unfold bind in E.
  destruct (m w) as [[a|e] w1] eqn:Em.
  - rewrite (Hk _ _ _ _ E). eapply Hm; eassumption.
  - injection E as _ <-. eapply Hm; eassumption.
Qed.

Lemma readOnly_withWorld {A} (f : world -> M A) :
  (forall w0, readOnly (f w0)) -> readOnly (fun w => f w w).
Proof. intros Hf w r w' E. eapply Hf; eassumption. Qed.

Section ReadOnlyEngine.
Context {B : JsBuiltins}.

Lemma readOnly_DateNow : readOnly DateNow.
Proof. intros w r w' E. now injection E as _ <-. Qed.

Lemma readOnly_uuidv4 : readOnly uuidv4.
Proof. intros w r w' E. now injection E as _ <-. Qed.

Lemma readOnly_generateId : readOnly generateId.
Proof.
  unfold generateId. apply readOnly_bind; [apply readOnly_DateNow|intros now].
  apply readOnly_bind; [apply readOnly_uuidv4|intros u]. apply readOnly_ret.
Qed.

Lemma readOnly_checkUnique (collectionName : string) (index : IndexDefinition)
      (v : propertyValue) (currentDocId : string) (excludeSelf : bool) :
  readOnly (checkUnique collectionName index v currentDocId excludeSelf).
Proof.
  unfold checkUnique. apply readOnly_bind; [apply readOnly_lift|intros encoded].
  apply readOnly_bind; [apply readOnly_kvScan|intros existing]. apply readOnly_lift.
Qed.

Lemma readOnly_onInsert_plan (collectionName : string) (indexes : list IndexDefinition)
      (doc : document) (docId : string) :
  readOnly (onInsert_plan collectionName indexes doc docId).
Proof.
  induction indexes as [|index rest IH]; cbn [onInsert_plan]; [apply readOnly_ret|].
  destruct (isNullish _); [exact IH|].
  apply readOnly_bind.
  - destruct (idx_unique index); [apply readOnly_checkUnique|apply readOnly_ret].
  - intros _. apply readOnly_bind; [apply readOnly_lift|intros key].
    apply readOnly_bind; [exact IH|intros puts]. apply readOnly_ret.
Qed.


End ReadOnlyEngine.

(** Taking the lock of a collection changes nothing; it succeeds unless
    [Object.prototype] has a property of the collection's name. *)
Lemma lockCollection_run (collection : string) (w : world) :
  inObjectPrototype collection = false -> lockCollection collection w = (Ok tt, w).
Proof. intros H. unfold lockCollection. now rewrite H. Qed.

Lemma lockCollection_Ok_inv (collection : string) (w w' : world) (u : unit) :
  lockCollection collection w = (Ok u, w') ->
  inObjectPrototype collection = false /\ w' = w.
Proof.
  unfold lockCollection. destruct (inObjectPrototype collection); [discriminate|].
  intros H. injection H as _ <-. now split.
Qed.

Lemma lockCollection_world (collection : string) (w w' : world) (r : result unit) :
  lockCollection collection w = (r, w') -> w' = w.
Proof.
  unfold lockCollection. destruct (inObjectPrototype collection);
    intros H; now injection H.
Qed.

(** ** Unique indexes *)

Lemma prefix_app (p x : string) : String.prefix p (p ++ x) = true.
Proof.
  induction p as [|c p IH]; cbn [String.append String.prefix].
  - now destruct x.
  - destruct (Ascii.ascii_dec c c); [exact IH|congruence].
Qed.


Lemma getField_setField_other (key key' : string) (v : value) (fields : document) :
  key <> key' -> getField key' (setField key v fields) = getField key' fields.
Proof.
  intros NE. induction fields as [|[k x] rest IH]; cbn [setField getField].
  - apply String.eqb_neq in NE. now rewrite NE.
  - destruct (String.eqb k key) eqn:E; cbn [getField].
    + apply String.eqb_eq in E. subst k.
      apply String.eqb_neq in NE. now rewrite NE.
    + now rewrite IH.
Qed.

Lemma chunksOf_single {A} (d : A) : chunksOf BATCH_LIMIT [d] = [[d]].
Proof. reflexivity. Qed.

Section UniqueIndex.
Context {B : JsBuiltins}.

(** The rows [putAll] writes are in the store afterwards. *)
Lemma putAll_run (puts : list KVEntry) (w : world) :
  putAll puts w =
  (Ok tt, withKv w (fold_left (fun s e => kv_put (fst e) (snd e) s) puts (kv w))).
Proof.
  revert w. induction puts as [|[key v] puts IH]; intros w.
  - destruct w; reflexivity.
  - cbn [putAll fold_left]. unfold bind, kvPut. rewrite IH. reflexivity.
Qed.


Lemma fold_put_wf (puts : list KVEntry) (s : kvstore) :
  kv_wf s -> kv_wf (fold_left (fun s e => kv_put (fst e) (snd e) s) puts s).
Proof.
  revert s. induction puts as [|[k v] puts IH]; intros s W; cbn [fold_left];
    [exact W|]. apply IH. now apply kv_put_wf.
Qed.




Lemma checkUnique_world (collectionName : string) (index : IndexDefinition)
      (value : propertyValue) (docId : string) (isUpdate : bool) (w w1 : world)
      (r : result unit) :
  checkUnique collectionName index value docId isUpdate w = (r, w1) -> w1 = w.
Proof.
  unfold checkUnique, bind, lift, kvScan. intros Ec.
  destruct (encodeValue value); [|now injection Ec].
  cbv beta iota in Ec.
  destruct (checkUnique_loop _ _ _); now injection Ec.
Qed.


(** The first phase of [onInsert] writes nothing and draws nothing. *)
Lemma onInsert_plan_world (collectionName : string) (indexes : list IndexDefinition)
      (doc : document) (docId : string) (w w' : world) (r : result (list KVEntry)) :
  onInsert_plan collectionName indexes doc docId w = (r, w') -> w' = w.
Proof.
  revert w' r.
  induction indexes as [|ix rest IH]; intros w' r Run; cbn [onInsert_plan] in Run.
  - now injection Run.
  - destruct (isNullish (readProperty doc (idx_field ix))); [now apply IH in Run|].
    unfold bind at 1 in Run.
    match type of Run with (match ?c w with _ => _ end) = _ =>
      destruct (c w) as [[u|e] w1] eqn:Ec end.
    + assert (w1 = w) as ->.
      { destruct (idx_unique ix); [now apply checkUnique_world in Ec|now injection Ec]. }
      unfold bind at 1, lift at 1 in Run.
      destruct (encodeIdxKey _ _ _ _); [|now injection Run].
      unfold bind in Run.
      destruct (onInsert_plan collectionName rest doc docId w) as [[puts|e] w2] eqn:Er.
      * specialize (IH _ _ eq_refl). subst w2. now injection Run.
      * specialize (IH _ _ eq_refl). subst w2. now injection Run.
    + injection Run as <- <-.
      destruct (idx_unique ix); [now apply checkUnique_world in Ec|discriminate Ec].
Qed.



End UniqueIndex.




(** The value at the field is read through the prototype: with a unique
    index on [toString] every document without such a field has the
    inherited function as its value, which is encoded as [3:undefined],
    and a second document is rejected. *)
Example unique_index_on_inherited_property :
  let w0 := snd (createIndex "c" "toString" true emptyWorld) in
  let run1 := insert defaultMaxDocumentSize "c" [[("_id", VStr "1")]] w0 in
  let run2 := insert defaultMaxDocumentSize "c" [[("_id", VStr "2")]] (snd run1) in
  isOk (fst run1) = true
  /\ kv_has (idxPrefix "c" "toString" ++ "3:undefined" ++ IDX_ID_SEP ++ "1")
            (kv (snd run1)) = true
  /\ fst run2 = Err (DocumentStoreError 11000 None)
  /\ kv (snd run2) = kv (snd run1).
Proof. vm_compute. repeat split. Qed.

(** ** Index rows and stored documents *)

(** [Number.MAX_VALUE] is a double, and twice it is [Infinity]. *)
Lemma maxValue_overflow :
  isDouble maxValue = true /\ isFiniteNumber maxValue = true
  /\ num_add maxValue maxValue = S754_infinity false.
Proof. repeat split. Qed.

(** A number that is not finite is a value for the index hooks, which
    encode it, and is [null] in the stored text. *)
Lemma nonfinite_number_indexed_and_stored_null {B : JsBuiltins} (n : number) :
  isFiniteNumber n = false ->
  isNullish (Json (VNum n)) = false
  /\ isOk (encodeValue (Json (VNum n))) = true
  /\ jsonRoundTrip (VNum n) = VNull.
Proof. destruct n; try discriminate; repeat split. Qed.

(** C2 fails on the code.  In a collection with an index on [n] and the
    one document [{_id: "1", n: Number.MAX_VALUE}], every document has
    its index rows.  [updateOne({_id: "1"}, {$inc: {n: Number.MAX_VALUE}})]
    succeeds; the sum is [Infinity], which [onUpdate] encodes into an
    index row, and which [JSON.stringify] writes as [null] into the
    document row.  The stored document then has [null] at [n] and still
    has an index row on [n]. *)
Theorem updateOne_inc_overflow_leaves_index_row :
  let run := updateOne defaultMaxDocumentSize "c" [("_id", VStr "1")]
                       (incOnly [("n", maxValue)]) false maxValueWorld in
  indexedAsStored "c" (kv maxValueWorld) = true
  /\ fst run = Ok {| upd_acknowledged := true; matchedCount := 1;
                     modifiedCount := 1; upsertedId := None |}
  /\ documentsOf "c" (kv (snd run)) = [[("_id", VStr "1"); ("n", VNull)]]
  /\ indexRowsFor "c" "n" "1" (kv (snd run))
     = [idxPrefix "c" "n" ++ "2:Z" ++ IDX_ID_SEP ++ "1"]
  /\ indexedAsStored "c" (kv (snd run)) = false.
Proof. vm_compute. repeat split. Qed.

(** [insert] does the same with a document that holds [Infinity]: the
    index row is written for [Infinity], the document row holds [null]. *)
Example insert_infinity_leaves_index_row :
  let run := insert defaultMaxDocumentSize "c"
                    [[("_id", VStr "1"); ("n", VNum (S754_infinity false))]]
                    (snd (createIndex "c" "n" false emptyWorld)) in
  isOk (fst run) = true
  /\ documentsOf "c" (kv (snd run)) = [[("_id", VStr "1"); ("n", VNull)]]
  /\ indexRowsFor "c" "n" "1" (kv (snd run))
     = [idxPrefix "c" "n" ++ "2:Z" ++ IDX_ID_SEP ++ "1"]
  /\ indexedAsStored "c" (kv (snd run)) = false.
Proof. vm_compute. repeat split. Qed.

Section IdentifierUpdates.
Context {B : JsBuiltins}.

(** [updateOne] lets [$set] change [_id].  The document row stays under
    the old identifier; the next update of the document writes a second
    document row under the new identifier, and no [_id] index row has
    that identifier. *)
Example updateOne_set_id_leaves_document_without_index_row :
  let run1 := updateOne defaultMaxDocumentSize "c" [("_id", VStr "1")]
                        (setOnly [("_id", VStr "2")]) false
                        (snd (insert defaultMaxDocumentSize "c" [[("_id", VStr "1")]]
                                     emptyWorld)) in
  let run2 := updateOne defaultMaxDocumentSize "c" [("_id", VStr "2")]
                        (setOnly [("a", VStr "x")]) false (snd run1) in
  isOk (fst run1) = true
  /\ isOk (fst run2) = true
  /\ documentsOf "c" (kv (snd run2))
     = [[("_id", VStr "2")]; [("_id", VStr "2"); ("a", VStr "x")]]
  /\ indexRowsFor "c" "_id" "2" (kv (snd run2)) = []
  /\ indexedAsStored "c" (kv (snd run2)) = false.
Proof. repeat split. Qed.

End IdentifierUpdates.

(** * Further properties of the code *)

(** ** kv-adapter.ts: [InMemoryKVStore] *)

(** X1. The store is a map: after [put(key, v)] a [get] of [key] gives
    [v], after [delete(key)] it gives nothing, and in both cases a [get]
    of any other key gives what it gave before. *)
Theorem kv_get_after_put_and_delete (key key' : string) (v : buffer) (s : kvstore) :
  kv_get key' (kv_put key v s) = (if String.eqb key key' then Some v else kv_get key' s)
  /\ kv_get key' (kv_delete key s) = (if String.eqb key key' then None else kv_get key' s).
Proof.
  destruct (String.eqb_spec key key') as [<-|NE]; split.
  - apply kv_get_put_same.
  - apply kv_get_delete_same.
  - now apply kv_get_put_other.
  - now apply kv_get_delete_other.
Qed.

Lemma kv_has_In_keys (key : string) (s : kvstore) :
  kv_has key s = true <-> In key (sortedKeys s).
Proof.
  unfold kv_has, sortedKeys. induction s as [|[k x] s IH]; cbn [kv_get map fst In].
  - split; [discriminate|tauto].
  - destruct (String.eqb_spec k key) as [->|NE]; [tauto|].
    rewrite IH. split; [tauto|]. intros [H|H]; [congruence|exact H].
Qed.

Lemma kv_has_above (key : string) (s : kvstore) :
  Forall (fun e => str_lt key (fst e)) s -> kv_has key s = false.
Proof.
  intros Hall. destruct (kv_has key s) eqn:E; [|reflexivity].
  apply kv_has_In_keys in E. unfold sortedKeys in E. apply in_map_iff in E.
  destruct E as (e & He & Hin). rewrite Forall_forall in Hall.
  specialize (Hall _ Hin). rewrite He in Hall. now apply str_lt_irrefl in Hall.
Qed.

Lemma kv_put_length (key : string) (v : buffer) (s : kvstore) :
  kv_wf s ->
  List.length (kv_put key v s) = if kv_has key s then List.length s else S (List.length s).
Proof.
  induction s as [|[k x] s IH]; intros W; [reflexivity|].
  destruct (kv_wf_cons_inv _ _ _ W) as [Ws Hall].
  cbn [kv_put]. unfold kv_has. cbn [kv_get].
  rewrite (str_eqb_compare k key), (String.compare_antisym k key).
  destruct (String.compare key k) eqn:C; cbn [CompOpp].
  - reflexivity.
  - assert (H : kv_has key s = false).
    { apply kv_has_above. eapply Forall_impl; [|exact Hall].
      intros e He. eapply str_lt_trans; [exact C|exact He]. }
    unfold kv_has in H. destruct (kv_get key s); [discriminate|reflexivity].
  - cbn [List.length]. rewrite (IH Ws). unfold kv_has.
    now destruct (kv_get key s).
Qed.

Lemma kv_delete_absent (key : string) (s : kvstore) :
  kv_has key s = false -> kv_delete key s = s.
Proof.
  unfold kv_has. induction s as [|[k x] s IH]; cbn [kv_get kv_delete]; [reflexivity|].
  destruct (String.eqb k key); [discriminate|]. intros H. now rewrite IH.
Qed.

Lemma kv_delete_length (key : string) (s : kvstore) :
  kv_wf s ->
  List.length (kv_delete key s)
  = if kv_has key s then Nat.pred (List.length s) else List.length s.
Proof.
  induction s as [|[k x] s IH]; intros W; [reflexivity|].
  destruct (kv_wf_cons_inv _ _ _ W) as [Ws Hall].
  cbn [kv_delete]. unfold kv_has. cbn [kv_get].
  destruct (String.eqb_spec k key) as [->|NE].
  - rewrite kv_delete_absent by now apply kv_has_above. reflexivity.
  - cbn [List.length]. rewrite (IH Ws). unfold kv_has.
    destruct (kv_get key s) eqn:G; [|reflexivity].
    destruct s; [discriminate G|reflexivity].
Qed.

(** X2. [put] and [delete] keep the keys strictly increasing.  [put] of
    a key that is not in the store raises [getKeyCount] by one and [put]
    of a key that is in it leaves the count; [delete] of a key that is in
    the store lowers the count by one and [delete] of another key leaves
    it. *)
Theorem kv_put_delete_key_count (key : string) (v : buffer) (s : kvstore) :
  kv_wf s ->
  kv_wf (kv_put key v s) /\ kv_wf (kv_delete key s)
  /\ kv_getKeyCount (kv_put key v s)
     = (if kv_has key s then kv_getKeyCount s else S (kv_getKeyCount s))
  /\ kv_getKeyCount (kv_delete key s)
     = (if kv_has key s then Nat.pred (kv_getKeyCount s) else kv_getKeyCount s).
Proof.
  intros W. unfold kv_getKeyCount. repeat split.
  - now apply kv_put_wf.
  - now apply kv_delete_wf.
  - now apply kv_put_length.
  - now apply kv_delete_length.
Qed.

Lemma abcStore_wf : kv_wf abcStore.
Proof. vm_compute. repeat constructor. Qed.

Lemma kv_put_delete_key_count_witness :
  kv_wf (kv_put "d" BufOne abcStore) /\ kv_wf (kv_delete "d" abcStore)
  /\ kv_getKeyCount (kv_put "d" BufOne abcStore)
     = (if kv_has "d" abcStore then kv_getKeyCount abcStore
        else S (kv_getKeyCount abcStore))
  /\ kv_getKeyCount (kv_delete "d" abcStore)
     = (if kv_has "d" abcStore then Nat.pred (kv_getKeyCount abcStore)
        else kv_getKeyCount abcStore).
Proof.
  apply (kv_put_delete_key_count "d" BufOne abcStore).
  vm_compute. repeat constructor.
Defined.

(** X3. On sorted keys [binarySearch(key)] is the lower bound of [key]:
    it is at most the number of keys, every key at a smaller index is
    below [key], and no key from that index on is below [key]. *)
Theorem binarySearch_lower_bound (s : kvstore) (key : string) :
  kv_wf s ->
  (binarySearch s key <= List.length s)%nat
  /\ forall i, (i < List.length s)%nat ->
               str_ltb (nth i (sortedKeys s) EmptyString) key
               = (i <? binarySearch s key)%nat.
Proof.
  intros W. unfold binarySearch.
  rewrite (binarySearchBy_spec (fun k => str_ltb k key) s) by now apply str_ltb_cut.
  split; [apply countBelow_le|].
  intros i Hi.
  exact (isCut_nth (fun k => str_ltb k key) s i (str_ltb_cut key s W) Hi).
Qed.

Lemma binarySearch_lower_bound_witness :
  (binarySearch abcStore "b" <= List.length abcStore)%nat
  /\ forall i, (i < List.length abcStore)%nat ->
               str_ltb (nth i (sortedKeys abcStore) EmptyString) "b"
               = (i <? binarySearch abcStore "b")%nat.
Proof.
  apply (binarySearch_lower_bound abcStore "b").
  vm_compute. repeat constructor.
Defined.

(** The entries between two cuts, for both directions of a scan. *)
Lemma kv_scan_both_directions (options : ScanOptions) (s : kvstore) :
  kv_wf s ->
  kv_scan options s =
  applyLimit (scan_limit options)
    (let range := List.filter (fun e => inScanRange options (fst e)) s in
     if scan_reverse options then rev range else range).
Proof.
  intros W. unfold kv_scan, binarySearch.
  replace (List.length (sortedKeys s)) with (List.length s)
    by (unfold sortedKeys; now rewrite length_map).
  assert (C0 := isCut_const false s). assert (C1 := isCut_const true s).
  assert (P0 := countBelow_false s). assert (P1 := countBelow_true s).
  assert (F : forall lower upper,
             isCut lower s -> isCut upper s ->
             (forall k, negb (lower k) && upper k = inScanRange options k) ->
             slice (countBelow lower s) (countBelow upper s) s
             = List.filter (fun e => inScanRange options (fst e)) s).
  { intros lower upper Cl Cu Hf. rewrite slice_cuts by assumption.
    apply filter_ext. intros e. apply Hf. }
  cbv zeta.
  destruct (truthyString (scan_prefix options)) as [p|] eqn:Ep;
    [assert (Np : p <> EmptyString)
       by (intros ->; destruct (scan_prefix options) as [[|]|]; discriminate)|];
    destruct (truthyString (scan_startKey options)) as [a|] eqn:Ea;
    destruct (truthyString (scan_endKey options)) as [b|] eqn:Eb;
    cbv beta iota zeta;
    rewrite ?binarySearchBy_spec
      by (apply str_ltb_cut || apply belowPrefixEnd_cut; exact W);
    rewrite <- ?P0, <- ?P1;
    rewrite ?countBelow_max, ?countBelow_min
      by (first [apply str_ltb_cut; exact W | apply belowPrefixEnd_cut; exact W
                | exact C0 | exact C1]).
  all: match goal with
       | |- context [slice (countBelow ?lo _) (countBelow ?up _) _] =>
           rewrite (F lo up)
       end;
    [ unfold applyLimit; reflexivity | .. ];
    repeat first [apply isCut_or | apply isCut_and | apply str_ltb_cut; exact W
                 | apply belowPrefixEnd_cut; exact W | exact C0 | exact C1].
  all: intros k; unfold inScanRange; rewrite Ep, Ea, Eb;
    try match goal with
        | Np : ?p <> EmptyString |- _ => rewrite (startsWith_range p k) by exact Np
        end;
    repeat match goal with
           | |- context [str_ltb k ?x] => destruct (str_ltb k x)
           | |- context [belowPrefixEnd ?x k] => destruct (belowPrefixEnd x k)
           end; reflexivity.
Qed.

(** X4. Over strings of 16-bit code units and on sorted keys, [scan]
    returns the entries whose key starts with [prefix], is not below
    [startKey] and is below [endKey] (each option counting only when it
    is a non-empty string), in increasing order of the keys, or in
    decreasing order with [reverse], and cut after [limit] entries;
    but with a [prefix] whose last code unit is [0xFFFF] it returns no
    entry, whatever the keys are: the end of the range of the prefix is
    built with [String.fromCharCode], which turns [0x10000] into the
    code unit 0. *)
Theorem utf16_scan_returns_range (options : Utf16.ScanOptions) (s : Utf16.store) :
  Utf16.wf s ->
  Utf16.scan options s =
  let range := List.filter (fun e => Utf16.inScanRange options (fst e)) s in
  let ordered := if Utf16.scan_reverse options then rev range else range in
  match Utf16.scan_limit options with
  | Some limit => firstn limit ordered
  | None => ordered
  end.
Proof. apply utf16_scan_spec. Qed.

Lemma utf16_scan_returns_range_witness :
  Utf16.scan ffffScan ffffStore =
  let range := List.filter (fun e => Utf16.inScanRange ffffScan (fst e)) ffffStore in
  let ordered := if Utf16.scan_reverse ffffScan then rev range else range in
  match Utf16.scan_limit ffffScan with
  | Some limit => firstn limit ordered
  | None => ordered
  end.
Proof.
  apply (utf16_scan_returns_range ffffScan ffffStore).
  vm_compute. repeat constructor.
Defined.

(** The scan of the prefix ['a\uFFFF'] returns neither the key
    ['a\uFFFF'] nor the key ['a\uFFFFb'], and the scan of the prefix
    ['a'] returns all three keys. *)
Example utf16_scan_of_prefix_ending_in_ffff :
  Utf16.prefixEnd ffffPrefix = [97; 0]%N
  /\ Utf16.scan ffffScan ffffStore = []
  /\ Utf16.count (Some ffffPrefix) ffffStore = -1
  /\ List.filter (fun e => Utf16.startsWith ffffPrefix (fst e)) ffffStore
     = [([97; 65535]%N, BufOne); ([97; 65535; 98]%N, BufOne)]
  /\ Utf16.scan {| Utf16.scan_prefix := Some [97%N]; Utf16.scan_startKey := None;
                   Utf16.scan_endKey := None; Utf16.scan_limit := None;
                   Utf16.scan_reverse := false |} ffffStore = ffffStore
  /\ Utf16.count (Some [97%N]) ffffStore = 3.
Proof. repeat split. Qed.

(** A key below a prefix is below the end of the range of the prefix. *)
Lemma str_ltb_belowPrefixEnd (p k : string) :
  p <> EmptyString -> str_ltb k p = true -> belowPrefixEnd p k = true.
Proof.
  unfold str_ltb, String.ltb. revert k.
  induction p as [|c p IH]; intros k NE; [congruence|].
  destruct k as [|x k]; [now destruct p|].
  cbn [String.compare belowPrefixEnd].
  destruct p as [|c' p'].
  - rewrite ascii_compare_nat.
    destruct (Nat.compare_spec (nat_of_ascii x) (nat_of_ascii c)) as [E|L|G];
      intros Hk.
    + apply Nat.ltb_lt. lia.
    + apply Nat.ltb_lt. lia.
    + discriminate Hk.
  - destruct (Ascii.compare x c); intros Hk.
    + apply IH; [discriminate|exact Hk].
    + reflexivity.
    + discriminate Hk.
Qed.

(** On sorted 8-bit keys [count(prefix)] is the number of keys that
    start with the prefix. *)
Lemma kv_count_spec (prefix : option string) (s : kvstore) :
  kv_wf s ->
  kv_count prefix s =
  List.length
    (List.filter (fun e => match truthyString prefix with
                           | Some p => startsWith p (fst e)
                           | None => true
                           end) s).
Proof.
  intros W. unfold kv_count, binarySearch.
  destruct (truthyString prefix) as [p|] eqn:Ep.
  - assert (Np : p <> EmptyString)
      by (intros ->; destruct prefix as [[|]|]; discriminate).
    rewrite !binarySearchBy_spec
      by (apply str_ltb_cut || apply belowPrefixEnd_cut; exact W).
    rewrite <- (slice_length_le (countBelow (fun k => str_ltb k p) s)
                                (countBelow (belowPrefixEnd p) s) s).
    + rewrite slice_cuts
        by (apply str_ltb_cut || apply belowPrefixEnd_cut; exact W).
      f_equal. apply filter_ext. intros e. now rewrite (startsWith_range p _ Np).
    + split; [|apply countBelow_le].
      apply cut_mono. intros k Hk.
      now apply str_ltb_belowPrefixEnd.
  - f_equal. clear. induction s as [|e s IH]; [reflexivity|].
    cbn [List.filter]. now rewrite <- IH.
Qed.

(** X5. Over strings of 16-bit code units and on sorted keys,
    [count(prefix)] is the number of keys that start with the prefix
    when the last code unit of the prefix is not [0xFFFF]; when it is,
    [count(prefix)] is minus the number of keys that are not below the
    wrapped end of the range of the prefix and are below the prefix, a
    number that is zero or negative.  [count()] without a prefix, or with
    the empty one, is the number of all keys. *)
Theorem utf16_count_prefix (prefix : option Utf16.jsString) (s : Utf16.store) :
  Utf16.wf s ->
  Utf16.count prefix s =
  match Utf16.truthy prefix with
  | None => Z.of_nat (List.length s)
  | Some p =>
      if Utf16.wraps p
      then - Z.of_nat (List.length
                         (List.filter (fun e => Utf16.belowWrappedPrefix p (fst e)) s))
      else Z.of_nat (List.length
                       (List.filter (fun e => Utf16.startsWith p (fst e)) s))
  end.
Proof. apply utf16_count_spec. Qed.

Lemma utf16_count_prefix_witness :
  Utf16.count (Some ffffPrefix) ffffStore =
  match Utf16.truthy (Some ffffPrefix) with
  | None => Z.of_nat (List.length ffffStore)
  | Some p =>
      if Utf16.wraps p
      then - Z.of_nat (List.length
                         (List.filter (fun e => Utf16.belowWrappedPrefix p (fst e))
                                      ffffStore))
      else Z.of_nat (List.length
                       (List.filter (fun e => Utf16.startsWith p (fst e)) ffffStore))
  end.
Proof.
  apply (utf16_count_prefix (Some ffffPrefix) ffffStore).
  vm_compute. repeat constructor.
Defined.

(** *** The store of 8-bit keys as a store of 16-bit keys *)

(** On keys of 8-bit code units, of which none is [0xFFFF], the scan of
    the store of the engine is the scan over 16-bit code units. *)
Lemma kv_scan_utf16 (options : ScanOptions) (s : kvstore) :
  kv_wf s ->
  Utf16.scan (utf16Options options) (utf16Store s) = utf16Store (kv_scan options s).
Proof.
  intros W. rewrite utf16_scan_spec by now apply utf16Store_wf.
  rewrite kv_scan_both_directions by exact W. cbv zeta.
  rewrite filter_utf16Store. unfold applyLimit, utf16Options, utf16Store.
  cbn [Utf16.scan_limit Utf16.scan_reverse].
  destruct (scan_reverse options); destruct (scan_limit options);
    rewrite <- ?map_rev, ?firstn_map; reflexivity.
Qed.

Lemma kv_count_utf16 (prefix : option string) (s : kvstore) :
  kv_wf s ->
  Utf16.count (option_map codeUnits prefix) (utf16Store s) = Z.of_nat (kv_count prefix s).
Proof.
  intros W. rewrite utf16_count_spec by now apply utf16Store_wf.
  rewrite kv_count_spec by exact W. rewrite truthy_codeUnits.
  destruct (truthyString prefix) as [p|]; cbn [option_map]; cbv iota.
  - rewrite wraps_codeUnits. do 2 f_equal. unfold utf16Store. clear W.
    induction s as [|e s IH]; [reflexivity|].
    cbn [map List.filter utf16Entry fst]. rewrite startsWith_codeUnits.
    destruct (startsWith p (fst e)); cbn [List.length]; now rewrite IH.
  - f_equal. unfold utf16Store. rewrite length_map. clear W.
    induction s as [|e s IH]; [reflexivity|].
    cbn [List.filter List.length]. now rewrite <- IH.
Qed.

(** ** key-encoding.ts: document and metadata keys *)

Lemma splitOn_not_nil (c : ascii) (s : string) : splitOn c s <> [].
Proof.
  induction s as [|x s IH]; cbn [splitOn]; [discriminate|].
  destruct (Ascii.eqb x c); [discriminate|].
  destruct (splitOn c s); discriminate.
Qed.

Lemma splitOn_no_sep (c : ascii) (a : string) :
  containsChar c a = false -> splitOn c a = [a].
Proof.
  induction a as [|x a IH]; cbn [containsChar splitOn]; [reflexivity|].
  intros H. apply orb_false_iff in H. destruct H as [H1 H2].
  now rewrite H1, (IH H2).
Qed.

Lemma splitOn_app (c : ascii) (a b : string) :
  containsChar c a = false ->
  splitOn c (a ++ String c b) = a :: splitOn c b.
Proof.
  induction a as [|x a IH]; cbn [containsChar String.append splitOn].
  - intros _. now rewrite Ascii.eqb_refl.
  - intros H. apply orb_false_iff in H. destruct H as [H1 H2].
    now rewrite H1, (IH H2).
Qed.

Lemma splitOn_parts (c : ascii) (s : string) :
  Forall (fun p => containsChar c p = false) (splitOn c s).
Proof.
  induction s as [|x s IH]; cbn [splitOn].
  - now constructor.
  - destruct (Ascii.eqb x c) eqn:E; [now constructor|].
    destruct (splitOn c s) as [|first others].
    + constructor; [cbn [containsChar]; now rewrite E|constructor].
    + inversion IH as [|? ? Hf Ho]; subst.
      constructor; [cbn [containsChar]; now rewrite E, Hf|exact Ho].
Qed.

Lemma join_cons (sep x y : string) (rest : list string) :
  join sep (x :: y :: rest) = x ++ sep ++ join sep (y :: rest).
Proof. reflexivity. Qed.

Lemma join_splitOn (c : ascii) (s : string) :
  join (String c EmptyString) (splitOn c s) = s.
Proof.
  induction s as [|x s IH]; cbn [splitOn]; [reflexivity|].
  pose proof (splitOn_not_nil c s) as N.
  destruct (Ascii.eqb_spec x c) as [->|NE];
    destruct (splitOn c s) as [|first others]; try congruence.
  - rewrite join_cons, IH. reflexivity.
  - destruct others as [|second others].
    + cbn [join] in *. now rewrite IH.
    + rewrite join_cons. rewrite join_cons in IH.
      rewrite <- IH. reflexivity.
Qed.

(** X6. [decodeMetaKey] undoes [encodeMetaKey] for every collection
    name, also one with [':'] in it; it returns the name only for keys
    that [encodeMetaKey] builds from it; and it returns nothing for the
    keys [encodeSystemMetaKey] builds. *)
Theorem decodeMetaKey_encodeMetaKey :
  (forall collection, decodeMetaKey (encodeMetaKey collection) = Some collection)
  /\ (forall key collection,
         decodeMetaKey key = Some collection -> key = encodeMetaKey collection)
  /\ (forall name, decodeMetaKey (encodeSystemMetaKey name) = None).
Proof.
  split; [|split].
  - intros collection. unfold decodeMetaKey, encodeMetaKey.
    change ("meta:collection:" ++ collection)
      with ("meta" ++ String colon ("collection" ++ String colon collection)).
    rewrite !splitOn_app by reflexivity.
    pose proof (splitOn_not_nil colon collection) as N.
    pose proof (join_splitOn colon collection) as J.
    destruct (splitOn colon collection) as [|p2 rest]; [congruence|].
    cbn [String.eqb Ascii.eqb Bool.eqb negb orb]. now rewrite <- J.
  - intros key collection. unfold decodeMetaKey, encodeMetaKey.
    pose proof (join_splitOn colon key) as J.
    destruct (splitOn colon key) as [|p0 [|p1 [|p2 rest]]]; try discriminate.
    destruct (String.eqb_spec p0 "meta") as [->|]; [|discriminate].
    destruct (String.eqb_spec p1 "collection") as [->|]; [|discriminate].
    cbn [negb orb]. intros H. injection H as <-. rewrite <- J. reflexivity.
  - intros name. unfold decodeMetaKey, encodeSystemMetaKey.
    change ("meta:system:" ++ name)
      with ("meta" ++ String colon ("system" ++ String colon name)).
    rewrite !splitOn_app by reflexivity.
    pose proof (splitOn_not_nil colon name) as N.
    destruct (splitOn colon name) as [|p2 rest]; [congruence|reflexivity].
Qed.

Lemma decodeMetaKey_encodeMetaKey_witness :
  decodeMetaKey "meta:collection:a:b" = Some "a:b"
  /\ "meta:collection:a:b" = encodeMetaKey "a:b".
Proof.
  split.
  - apply (proj1 decodeMetaKey_encodeMetaKey "a:b").
  - apply (proj1 (proj2 decodeMetaKey_encodeMetaKey) "meta:collection:a:b" "a:b").
    reflexivity.
Defined.

(** X7. [decodeDocKey] undoes [encodeDocKey] when the collection name
    has no [':'] (the id may have some); and whatever it returns for a
    key, the collection has no [':'] and [encodeDocKey] rebuilds the key
    from it. *)
Theorem decodeDocKey_encodeDocKey :
  (forall collection id,
      containsChar colon collection = false ->
      decodeDocKey (encodeDocKey collection id)
      = Some {| ddk_collection := collection; ddk_id := id |})
  /\ (forall key decoded,
         decodeDocKey key = Some decoded ->
         key = encodeDocKey (ddk_collection decoded) (ddk_id decoded)
         /\ containsChar colon (ddk_collection decoded) = false).
Proof.
  split.
  - intros collection id Hc. unfold decodeDocKey, encodeDocKey.
    change ("doc:" ++ collection ++ ":" ++ id)
      with ("doc" ++ String colon (collection ++ String colon id)).
    rewrite splitOn_app by reflexivity. rewrite splitOn_app by exact Hc.
    pose proof (splitOn_not_nil colon id) as N.
    pose proof (join_splitOn colon id) as J.
    destruct (splitOn colon id) as [|p2 rest]; [congruence|].
    cbn [String.eqb Ascii.eqb Bool.eqb negb]. now rewrite <- J.
  - intros key decoded. unfold decodeDocKey, encodeDocKey.
    pose proof (join_splitOn colon key) as J.
    pose proof (splitOn_parts colon key) as P.
    destruct (splitOn colon key) as [|p0 [|p1 [|p2 rest]]]; try discriminate.
    destruct (String.eqb_spec p0 "doc") as [->|]; [|discriminate].
    cbn [negb]. intros H. injection H as <-. cbn [ddk_collection ddk_id].
    split; [now rewrite <- J|].
    inversion P as [|? ? _ P1]; subst. now inversion P1.
Qed.

Lemma decodeDocKey_encodeDocKey_witness :
  decodeDocKey (encodeDocKey "users" "a:1")
  = Some {| ddk_collection := "users"; ddk_id := "a:1" |}.
Proof.
  apply (proj1 decodeDocKey_encodeDocKey "users" "a:1"). reflexivity.
Defined.

(** ** key-encoding.ts: value encoding *)

Lemma str_ltb_first_char (x y : ascii) (a b : string) :
  (nat_of_ascii x < nat_of_ascii y)%nat -> str_ltb (String x a) (String y b) = true.
Proof.
  intros H. unfold str_ltb, String.ltb. cbn [String.compare].
  rewrite ascii_compare_nat. apply Nat.compare_lt_iff in H. now rewrite H.
Qed.

Section ValueEncoding.
Context {B : JsBuiltins}.

(** Every encoding starts with the tag of its type. *)
Lemma encodeValue_tag (u : unknown) (enc : string) :
  encodeValue u = Ok enc ->
  exists rest, enc = String (ascii_of_nat (48 + typeRank u)) rest.
Proof.
  destruct u as [t|v]; cbn [encodeValue typeRank].
  - intros H. injection H as <-. unfold encodeDate. now eexists.
  - destruct v as [|v|name| |]; cbn [typeRank];
      try (intros H; injection H as <-; now eexists).
    destruct v as [|b|n|s|items|fields]; cbn [typeRank].
    + intros H. injection H as <-. now eexists.
    + intros H. injection H as <-. now eexists.
    + intros H. injection H as <-. unfold encodeNumber.
      repeat match goal with |- context [if ?c then _ else _] => destruct c end;
        now eexists.
    + destruct (1024 <? String.length s)%nat; [discriminate|].
      intros H. injection H as <-. now eexists.
    + intros H. injection H as <-. now eexists.
    + intros H. injection H as <-. now eexists.
Qed.

(** X8. The type tags order the encodings across types: the encoding of
    a value sorts below the encoding of every value of a later type, the
    order being [null] and [undefined], booleans, numbers, strings (with
    the arrays and objects, written as JSON text), dates. *)
Theorem encodeValue_orders_types (u1 u2 : unknown) (enc1 enc2 : string) :
  encodeValue u1 = Ok enc1 -> encodeValue u2 = Ok enc2 ->
  (typeRank u1 < typeRank u2)%nat ->
  str_ltb enc1 enc2 = true.
Proof.
  intros H1 H2 R.
  destruct (encodeValue_tag _ _ H1) as (r1 & ->).
  destruct (encodeValue_tag _ _ H2) as (r2 & ->).
  apply str_ltb_first_char.
  assert (typeRank u1 <= 4 /\ typeRank u2 <= 4)%nat as [L1 L2].
  { split; [destruct u1 as [|[|[]| | |]]|destruct u2 as [|[|[]| | |]]]; cbn [typeRank]; lia. }
  rewrite !nat_ascii_embedding by lia. lia.
Qed.

End ValueEncoding.

Lemma encodeValue_orders_types_witness :
  str_ltb ("1:" ++ "1") (encodeNumber minusOne) = true.
Proof.
  apply (encodeValue_orders_types (Json (VBool true)) (Json (VNum minusOne)));
    [reflexivity|reflexivity|cbn; lia].
Defined.

(** *** Numbers *)

Lemma str_app_inv_head (p a b : string) : p ++ a = p ++ b -> a = b.
Proof.
  induction p as [|c p IH]; cbn [String.append]; [trivial|].
  intros H. injection H as H. now apply IH.
Qed.

Lemma hexFixed_inj (k : nat) (n m : Z) :
  0 <= n < 16 ^ Z.of_nat k -> 0 <= m < 16 ^ Z.of_nat k ->
  hexFixed k n = hexFixed k m -> n = m.
Proof.
  intros Hn Hm E.
  destruct (Z.lt_trichotomy n m) as [L|[->|G]]; [|reflexivity|].
  - pose proof (hexFixed_lt k n m (proj1 Hn) L (proj2 Hm)) as C.
    rewrite E, str_compare_refl in C. discriminate.
  - pose proof (hexFixed_lt k m n (proj1 Hm) ltac:(lia) (proj2 Hn)) as C.
    rewrite E, str_compare_refl in C. discriminate.
Qed.

Lemma magnitudeBits_inj (s t : bool) (m m' : positive) (e e' : Z) :
  isDouble (S754_finite s m e) = true -> isDouble (S754_finite t m' e') = true ->
  magnitudeBits (S754_finite s m e) = magnitudeBits (S754_finite t m' e') ->
  m = m' /\ e = e'.
Proof.
  intros V V' E.
  apply isDouble_finite_bounds in V. destruct V as (Hm & He & Hn).
  apply isDouble_finite_bounds in V'. destruct V' as (Hm' & He' & Hn').
  cbn [magnitudeBits] in E.
  assert (P52 : 2 ^ 52 = 4503599627370496) by reflexivity.
  assert (P53 : 2 ^ 53 = 9007199254740992) by reflexivity.
  rewrite P52 in *. rewrite P53 in *.
  destruct (Z.leb_spec 4503599627370496 (Zpos m)) as [L|L];
    destruct (Z.leb_spec 4503599627370496 (Zpos m')) as [L'|L'].
  - assert (e = e') by nia. subst e'. split; [|reflexivity].
    assert (Zpos m = Zpos m') by lia. congruence.
  - assert (e' = -1074) by (destruct (Z.eq_dec e' (-1074)); [assumption|specialize (Hn' ltac:(assumption)); lia]).
    exfalso. nia.
  - assert (e = -1074) by (destruct (Z.eq_dec e (-1074)); [assumption|specialize (Hn ltac:(assumption)); lia]).
    exfalso. nia.
  - assert (e = -1074) by (destruct (Z.eq_dec e (-1074)); [assumption|specialize (Hn ltac:(assumption)); lia]).
    assert (e' = -1074) by (destruct (Z.eq_dec e' (-1074)); [assumption|specialize (Hn' ltac:(assumption)); lia]).
    split; [|congruence]. assert (Zpos m = Zpos m') by lia. congruence.
Qed.

(** X9. On finite doubles [encodeNumber] writes eighteen characters, and
    two numbers with the same encoding are the same number, the two
    zeros counting as one. *)
Theorem encodeNumber_injective (a b : number) :
  isDouble a = true -> isDouble b = true ->
  isFiniteNumber a = true -> isFiniteNumber b = true ->
  String.length (encodeNumber a) = 18%nat
  /\ (encodeNumber a = encodeNumber b ->
      a = b \/ (exists s t, a = S754_zero s /\ b = S754_zero t)).
Proof.
  intros Va Vb Fa Fb.
  rewrite !encodeNumber_finite by assumption. split.
  - cbn [String.append String.length]. now rewrite hexFixed_length.
  - intros E. apply str_app_inv_head in E.
    apply hexFixed_inj in E;
      [|change (16 ^ Z.of_nat 16) with (2 ^ 64); now apply sortKey_bounds..].
    rewrite !sortKey_value in E by assumption.
    pose proof (magnitudeBits_bounds a Va Fa) as Ba.
    pose proof (magnitudeBits_bounds b Vb Fb) as Bb.
    assert (P52 : 2 ^ 52 = 4503599627370496) by reflexivity.
    assert (P63 : 2 ^ 63 = 9223372036854775808) by reflexivity.
    rewrite P52 in *. rewrite P63 in *.
    destruct a as [sa|sa| |sa ma ea]; try discriminate Fa;
      destruct b as [sb|sb| |sb mb eb]; try discriminate Fb.
    + right. now exists sa, sb.
    + exfalso. cbn [isNegative magnitudeBits] in E.
      assert (0 < magnitudeBits (S754_finite sb mb eb)).
      { cbn [magnitudeBits]. apply isDouble_finite_bounds in Vb.
        destruct (Z.leb_spec (2 ^ 52) (Zpos mb)); lia. }
      cbn [magnitudeBits] in *. destruct sb; lia.
    + exfalso. cbn [isNegative magnitudeBits] in E.
      assert (0 < magnitudeBits (S754_finite sa ma ea)).
      { cbn [magnitudeBits]. apply isDouble_finite_bounds in Va.
        destruct (Z.leb_spec (2 ^ 52) (Zpos ma)); lia. }
      cbn [magnitudeBits] in *. destruct sa; lia.
    + left.
      assert (sa = sb /\ magnitudeBits (S754_finite sa ma ea)
                         = magnitudeBits (S754_finite sb mb eb)) as [-> M].
      { cbn [isNegative] in E. destruct sa, sb; split; try reflexivity; lia. }
      destruct (magnitudeBits_inj _ _ _ _ _ _ Va Vb M) as [-> ->]. reflexivity.
Qed.

Lemma encodeNumber_injective_witness :
  String.length (encodeNumber one) = 18%nat
  /\ (encodeNumber one = encodeNumber one ->
      one = one \/ (exists s t, one = S754_zero s /\ one = S754_zero t)).
Proof. apply (encodeNumber_injective one one); reflexivity. Defined.

Lemma encodeNumber_lt (a b : number) :
  isDouble a = true -> isDouble b = true ->
  isFiniteNumber a = true -> isFiniteNumber b = true ->
  num_ltb a b = true -> str_ltb (encodeNumber a) (encodeNumber b) = true.
Proof.
  intros Va Vb Fa Fb L.
  rewrite !encodeNumber_finite by assumption.
  apply str_ltb_lt. rewrite str_compare_app_same.
  apply hexFixed_lt.
  - now apply sortKey_bounds.
  - now apply sortKey_lt.
  - change (16 ^ Z.of_nat 16) with (2 ^ 64). now apply sortKey_bounds.
Qed.

(** X10. The order of the numbers is not kept at the infinities: the
    encoding of [Infinity] sorts below the encoding of every finite
    number above one, and the encoding of [-Infinity] sorts above the
    encoding of every finite number below zero. *)
Theorem encodeNumber_infinities_out_of_order (a : number) :
  isDouble a = true -> isFiniteNumber a = true ->
  (num_ltb one a = true ->
   num_ltb a posInfinity = true
   /\ str_ltb (encodeNumber posInfinity) (encodeNumber a) = true)
  /\ (num_ltb a posZero = true ->
      num_ltb negInfinity a = true
      /\ str_ltb (encodeNumber a) (encodeNumber negInfinity) = true).
Proof.
  intros V F. split; intros L.
  - split.
    + destruct a as [s|s| |s m e]; try discriminate F; [discriminate L|].
      destruct s; [discriminate L|reflexivity].
    + apply str_ltb_lt.
      eapply str_compare_lt_trans with (b := encodeNumber one).
      * reflexivity.
      * apply str_ltb_lt. now apply encodeNumber_lt.
  - split.
    + destruct a as [s|s| |s m e]; try discriminate F; [now destruct s|].
      destruct s; [reflexivity|discriminate L].
    + apply str_ltb_lt.
      eapply str_compare_lt_trans with (b := encodeNumber posZero).
      * apply str_ltb_lt. now apply encodeNumber_lt.
      * reflexivity.
Qed.

Lemma encodeNumber_infinities_out_of_order_witness :
  (num_ltb ten posInfinity = true
   /\ str_ltb (encodeNumber posInfinity) (encodeNumber ten) = true)
  /\ (num_ltb negInfinity minusOne = true
      /\ str_ltb (encodeNumber minusOne) (encodeNumber negInfinity) = true).
Proof.
  split.
  - apply (proj1 (encodeNumber_infinities_out_of_order ten eq_refl eq_refl)).
    reflexivity.
  - apply (proj2 (encodeNumber_infinities_out_of_order minusOne eq_refl eq_refl)).
    reflexivity.
Defined.

(** *** Dates *)

Lemma encodeDate_nonneg (ms : Z) :
  0 <= ms < 2 ^ 64 -> encodeDate (Some ms) = "4:" ++ hexFixed 16 ms.
Proof.
  intros H. unfold encodeDate, uint32.
  change 4294967296 with (2 ^ 32).
  assert (0 <= ms / 2 ^ 32 < 2 ^ 32).
  { split; [apply Z.div_pos; lia|apply Z.div_lt_upper_bound; lia]. }
  rewrite (Z.mod_small (ms / 2 ^ 32)) by lia.
  rewrite hex_pair by (try apply Z.mod_pos_bound; lia).
  do 2 f_equal. symmetry. apply Z.div_mod. lia.
Qed.

Lemma encodeDate_neg (ms : Z) :
  - 2 ^ 63 <= ms < 0 -> encodeDate (Some ms) = "4:" ++ hexFixed 16 (ms + 2 ^ 64).
Proof.
  intros H. unfold encodeDate, uint32.
  change 4294967296 with (2 ^ 32).
  assert (D := Z.div_mod ms (2 ^ 32) ltac:(lia)).
  assert (M := Z.mod_pos_bound ms (2 ^ 32) ltac:(lia)).
  assert (- 2 ^ 31 <= ms / 2 ^ 32 < 0).
  { split; [apply Z.div_le_lower_bound; lia|apply Z.div_lt_upper_bound; lia]. }
  assert (E : (ms / 2 ^ 32) mod 2 ^ 32 = ms / 2 ^ 32 + 2 ^ 32).
  { symmetry. apply Z.mod_unique with (q := -1); lia. }
  rewrite E.
  rewrite hex_pair by lia.
  do 2 f_equal. lia.
Qed.

(** X11. [encodeDate] keeps the order of the times from 1970 on, and the
    order of the times before 1970; but the encoding of every time
    before 1970 sorts above the encoding of every time from 1970 on.
    The times are the milliseconds a valid [Date] can hold. *)
Theorem encodeDate_order (a b : Z) :
  - 8640000000000000 <= a -> a < b -> b <= 8640000000000000 ->
  str_ltb (encodeDate (Some a)) (encodeDate (Some b))
  = negb ((a <? 0) && (0 <=? b)).
Proof.
  intros Ha Hab Hb.
  assert (P63 : 2 ^ 63 = 9223372036854775808) by reflexivity.
  assert (P64 : 2 ^ 64 = 18446744073709551616) by reflexivity.
  assert (P16 : 16 ^ Z.of_nat 16 = 18446744073709551616) by reflexivity.
  destruct (Z.ltb_spec a 0) as [Na|Pa]; destruct (Z.leb_spec 0 b) as [Pb|Nb];
    cbn [andb negb]; try lia.
  - rewrite encodeDate_neg, encodeDate_nonneg by lia.
    assert (C : String.compare (hexFixed 16 b) (hexFixed 16 (a + 2 ^ 64)) = Lt)
      by (apply hexFixed_lt; lia).
    unfold str_ltb, String.ltb. rewrite str_compare_app_same.
    rewrite String.compare_antisym, C. reflexivity.
  - rewrite !encodeDate_neg by lia.
    apply str_ltb_lt. rewrite str_compare_app_same. apply hexFixed_lt; lia.
  - rewrite !encodeDate_nonneg by lia.
    apply str_ltb_lt. rewrite str_compare_app_same. apply hexFixed_lt; lia.
Qed.

Lemma encodeDate_order_witness :
  str_ltb (encodeDate (Some (-1))) (encodeDate (Some 1700000000000))
  = negb ((-1 <? 0) && (0 <=? 1700000000000)).
Proof. apply (encodeDate_order (-1) 1700000000000); lia. Defined.

(** *** The range of an equality *)

Lemma str_between_prefix (p k : string) :
  (str_ltb k p = false /\ str_ltb k (p ++ xff) = true)
  <-> exists rest, k = p ++ rest /\ str_ltb rest xff = true.
Proof.
  unfold str_ltb, String.ltb. revert k.
  induction p as [|c p IH]; intros k.
  - cbn [String.append]. split.
    + intros [_ H]. now exists k.
    + intros (rest & -> & H). split; [now destruct rest|exact H].
  - destruct k as [|x k].
    + split; [intros [H _]; discriminate H|].
      intros (rest & H & _). discriminate H.
    + cbn [String.append String.compare].
      destruct (Ascii.compare x c) eqn:C.
      * apply Ascii.compare_eq_iff in C. subst x. rewrite IH.
        split; intros (rest & E & H); exists rest; (split; [|exact H]);
          congruence.
      * split; [intros [H _]; discriminate H|].
        intros (rest & E & _). injection E as -> _.
        now rewrite ascii_compare_refl in C.
      * split; [intros [_ H]; discriminate H|].
        intros (rest & E & _). injection E as -> _.
        now rewrite ascii_compare_refl in C.
Qed.

Section EqualityRange.
Context {B : JsBuiltins}.

(** X12. For an equality the range of [computeIndexRange] holds the keys
    that start with the prefix of the field, the encoded value and the
    separator, and go on with a text below ["\xff"], and no other key:
    a key is at or above [startKey] and below [endKey] exactly when it
    has this form. *)
Theorem computeIndexRange_equality (collection field : string) (v : value)
        (startK endK : string) :
  computeIndexRange collection field [("$eq", v)] = Ok (startK, endK) ->
  exists enc,
    encodeValue (Json v) = Ok enc
    /\ forall key,
         (negb (str_ltb key startK) && str_ltb key endK = true)
         <-> exists rest,
               key = idxPrefix collection field ++ enc ++ IDX_ID_SEP ++ rest
               /\ str_ltb rest xff = true.
Proof.
  change (computeIndexRange collection field [("$eq", v)])
    with (match encodeValue (Json v) with
          | Ok enc => Ok (idxPrefix collection field ++ enc ++ IDX_ID_SEP,
                          idxPrefix collection field ++ enc ++ IDX_ID_SEP ++ xff)
          | Err e => Err e
          end).
  destruct (encodeValue (Json v)) as [enc|]; [|discriminate].
  intros H.
  assert (startK = idxPrefix collection field ++ enc ++ IDX_ID_SEP
          /\ endK = idxPrefix collection field ++ enc ++ IDX_ID_SEP ++ xff)
    as [-> ->] by (split; congruence).
  clear H. exists enc. split; [reflexivity|].
  intros key.
  replace (idxPrefix collection field ++ enc ++ IDX_ID_SEP ++ xff)
    with ((idxPrefix collection field ++ enc ++ IDX_ID_SEP) ++ xff)
    by (now rewrite !str_app_assoc).
  rewrite andb_true_iff, negb_true_iff, str_between_prefix.
  split; intros (rest & E & H); exists rest; (split; [|exact H]);
    rewrite E; now rewrite !str_app_assoc.
Qed.

End EqualityRange.

Lemma computeIndexRange_equality_witness :
  exists enc,
    encodeValue (Json (VStr "a@x")) = Ok enc
    /\ forall key,
         (negb (str_ltb key (idxPrefix "users" "email" ++ "3:a@x" ++ IDX_ID_SEP))
          && str_ltb key (idxPrefix "users" "email" ++ "3:a@x" ++ IDX_ID_SEP ++ xff)
          = true)
         <-> exists rest,
               key = idxPrefix "users" "email" ++ enc ++ IDX_ID_SEP ++ rest
               /\ str_ltb rest xff = true.
Proof.
  apply (computeIndexRange_equality "users" "email" (VStr "a@x")). reflexivity.
Defined.

(** ** index-manager.ts: validation *)

Lemma validateCollectionName_no_colon (name : string) :
  validateCollectionName name = Ok tt -> containsChar colon name = false.
Proof.
  unfold validateCollectionName, COLLECTION_NAME_BLOCKLIST.
  destruct (String.length name =? 0)%nat; [discriminate|].
  destruct (MAX_COLLECTION_NAME_LENGTH <? String.length name)%nat; [discriminate|].
  fold colon. destruct (containsChar colon name); [discriminate|reflexivity].
Qed.

Lemma prefix_app_same (p a b : string) :
  String.prefix (p ++ a) (p ++ b) = String.prefix a b.
Proof.
  induction p as [|c p IH]; cbn [String.append String.prefix]; [reflexivity|].
  destruct (Ascii.ascii_dec c c); [exact IH|congruence].
Qed.

(** Two texts without the separator, each followed by it: one is at the
    start of the other only if the texts are the same. *)
Lemma prefix_up_to_sep (c : ascii) (a b r : string) :
  containsChar c a = false -> containsChar c b = false ->
  String.prefix (a ++ String c EmptyString) (b ++ String c r) = String.eqb a b.
Proof.
  revert b. induction a as [|x a IH]; intros [|y b] Ha Hb;
    cbn [String.append String.prefix String.eqb containsChar] in *.
  - destruct (Ascii.ascii_dec c c); [now destruct r|congruence].
  - apply orb_false_iff in Hb. destruct Hb as [Hb _].
    destruct (Ascii.ascii_dec c y) as [->|]; [|reflexivity].
    now rewrite Ascii.eqb_refl in Hb.
  - apply orb_false_iff in Ha. destruct Ha as [Ha _].
    destruct (Ascii.ascii_dec x c) as [->|]; [|reflexivity].
    now rewrite Ascii.eqb_refl in Ha.
  - apply orb_false_iff in Ha. destruct Ha as [Hx Ha].
    apply orb_false_iff in Hb. destruct Hb as [Hy Hb].
    destruct (Ascii.ascii_dec x y) as [->|NE].
    + rewrite Ascii.eqb_refl. now apply IH.
    + apply Ascii.eqb_neq in NE. now rewrite NE.
Qed.

(** X13. The keys of two collections with valid names lie apart: a
    document key of one collection starts with the document prefix of
    the other, and an index key of one with the index prefix of the
    other, only if the names are the same; and no index key starts with
    a document prefix. *)
Theorem valid_collections_have_separate_keys (c c' : string) :
  validateCollectionName c = Ok tt -> validateCollectionName c' = Ok tt ->
  (forall id, startsWith (docPrefix c) (encodeDocKey c' id) = String.eqb c c')
  /\ (forall field rest,
         startsWith (idxCollectionPrefix c) (idxPrefix c' field ++ rest)
         = String.eqb c c')
  /\ (forall field rest,
         startsWith (docPrefix c) (idxPrefix c' field ++ rest) = false).
Proof.
  intros V V'. apply validateCollectionName_no_colon in V, V'.
  unfold startsWith, docPrefix, encodeDocKey, idxCollectionPrefix, idxPrefix.
  split; [|split].
  - intros id. rewrite prefix_app_same.
    change (c ++ ":") with (c ++ String colon EmptyString).
    change (c' ++ ":" ++ id) with (c' ++ String colon id).
    now apply prefix_up_to_sep.
  - intros field rest. rewrite !str_app_assoc, prefix_app_same.
    change (c ++ ":") with (c ++ String colon EmptyString).
    change (c' ++ ":" ++ field ++ ":" ++ rest)
      with (c' ++ String colon (field ++ ":" ++ rest)).
    now apply prefix_up_to_sep.
  - intros field rest. reflexivity.
Qed.

Lemma valid_collections_have_separate_keys_witness :
  startsWith (docPrefix "user") (encodeDocKey "users" "1") = String.eqb "user" "users".
Proof.
  apply (proj1 (valid_collections_have_separate_keys "user" "users"
                  eq_refl eq_refl)).
Defined.

(** *** [sanitizeDocument] *)

Lemma sanitizeSound_each (depth : nat) (items : list value) :
  Forall sanitizeSound items ->
  (fix each (l : list value) : result unit :=
     match l with
     | [] => Ok tt
     | item :: l' =>
         match
           match item with
           | VObj _ | VArr _ => sanitizeDocument item (S depth)
           | _ => Ok tt
           end
         with
         | Ok _ => each l'
         | Err e => Err e
         end
     end) items = Ok tt ->
  dangerFree (VArr items) = true.
Proof.
  induction 1 as [|item items Hitem _ IH]; [reflexivity|].
  rewrite dangerFree_arr_cons. intros H.
  destruct (match item with
            | VObj _ | VArr _ => sanitizeDocument item (S depth)
            | _ => Ok tt
            end) as [[]|] eqn:E; [|discriminate H].
  rewrite (IH H), andb_true_r.
  destruct item; try reflexivity; exact (Hitem _ E).
Qed.

Lemma sanitizeSound_visit (depth : nat) (val : value) :
  sanitizeSound val ->
  match val with VArr items => Forall sanitizeSound items | _ => True end ->
  match val with
  | VObj _ => sanitizeDocument val (S depth)
  | VArr items =>
      (fix each (l : list value) : result unit :=
         match l with
         | [] => Ok tt
         | item :: l' =>
             match
               match item with
               | VObj _ | VArr _ => sanitizeDocument item (S depth)
               | _ => Ok tt
               end
             with
             | Ok _ => each l'
             | Err e => Err e
             end
         end) items
  | _ => Ok tt
  end = Ok tt ->
  dangerFree val = true.
Proof.
  intros Hval Hitems. destruct val as [ | b | n | s | items | fields ];
    try reflexivity.
  - now apply sanitizeSound_each.
  - apply Hval.
Qed.

Lemma sanitizeSound_all (v : value) :
  sanitizeSound v
  /\ match v with VArr items => Forall sanitizeSound items | _ => True end.
Proof.
  induction v as [ | b | n | s | items IH | fields IH ] using value_ind';
    try solve [split; [intros depth _; reflexivity | exact I]].
  - assert (F : Forall sanitizeSound items)
      by (eapply Forall_impl; [|exact IH]; now intros ? [? _]).
    split; [|exact F].
    intros depth. cbn [sanitizeDocument].
    destruct (20 <? depth)%nat; [discriminate|].
    match goal with
    | |- ?loop O items = _ -> _ =>
        assert (G : forall i, loop i items = Ok tt -> dangerFree (VArr items) = true);
          [|exact (G O)]
    end.
    clear F. induction IH as [|val items [Hval Hsub] _ IHi]; intros i; [reflexivity|].
    cbn beta iota fix. rewrite indexKey_not_dangerous.
    match goal with
    | |- match ?visit with _ => _ end = _ -> _ => destruct visit as [[]|] eqn:E
    end; [|discriminate].
    intros H. rewrite dangerFree_arr_cons.
    rewrite (sanitizeSound_visit depth val Hval Hsub E). exact (IHi _ H).
  - split; [|exact I].
    intros depth. cbn [sanitizeDocument].
    destruct (20 <? depth)%nat; [discriminate|].
    induction IH as [|[key val] fields [Hval Hsub] _ IHf]; [reflexivity|].
    cbn beta iota fix. rewrite dangerFree_obj_cons.
    destruct (DANGEROUS_KEYS key); [discriminate|].
    match goal with
    | |- match ?visit with _ => _ end = _ -> _ => destruct visit as [[]|] eqn:E
    end; [|discriminate].
    intros H. cbn [snd] in Hval, Hsub.
    rewrite (sanitizeSound_visit depth val Hval Hsub E). exact (IHf H).
Qed.

(** X14. A document that [sanitizeDocument] accepts has none of the keys
    [__proto__], [constructor] and [prototype], in no object at any
    depth, and has at most 20 levels as the sanitizer counts them. *)
Theorem sanitizeDocument_accepts_only_safe (doc : document) :
  sanitizeDocument (VObj doc) 0 = Ok tt ->
  dangerFree (VObj doc) = true /\ (sanitizeLevels (VObj doc) <= 20)%nat.
Proof.
  intros H. assert (DF : dangerFree (VObj doc) = true)
    by exact (proj1 (sanitizeSound_all (VObj doc)) O H).
  split; [exact DF|].
  destruct (sanitizeQ_all (VObj doc)) as [S _]. specialize (S O DF).
  rewrite H in S. cbn [Nat.add] in S.
  destruct (Nat.leb_spec (sanitizeLevels (VObj doc)) 20); [assumption|].
  discriminate S.
Qed.

Lemma sanitizeDocument_accepts_only_safe_witness :
  dangerFree (VObj deepThroughArrays) = true
  /\ (sanitizeLevels (VObj deepThroughArrays) <= 20)%nat.
Proof.
  apply (sanitizeDocument_accepts_only_safe deepThroughArrays). reflexivity.
Defined.

(** ** query-planner.ts: [matchesFilter] *)

Section FilterFacts.
Context {B : JsBuiltins}.

(** The entries of a filter are tested one after the other. *)
Lemma matchesFilter_cons (doc : document) (entry : string * value)
      (rest : list (string * value)) :
  matchesFilter doc (VObj (entry :: rest)) =
  match matchesFilter doc (VObj [entry]) with
  | Ok true => matchesFilter doc (VObj rest)
  | other => other
  end.
Proof.
  destruct entry as [field condition].
  destruct rest as [|next rest].
  - destruct (matchesFilter doc (VObj [(field, condition)])) as [[|]|]; reflexivity.
  - cbn [matchesFilter truthy negb orb objectKeys objectEntries map List.length Nat.eqb].
    destruct (String.eqb field "$and").
    + destruct condition; try reflexivity.
      match goal with
      | |- match ?all with _ => _ end = _ => destruct all as [[|]|]; reflexivity
      end.
    + destruct (String.eqb field "$or").
      * destruct condition; try reflexivity.
        destruct (0 <? List.length items)%nat; [|reflexivity].
        match goal with
        | |- match ?some with _ => _ end = _ => destruct some as [[|]|]; reflexivity
        end.
      * destruct (matchesField doc field condition) as [[|]|]; reflexivity.
Qed.

(** [matchesFilter] on a filter that is only an [$and]. *)
Lemma matchesFilter_and_unfold (doc : document) (subs : list value) :
  matchesFilter doc (VObj [("$and", VArr subs)]) =
  match
    (fix all (ss : list value) : result bool :=
       match ss with
       | [] => Ok true
       | sub :: ss' =>
           match matchesFilter doc sub with
           | Ok true => all ss'
           | other => other
           end
       end) subs
  with
  | Ok true => Ok true
  | other => other
  end.
Proof. reflexivity. Qed.

(** X15. When no sub-filter raises an error, a filter [{$and: [f1, ...]}]
    matches a document exactly when every sub-filter does; with an empty
    array it matches every document. *)
Theorem matchesFilter_and (doc : document) (subs : list value) :
  (forall sub, In sub subs -> exists b, matchesFilter doc sub = Ok b) ->
  exists b,
    matchesFilter doc (VObj [("$and", VArr subs)]) = Ok b
    /\ (b = true <-> forall sub, In sub subs -> matchesFilter doc sub = Ok true).
Proof.
  intros NoErr. rewrite matchesFilter_and_unfold.
  match goal with
  | |- exists b, match ?X with _ => _ end = _ /\ _ =>
      assert (K : exists b, X = Ok b
                            /\ (b = true <->
                                forall sub, In sub subs -> matchesFilter doc sub = Ok true))
  end.
  { induction subs as [|sub subs IH].
    - exists true. split; [reflexivity|]. split; [intros _ ? []|reflexivity].
    - destruct (NoErr sub (or_introl eq_refl)) as [b Hb].
      assert (NoErr' : forall x, In x subs -> exists b, matchesFilter doc x = Ok b)
        by (intros x Hx; apply NoErr; now right).
      destruct (IH NoErr') as (b' & Hb' & Hall). cbn beta iota fix. rewrite Hb.
      destruct b.
      + exists b'. split; [exact Hb'|]. rewrite Hall. split.
        * intros H x [<-|Hx]; [exact Hb|now apply H].
        * intros H x Hx. apply H. now right.
      + exists false. split; [reflexivity|]. split; [discriminate|].
        intros H. specialize (H sub (or_introl eq_refl)). congruence. }
  destruct K as (b & -> & Hall). exists b. split; [now destruct b|exact Hall].
Qed.

(** X16. The entries of a filter are joined by "and": when no entry
    raises an error, a filter matches a document exactly when each of
    its entries, taken as a filter of its own, matches it; the empty
    filter matches every document. *)
Theorem matchesFilter_entries (doc : document) (entries : list (string * value)) :
  (forall entry, In entry entries -> exists b, matchesFilter doc (VObj [entry]) = Ok b) ->
  exists b,
    matchesFilter doc (VObj entries) = Ok b
    /\ (b = true <->
        forall entry, In entry entries -> matchesFilter doc (VObj [entry]) = Ok true).
Proof.
  induction entries as [|entry entries IH]; intros NoErr.
  - exists true. split; [reflexivity|]. split; [intros _ ? []|reflexivity].
  - destruct (NoErr entry (or_introl eq_refl)) as [b Hb].
    assert (NoErr' : forall x, In x entries ->
                               exists b, matchesFilter doc (VObj [x]) = Ok b)
      by (intros x Hx; apply NoErr; now right).
    destruct (IH NoErr') as (b' & Hb' & Hall).
    rewrite matchesFilter_cons, Hb. destruct b.
    + exists b'. split; [exact Hb'|]. rewrite Hall. split.
      * intros H x [<-|Hx]; [exact Hb|now apply H].
      * intros H x Hx. apply H. now right.
    + exists false. split; [reflexivity|]. split; [discriminate|].
      intros H. specialize (H entry (or_introl eq_refl)). congruence.
Qed.

(** The operators that [matchesComparison] knows. *)
Lemma matchesOperator_unknown (v : propertyValue) (op : string) (target : value) :
  ~ In op ["$eq"; "$ne"; "$gt"; "$gte"; "$lt"; "$lte"; "$in"; "$nin"; "$exists"] ->
  matchesOperator v op target = Ok true.
Proof.
  intros H. unfold matchesOperator.
  repeat match goal with
         | |- context [String.eqb op ?s] =>
             destruct (String.eqb_spec op s) as [->|_];
               [exfalso; apply H; cbn [In]; tauto|]
         end.
  reflexivity.
Qed.

(** X17. A condition that is an object without any of the operators
    [$eq], [$ne], [$gt], [$gte], [$lt], [$lte], [$in], [$nin] and
    [$exists] is no test at all: the filter [{field: {...}}] then matches
    every document, whatever the document holds at the field. *)
Theorem matchesFilter_object_without_operators (doc : document) (field : string)
        (ops : document) :
  field <> "$and" -> field <> "$or" ->
  (forall op, In op (map fst ops) ->
              ~ In op ["$eq"; "$ne"; "$gt"; "$gte"; "$lt"; "$lte"; "$in"; "$nin";
                       "$exists"]) ->
  matchesFilter doc (VObj [(field, VObj ops)]) = Ok true.
Proof.
  intros Hand Hor Hops.
  cbn [matchesFilter truthy negb orb objectKeys objectEntries map List.length Nat.eqb].
  apply String.eqb_neq in Hand, Hor. rewrite Hand, Hor.
  unfold matchesField.
  assert (K : matchesComparison (getNestedField doc field) ops = Ok true).
  { induction ops as [|[op target] ops IH]; [reflexivity|].
    cbn [matchesComparison].
    rewrite matchesOperator_unknown by (apply Hops; now left).
    apply IH. intros x Hx. apply Hops. now right. }
  now rewrite K.
Qed.

End FilterFacts.

Lemma matchesFilter_and_witness :
  exists b,
    matchesFilter [("a", VNum one)]
                  (VObj [("$and", VArr [VObj [("a", VNum one)]; VObj [("a", VNum ten)]])])
    = Ok b
    /\ (b = true <->
        forall sub, In sub [VObj [("a", VNum one)]; VObj [("a", VNum ten)]] ->
                    matchesFilter [("a", VNum one)] sub = Ok true).
Proof.
  apply (matchesFilter_and [("a", VNum one)]
                           [VObj [("a", VNum one)]; VObj [("a", VNum ten)]]).
  intros sub [<-|[<-|[]]]; eexists; reflexivity.
Defined.

Lemma matchesFilter_entries_witness :
  exists b,
    matchesFilter [("a", VNum one); ("b", VStr "x")]
                  (VObj [("a", VNum one); ("b", VStr "y")]) = Ok b
    /\ (b = true <->
        forall entry, In entry [("a", VNum one); ("b", VStr "y")] ->
                      matchesFilter [("a", VNum one); ("b", VStr "x")] (VObj [entry])
                      = Ok true).
Proof.
  apply (matchesFilter_entries [("a", VNum one); ("b", VStr "x")]
                               [("a", VNum one); ("b", VStr "y")]).
  intros entry [<-|[<-|[]]]; eexists; reflexivity.
Defined.

Lemma matchesFilter_object_without_operators_witness :
  matchesFilter [("name", VStr "x")]
                (VObj [("address", VObj [("city", VStr "Paris")])]) = Ok true.
Proof.
  apply (matchesFilter_object_without_operators
           [("name", VStr "x")] "address" [("city", VStr "Paris")]).
  - discriminate.
  - discriminate.
  - intros op [<-|[]] H. cbn [In] in H.
    repeat (destruct H as [H|H]; [discriminate H|]). exact H.
Defined.

(** ** query-planner.ts: [planQuery] *)

(** A key between two keys that start with the same text starts with
    that text. *)
Lemma between_common_prefix (p x y k : string) :
  negb (str_ltb k (p ++ x)) && str_ltb k (p ++ y) = true -> String.prefix p k = true.
Proof.
  unfold str_ltb, String.ltb. revert k.
  induction p as [|c p IH]; intros k H; [now destruct k|].
  destruct k as [|z k]; [discriminate H|].
  cbn [String.append String.compare String.prefix] in *.
  destruct (Ascii.compare z c) eqn:C; try discriminate H.
  apply Ascii.compare_eq_iff in C. subst z.
  destruct (Ascii.ascii_dec c c); [now apply IH|congruence].
Qed.

Section PlanFacts.
Context {B : JsBuiltins}.

Lemma computeIndexRange_prefix (collection field : string) (ops : document)
      (startK endK : string) :
  computeIndexRange collection field ops = Ok (startK, endK) ->
  startsWith (idxPrefix collection field) startK = true
  /\ startsWith (idxPrefix collection field) endK = true.
Proof.
  unfold computeIndexRange, startsWith.
  set (prefix := idxPrefix collection field).
  assert (P0 : String.prefix prefix prefix = true).
  { rewrite <- (str_app_nil_r prefix) at 2. apply prefix_app. }
  repeat match goal with
         | |- context [match getField ?k ops with _ => _ end] =>
             destruct (getField k ops)
         | |- context [match encodeValue ?u with _ => _ end] =>
             destruct (encodeValue u)
         end;
    try discriminate; intros H; injection H as <- <-;
    split; first [exact P0 | apply prefix_app].
Qed.

Lemma findIndexByField_In (indexes : list IndexDefinition) (field : string)
      (index : IndexDefinition) :
  findIndexByField indexes field = Some index ->
  In index indexes /\ idx_field index = field.
Proof.
  unfold findIndexByField. intros H. apply find_some in H.
  destruct H as [Hin He]. apply String.eqb_eq in He. now split.
Qed.

Lemma planFromEntries_wellFormed (filter : value) (indexes : list IndexDefinition)
      (collection : string) (entries : list (string * value)) (plan : QueryPlan) :
  planFromEntries filter indexes collection entries = Ok (Some plan) ->
  planWellFormed indexes collection plan.
Proof.
  induction entries as [|[field condition] entries IH]; [discriminate|].
  cbn [planFromEntries].
  destruct (startsWith "$" field); [exact IH|].
  destruct (findIndexByField indexes field) as [index|] eqn:Ef; [|exact IH].
  apply findIndexByField_In in Ef. destruct Ef as [Hin Hfield].
  destruct condition as [ | b | n | s | items | ops ].
  6: destruct (hasField "$gt" ops || hasField "$gte" ops || hasField "$lt" ops
               || hasField "$lte" ops || hasField "$eq" ops); [|exact IH].
  all: destruct (computeIndexRange collection field _) as [[startK endK]|e] eqn:Er;
    [|discriminate].
  all: apply computeIndexRange_prefix in Er; destruct Er as [Hs He].
  all: intros H; injection H as <-; unfold planWellFormed; cbn [plan_type].
  all: exists index, startK, endK; rewrite Hfield; repeat split; assumption.
Qed.

Lemma planWellFormed_setNeedsPostFilter (indexes : list IndexDefinition)
      (collection : string) (plan : QueryPlan) (b : bool) :
  planWellFormed indexes collection plan ->
  planWellFormed indexes collection (setNeedsPostFilter plan b).
Proof. unfold planWellFormed. now destruct plan. Qed.

Lemma planQuery_wellFormed_all (indexes : list IndexDefinition) (collection : string)
      (filter : value) :
  (forall plan, planQuery filter indexes collection = Ok plan ->
                planWellFormed indexes collection plan)
  /\ match filter with
     | VArr items =>
         Forall (fun sub => forall plan, planQuery sub indexes collection = Ok plan ->
                                         planWellFormed indexes collection plan) items
     | _ => True
     end.
Proof.
  assert (Scan : forall b, planWellFormed indexes collection (collectionScanPlan b))
    by (intros b; unfold planWellFormed; cbn; tauto).
  induction filter as [ | b | n | s | items IH | fields IH ] using value_ind'.
  1-4: split; [|exact I]; intros plan; cbn [planQuery];
    destruct (negb _ || _);
      [intros H; injection H as <-; apply Scan|];
    destruct (planFromEntries _ indexes collection _) as [[p|]|] eqn:E;
      [intros H; injection H as <-; eapply planFromEntries_wellFormed; exact E
      |intros H; injection H as <-; apply Scan
      |discriminate].
  - split; [|eapply Forall_impl; [|exact IH]; now intros ? [? _]].
    intros plan. cbn [planQuery].
    destruct (negb _ || _); [intros H; injection H as <-; apply Scan|].
    destruct (planFromEntries _ indexes collection _) as [[p|]|] eqn:E;
      [intros H; injection H as <-; eapply planFromEntries_wellFormed; exact E
      |intros H; injection H as <-; apply Scan
      |discriminate].
  - split; [|exact I].
    intros plan. cbn [planQuery].
    destruct (negb _ || _); [intros H; injection H as <-; apply Scan|].
    destruct (planFromEntries _ indexes collection _) as [[p|]|] eqn:E;
      [intros H; injection H as <-; eapply planFromEntries_wellFormed; exact E
      | |discriminate].
    clear E. revert plan.
    (* the loop over the sub-filters keeps the property *)
    match goal with
    | |- forall plan, ?read1 ?l = Ok plan -> _ =>
        match read1 with
        | context [?br _ (?read2 l)] => set (branches := br)
        end
    end.
    assert (Br : forall subs otherwise,
               Forall (fun sub => forall plan,
                         planQuery sub indexes collection = Ok plan ->
                         planWellFormed indexes collection plan) subs ->
               (forall plan, otherwise = Ok plan ->
                             planWellFormed indexes collection plan) ->
               forall plan, branches subs otherwise = Ok plan ->
                            planWellFormed indexes collection plan).
    { intros subs otherwise F Ho. induction F as [|sub subs Hsub _ IHs]; [exact Ho|].
      intros plan. unfold branches. cbn beta iota fix. fold branches.
      destruct (planQuery sub indexes collection) as [p|] eqn:Ep; [|discriminate].
      specialize (Hsub p eq_refl).
      destruct (plan_type p) eqn:Et.
      - intros H. injection H as <-. now apply planWellFormed_setNeedsPostFilter.
      - apply IHs. }
    assert (Rd : forall key otherwise,
               (forall plan, otherwise = Ok plan ->
                             planWellFormed indexes collection plan) ->
               forall l,
                 Forall (fun kv =>
                           (forall plan, planQuery (snd kv) indexes collection = Ok plan ->
                                         planWellFormed indexes collection plan)
                           /\ match snd kv with
                              | VArr items =>
                                  Forall (fun sub => forall plan,
                                            planQuery sub indexes collection = Ok plan ->
                                            planWellFormed indexes collection plan) items
                              | _ => True
                              end) l ->
                 forall plan,
                   (fix read (l : list (string * value)) : result QueryPlan :=
                      match l with
                      | [] => otherwise
                      | (k, v) :: l' =>
                          if String.eqb k key then
                            match v with
                            | VArr subFilters => branches subFilters otherwise
                            | _ => otherwise
                            end
                          else read l'
                      end) l = Ok plan ->
                   planWellFormed indexes collection plan).
    { intros key otherwise Ho l F.
      induction F as [|[k v] l [_ Hv] _ IHl]; [exact Ho|].
      intros plan. cbn beta iota fix.
      destruct (String.eqb k key); [|apply IHl].
      destruct v; try exact (Ho plan).
      cbn [snd] in Hv. apply Br; assumption. }
    intros plan. apply (Rd "$and"); [|exact IH].
    intros plan'. apply (Rd "$or"); [|exact IH].
    intros plan'' H. injection H as <-. apply Scan.
Qed.

(** X18. Every plan of [planQuery] fits the indexes it was given: an
    index scan names one of these indexes, and every key from its
    [startKey] up to its [endKey] starts with the prefix of the index
    rows of that field of the collection, so that the scan reads rows of
    this index only; a collection scan names no index and has no keys. *)
Theorem planQuery_plan_fits_indexes (filter : value) (indexes : list IndexDefinition)
        (collection : string) (plan : QueryPlan) :
  planQuery filter indexes collection = Ok plan ->
  planWellFormed indexes collection plan
  /\ forall field startK endK key,
       indexField plan = Some field ->
       startKey plan = Some startK -> endKey plan = Some endK ->
       negb (str_ltb key startK) && str_ltb key endK = true ->
       startsWith (idxPrefix collection field) key = true.
Proof.
  intros H.
  pose proof (proj1 (planQuery_wellFormed_all indexes collection filter) plan H) as W.
  split; [exact W|].
  intros field startK endK key Hf Hs He Hk.
  unfold planWellFormed in W. destruct (plan_type plan).
  - destruct W as (index & s & e & _ & _ & Hf' & Hs' & He' & Ps & Pe).
    assert (field = idx_field index) as -> by congruence.
    assert (startK = s) as -> by congruence.
    assert (endK = e) as -> by congruence.
    unfold startsWith in *.
    set (p := idxPrefix collection (idx_field index)) in *.
    assert (Dec : forall t, String.prefix p t = true -> exists x, t = p ++ x).
    { clear. intros t. revert t. induction p as [|c p IH]; intros t Ht.
      - now exists t.
      - destruct t as [|z t]; [discriminate Ht|]. cbn [String.prefix] in Ht.
        destruct (Ascii.ascii_dec c z) as [->|]; [|discriminate Ht].
        destruct (IH t Ht) as [x ->]. now exists x. }
    destruct (Dec _ Ps) as [x ->]. destruct (Dec _ Pe) as [y ->].
    eapply between_common_prefix. exact Hk.
  - destruct W as (_ & Hs' & _). congruence.
Qed.

End PlanFacts.

Lemma planQuery_plan_fits_indexes_witness :
  exists plan,
    planQuery (VObj ageRangeAndNe) [idIndex; ageIndex] "users" = Ok plan
    /\ planWellFormed [idIndex; ageIndex] "users" plan.
Proof.
  eexists. split; [reflexivity|].
  apply (planQuery_plan_fits_indexes (VObj ageRangeAndNe) [idIndex; ageIndex] "users").
  reflexivity.
Defined.

(** ** query-planner.ts: [executeQuery] *)

Lemma yields_ret {A} (s : kvstore) (a : A) (Post : A -> Prop) :
  Post a -> yields s (ret a) Post.
Proof. intros H w a' w' Hw E. injection E as <- <-. now split. Qed.

Lemma yields_lift {A} (s : kvstore) (r : result A) (Post : A -> Prop) :
  (forall a, r = Ok a -> Post a) -> yields s (lift r) Post.
Proof. intros H w a w' Hw E. injection E as -> <-. split; [exact Hw|now apply H]. Qed.

Lemma yields_kvGet (s : kvstore) (key : string) (Post : option buffer -> Prop) :
  Post (kv_get key s) -> yields s (kvGet key) Post.
Proof. intros H w a w' Hw E. injection E as <- <-. rewrite Hw. now split. Qed.

Lemma yields_kvScan (s : kvstore) (options : ScanOptions)
      (Post : list KVEntry -> Prop) :
  Post (kv_scan options s) -> yields s (kvScan options) Post.
Proof. intros H w a w' Hw E. injection E as <- <-. rewrite Hw. now split. Qed.

Lemma yields_bind {A C} (s : kvstore) (m : M A) (k : A -> M C)
      (Mid : A -> Prop) (Post : C -> Prop) :
  yields s m Mid -> (forall a, Mid a -> yields s (k a) Post) ->
  yields s (bind m k) Post.
Proof.
  intros Hm Hk w c w' Hw E. apply bind_Ok_inv in E.
  destruct E as (a & w1 & Em & Ek).
  destruct (Hm _ _ _ Hw Em) as [Hw1 Ha]. exact (Hk a Ha _ _ _ Hw1 Ek).
Qed.

Lemma yields_withWorld {A} (s : kvstore) (f : world -> M A) (Post : A -> Prop) :
  (forall w0, yields s (f w0) Post) -> yields s (fun w => f w w) Post.
Proof. intros H w a w' Hw E. exact (H w w a w' Hw E). Qed.

Lemma firstn_In {A} (n : nat) (l : list A) (x : A) : In x (firstn n l) -> In x l.
Proof.
  revert l. induction n as [|n IH]; intros [|y l]; cbn [firstn In]; try tauto.
  intros [->|H]; [now left|right; now apply IH].
Qed.

Lemma skipn_In {A} (n : nat) (l : list A) (x : A) : In x (skipn n l) -> In x l.
Proof.
  revert l. induction n as [|n IH]; intros [|y l]; cbn [skipn In]; try tauto.
  intros H. right. now apply IH.
Qed.

Section ExecuteQuery.
Context {B : JsBuiltins}.
Variable plan : QueryPlan.
Variable collection : string.
Variable filter : value.
Variable s : kvstore.

Lemma passes_good (doc : document) :
  In doc (documentsOf collection s) -> passes plan doc filter = Ok true -> (answers plan collection filter s) doc.
Proof.
  intros Hin Hp. split; [exact Hin|]. intros Hn.
  unfold passes in Hp. now rewrite Hn in Hp.
Qed.

Lemma documentsOf_In (key : string) (doc : document) :
  In (key, BufDoc doc) s -> startsWith (docPrefix collection) key = true ->
  In doc (documentsOf collection s).
Proof.
  intros Hin Hp. unfold documentsOf. apply in_flat_map.
  exists (key, BufDoc doc). split; [exact Hin|]. cbn [fst snd]. rewrite Hp. now left.
Qed.

Lemma asDocument_Ok (buf : buffer) (doc : document) :
  asDocument buf = Ok doc -> buf = BufDoc doc.
Proof. destruct buf; cbn; congruence. Qed.

Lemma collectionScan_entries_good (maxNeeded : option nat) (entries : list KVEntry) :
  Forall (fun entry => In entry s
                       /\ startsWith (docPrefix collection) (fst entry) = true)
         entries ->
  forall st,
    Forall (answers plan collection filter s) (st_documents st) ->
    yields s (collectionScan_entries plan filter maxNeeded entries st)
           (fun st' => Forall (answers plan collection filter s) (st_documents st')).
Proof.
  induction 1 as [|[key buf] entries [Hin Hp] _ IH]; intros st Hst;
    cbn [collectionScan_entries]; [now apply yields_ret|].
  eapply yields_bind with (Mid := fun doc => asDocument buf = Ok doc);
    [apply yields_lift; intros doc Hd; exact Hd|].
  intros doc Hd. apply asDocument_Ok in Hd. subst buf.
  eapply yields_bind with (Mid := fun ok => passes plan doc filter = Ok ok);
    [apply yields_lift; intros ok Hok; exact Hok|].
  intros ok Hok. destruct ok.
  - assert (G : Forall (answers plan collection filter s) (st_documents st ++ [doc])).
    { apply Forall_app. split; [exact Hst|]. constructor; [|constructor].
      apply passes_good; [|exact Hok]. eapply documentsOf_In; eassumption. }
    destruct (enough maxNeeded _); [now apply yields_ret|now apply IH].
  - now apply IH.
Qed.

Lemma scanPrefix_entries (prefix : string) (startK : option string) (limit : nat) :
  kv_wf s -> prefix <> EmptyString ->
  Forall (fun entry => In entry s /\ startsWith prefix (fst entry) = true)
         (kv_scan (scanPrefix prefix startK limit) s).
Proof.
  intros W NE. rewrite kv_scan_both_directions by exact W.
  cbn [scanPrefix scan_limit scan_reverse applyLimit].
  apply Forall_forall. intros entry Hin. apply firstn_In in Hin.
  apply filter_In in Hin. destruct Hin as [Hin Hr]. split; [exact Hin|].
  unfold inScanRange in Hr. cbn [scan_prefix] in Hr.
  destruct prefix; [congruence|]. cbn [truthyString] in Hr.
  apply andb_true_iff in Hr. destruct Hr as [Hr _].
  apply andb_true_iff in Hr. now destruct Hr as [Hr _].
Qed.

Lemma collectionScan_loop_good (maxNeeded : option nat) (fuel : nat) :
  kv_wf s ->
  forall st,
    Forall (answers plan collection filter s) (st_documents st) ->
    yields s (collectionScan_loop fuel plan collection filter maxNeeded st)
           (fun st' => Forall (answers plan collection filter s) (st_documents st')).
Proof.
  intros W. induction fuel as [|fuel IH]; intros st Hst; cbn [collectionScan_loop].
  - intros w a w' _ E. discriminate E.
  - eapply yields_bind
      with (Mid := Forall (fun entry =>
                             In entry s
                             /\ startsWith (docPrefix collection) (fst entry) = true)).
    + apply yields_kvScan.
      exact (scanPrefix_entries (docPrefix collection) (afterKey (st_lastKey st))
                                BATCH_LIMIT W ltac:(discriminate)).
    + intros entries He.
      destruct (List.length entries =? 0)%nat; [now apply yields_ret|].
      eapply yields_bind with (Mid := fun st' => Forall (answers plan collection filter s) (st_documents st'));
        [now apply collectionScan_entries_good|].
      intros st' Hst'.
      destruct (enough maxNeeded _); [now apply yields_ret|].
      destruct (List.length entries <? BATCH_LIMIT)%nat; [now apply yields_ret|].
      now apply IH.
Qed.

Lemma indexScan_entries_good (maxNeeded : option nat) (entries : list KVEntry) :
  forall st,
    Forall (answers plan collection filter s) (st_documents st) ->
    yields s (indexScan_entries plan collection filter maxNeeded entries st)
           (fun st' => Forall (answers plan collection filter s) (st_documents st')).
Proof.
  induction entries as [|[key buf] entries IH]; intros st Hst;
    cbn [indexScan_entries]; [now apply yields_ret|].
  cbn [fst]. destruct (decodeIdxKey key) as [decoded|]; [|now apply IH].
  eapply yields_bind
    with (Mid := fun d => d = kv_get (encodeDocKey collection (dk_id decoded)) s);
    [apply yields_kvGet; reflexivity|].
  intros docData Hd.
  destruct docData as [data|]; [|now apply IH].
  eapply yields_bind with (Mid := fun doc => asDocument data = Ok doc);
    [apply yields_lift; intros doc Hdoc; exact Hdoc|].
  intros doc Hdoc. apply asDocument_Ok in Hdoc. subst data.
  eapply yields_bind with (Mid := fun ok => passes plan doc filter = Ok ok);
    [apply yields_lift; intros ok Hok; exact Hok|].
  intros ok Hok. destruct ok.
  - assert (G : Forall (answers plan collection filter s) (st_documents st ++ [doc])).
    { apply Forall_app. split; [exact Hst|]. constructor; [|constructor].
      apply passes_good; [|exact Hok].
      apply (documentsOf_In (encodeDocKey collection (dk_id decoded))).
      - apply kv_get_In. now symmetry.
      - unfold startsWith, docPrefix, encodeDocKey.
        replace ("doc:" ++ collection ++ ":" ++ dk_id decoded)
          with (("doc:" ++ collection ++ ":") ++ dk_id decoded)
          by (now rewrite !str_app_assoc).
        apply prefix_app. }
    destruct (enough maxNeeded _); [now apply yields_ret|now apply IH].
  - now apply IH.
Qed.

Lemma indexScan_loop_good (maxNeeded : option nat) (endK : string) (fuel : nat) :
  forall st,
    Forall (answers plan collection filter s) (st_documents st) ->
    yields s (indexScan_loop fuel plan collection filter maxNeeded endK st)
           (fun st' => Forall (answers plan collection filter s) (st_documents st')).
Proof.
  induction fuel as [|fuel IH]; intros st Hst; cbn [indexScan_loop].
  - intros w a w' _ E. discriminate E.
  - eapply yields_bind with (Mid := fun _ => True); [apply yields_kvScan; exact I|].
    intros entries _.
    destruct (List.length entries =? 0)%nat; [now apply yields_ret|].
    eapply yields_bind with (Mid := fun st' => Forall (answers plan collection filter s) (st_documents st'));
      [now apply indexScan_entries_good|].
    intros st' Hst'.
    destruct (enough maxNeeded _); [now apply yields_ret|].
    destruct (List.length entries <? BATCH_LIMIT)%nat; [now apply yields_ret|].
    now apply IH.
Qed.

Lemma executeQuery_good (options : QueryOptions) :
  kv_wf s ->
  yields s (executeQuery plan collection filter options)
         (fun r => Forall (answers plan collection filter s) (documents r)
                   /\ usedIndex r = truthyString (indexName plan)
                   /\ forall l, opt_limit options = Some l -> (0 < l)%nat ->
                                (List.length (documents r) <= l)%nat).
Proof.
  intros W. unfold executeQuery.
  eapply yields_bind with (Mid := fun _ => True).
  { intros w a w' Hw E. injection E as _ <-. split; [exact Hw|exact I]. }
  intros startTime _.
  eapply yields_bind with (Mid := fun st => Forall (answers plan collection filter s) (st_documents st)).
  { destruct (plan_type plan).
    - destruct (truthyString (startKey plan)) as [startK|].
      + destruct (truthyString (endKey plan)) as [endK|].
        * intros w a w' Hw E.
          refine (indexScan_loop_good _ _ _ _ _ w a w' Hw E). constructor.
        * intros w a w' Hw E.
          refine (collectionScan_loop_good _ _ W _ _ w a w' Hw E). constructor.
      + intros w a w' Hw E.
        refine (collectionScan_loop_good _ _ W _ _ w a w' Hw E). constructor.
    - intros w a w' Hw E.
      refine (collectionScan_loop_good _ _ W _ _ w a w' Hw E). constructor. }
  intros st Hst.
  eapply yields_bind with (Mid := fun _ => True).
  { intros w a w' Hw E. injection E as _ <-. split; [exact Hw|exact I]. }
  intros endTime _. apply yields_ret. cbn [documents usedIndex].
  split; [|split; [reflexivity|]].
  - apply Forall_forall. intros doc Hin. rewrite Forall_forall in Hst. apply Hst.
    destruct (opt_limit options) as [l|]; [destruct (0 <? l)%nat|];
      try apply firstn_In in Hin;
      (destruct (opt_skip options) as [k|]; [destruct (0 <? k)%nat|]);
      try apply skipn_In in Hin; exact Hin.
  - intros l -> Hl. apply Nat.ltb_lt in Hl. rewrite Hl. apply firstn_le_length.
Qed.

End ExecuteQuery.

Section ExecuteQueryResults.
Context {B : JsBuiltins}.

(** X19. [executeQuery], called with [limit] and [skip] only, as the
    document store calls it for its updates, deletes and counts, only
    reads: when it returns, the store is as it was.  Every document it
    returns is stored in the collection, and matches the filter if the
    plan asks for the residual test; with a positive [limit] it returns
    at most [limit] documents; and it reports the index name of the
    plan, if that is not empty, as the index it used. *)
Theorem executeQuery_returns_stored_documents
        (plan : QueryPlan) (collection : string) (filter : value)
        (options : QueryOptions) (w w' : world) (r : QueryExecutionResult) :
  kv_wf (kv w) ->
  executeQuery plan collection filter options w = (Ok r, w') ->
  kv w' = kv w
  /\ Forall (fun doc => In doc (documentsOf collection (kv w))
                        /\ (needsPostFilter plan = true ->
                            matchesFilter doc filter = Ok true))
            (documents r)
  /\ usedIndex r = truthyString (indexName plan)
  /\ (forall l, opt_limit options = Some l -> (0 < l)%nat ->
                (List.length (documents r) <= l)%nat).
Proof.
  intros W E.
  destruct (executeQuery_good plan collection filter (kv w) options W w r w' eq_refl E)
    as (Hkv & Hdocs & Hidx & Hlim).
  repeat split; assumption.
Qed.

End ExecuteQueryResults.

Lemma executeQuery_returns_stored_documents_witness :
  let run := executeQuery (collectionScanPlan true) "c" (VObj [("a", VStr "x")])
                          (limitOnly 1) oneDocWorld in
  kv (snd run) = kv oneDocWorld
  /\ Forall (fun doc => In doc (documentsOf "c" (kv oneDocWorld))
                        /\ (needsPostFilter (collectionScanPlan true) = true ->
                            matchesFilter doc (VObj [("a", VStr "x")]) = Ok true))
            (match fst run with Ok r => documents r | Err _ => [] end).
Proof.
  cbv zeta.
  destruct (executeQuery (collectionScanPlan true) "c" (VObj [("a", VStr "x")])
                         (limitOnly 1) oneDocWorld) as [[r|e] w'] eqn:E.
  - destruct (executeQuery_returns_stored_documents
                (collectionScanPlan true) "c" (VObj [("a", VStr "x")])
                (limitOnly 1) oneDocWorld w' r) as (H1 & H2 & _).
    + vm_compute. repeat constructor.
    + exact E.
    + split; assumption.
  - vm_compute in E. discriminate E.
Defined.

(** ** index-manager.ts: the index hooks *)

(** Two sorted stores that answer every [get] alike are the same. *)
Lemma kv_ext (s s' : kvstore) :
  kv_wf s -> kv_wf s' -> (forall key, kv_get key s = kv_get key s') -> s = s'.
Proof.
  revert s'. induction s as [|[k x] s IH]; intros [|[k' x'] s'] W W' H.
  - reflexivity.
  - specialize (H k'). cbn [kv_get] in H. now rewrite String.eqb_refl in H.
  - specialize (H k). cbn [kv_get] in H. now rewrite String.eqb_refl in H.
  - destruct (kv_wf_cons_inv _ _ _ W) as [Ws Hall].
    destruct (kv_wf_cons_inv _ _ _ W') as [Ws' Hall'].
    assert (A : kv_has k s = false) by now apply kv_has_above.
    assert (A' : kv_has k' s' = false) by now apply kv_has_above.
    unfold kv_has in A, A'.
    assert (k = k').
    { pose proof (H k) as Hk. pose proof (H k') as Hk'. cbn [kv_get] in Hk, Hk'.
      rewrite String.eqb_refl in Hk, Hk'.
      destruct (String.eqb_spec k' k) as [E|NE]; [now symmetry|].
      destruct (String.eqb_spec k k') as [E'|NE']; [exact E'|].
      (* k is in s' and k' is in s: each key is above the other *)
      symmetry in Hk. apply kv_get_In in Hk, Hk'.
      rewrite Forall_forall in Hall, Hall'.
      specialize (Hall _ Hk'). specialize (Hall' _ Hk). cbn [fst] in Hall, Hall'.
      exfalso. apply (str_lt_irrefl k). eapply str_lt_trans; eassumption. }
    subst k'.
    assert (x = x').
    { specialize (H k). cbn [kv_get] in H. rewrite String.eqb_refl in H. congruence. }
    subst x'. f_equal. apply IH; [assumption..|].
    intros key. specialize (H key). cbn [kv_get] in H.
    destruct (String.eqb_spec k key) as [E|NE]; [subst key|exact H].
    destruct (kv_get k s); [discriminate|]. now destruct (kv_get k s').
Qed.

Lemma fold_put_get_other (puts : list KVEntry) (s : kvstore) (key : string) :
  ~ In key (map fst puts) ->
  kv_get key (fold_left (fun s e => kv_put (fst e) (snd e) s) puts s) = kv_get key s.
Proof.
  revert s. induction puts as [|[k v] puts IH]; intros s H; [reflexivity|].
  cbn [fold_left fst snd]. rewrite IH by (intros Hin; apply H; now right).
  apply kv_get_put_other. intros ->. apply H. now left.
Qed.

Lemma fold_delete_get (keys : list string) (s : kvstore) (key : string) :
  kv_get key (fold_left (fun s k => kv_delete k s) keys s)
  = if in_dec string_dec key keys then None else kv_get key s.
Proof.
  revert s. induction keys as [|k keys IH]; intros s; [reflexivity|].
  cbn [fold_left]. rewrite IH.
  destruct (in_dec string_dec key keys) as [Hin|Hn];
    destruct (in_dec string_dec key (k :: keys)) as [Hin'|Hn']; try reflexivity.
  - exfalso. apply Hn'. now right.
  - destruct Hin' as [->|Hin']; [apply kv_get_delete_same|contradiction].
  - apply kv_get_delete_other. intros ->. apply Hn'. now left.
Qed.

Lemma fold_delete_wf (keys : list string) (s : kvstore) :
  kv_wf s -> kv_wf (fold_left (fun s k => kv_delete k s) keys s).
Proof.
  revert s. induction keys as [|k keys IH]; intros s W; [exact W|].
  cbn [fold_left]. apply IH. now apply kv_delete_wf.
Qed.

Lemma deleteAll_run (keys : list string) (w : world) :
  deleteAll keys w = (Ok tt, withKv w (fold_left (fun s k => kv_delete k s) keys (kv w))).
Proof.
  revert w. induction keys as [|key keys IH]; intros w.
  - destruct w; reflexivity.
  - cbn [deleteAll fold_left]. unfold bind, kvDelete. rewrite IH. reflexivity.
Qed.

Section IndexHooks.
Context {B : JsBuiltins}.

Lemma onInsert_run (collectionName : string) (indexes : list IndexDefinition)
      (doc : document) (docId : string) (w : world) :
  onInsert collectionName indexes doc docId w =
  match onInsert_plan collectionName indexes doc docId w with
  | (Ok puts, _) =>
      (Ok tt, withKv w (fold_left (fun s e => kv_put (fst e) (snd e) s) puts (kv w)))
  | (Err e, _) => (Err e, w)
  end.
Proof.
  unfold onInsert, bind.
  destruct (onInsert_plan collectionName indexes doc docId w) as [[puts|e] w1] eqn:E;
    apply onInsert_plan_world in E; subst w1; [apply putAll_run|reflexivity].
Qed.

(** The first phase of [onUpdate] writes nothing and draws nothing. *)
Lemma onUpdate_plan_world (collectionName : string) (indexes : list IndexDefinition)
      (oldDoc newDoc : document) (docId : string) (w w' : world)
      (r : result (list string * list KVEntry)) :
  onUpdate_plan collectionName indexes oldDoc newDoc docId w = (r, w') -> w' = w.
Proof.
  revert w' r.
  induction indexes as [|ix rest IH]; intros w' r Run; cbn [onUpdate_plan] in Run.
  - now injection Run.
  - destruct (match jsonStringifyOpt _, jsonStringifyOpt _ with
              | Some a, Some b => String.eqb a b
              | None, None => true
              | _, _ => false
              end); [now apply IH in Run|].
    unfold bind at 1 in Run.
    match type of Run with (match ?c w with _ => _ end) = _ =>
      destruct (c w) as [[dels|e] w1] eqn:Ed end.
    + assert (w1 = w) as ->.
      { destruct (negb (isNullish (readProperty oldDoc (idx_field ix))));
          [|now injection Ed].
        unfold bind, lift, ret in Ed. destruct (encodeIdxKey _ _ _ _);
          now injection Ed. }
      unfold bind at 1 in Run.
      match type of Run with (match ?c w with _ => _ end) = _ =>
        destruct (c w) as [[puts|e] w2] eqn:Ep end.
      * assert (w2 = w) as ->.
        { destruct (negb (isNullish (readProperty newDoc (idx_field ix))));
            [|now injection Ep].
          unfold bind at 1 in Ep.
          match type of Ep with (match ?c w with _ => _ end) = _ =>
            destruct (c w) as [[u|e] w3] eqn:Ec end.
          - assert (w3 = w) as ->.
            { destruct (idx_unique ix);
                [now apply checkUnique_world in Ec|now injection Ec]. }
            unfold bind, lift, ret in Ep. destruct (encodeIdxKey _ _ _ _);
              now injection Ep.
          - injection Ep as _ <-.
            destruct (idx_unique ix);
              [now apply checkUnique_world in Ec|discriminate Ec]. }
        unfold bind in Run.
        destruct (onUpdate_plan collectionName rest oldDoc newDoc docId w)
          as [[more|e] w3] eqn:Er;
          specialize (IH _ _ eq_refl); subst w3; now injection Run.
      * injection Run as _ <-.
        destruct (negb (isNullish (readProperty newDoc (idx_field ix))));
          [|discriminate Ep].
        unfold bind at 1 in Ep.
        match type of Ep with (match ?c w with _ => _ end) = _ =>
          destruct (c w) as [[u|e'] w3] eqn:Ec end.
        -- assert (w3 = w) as ->.
           { destruct (idx_unique ix);
               [now apply checkUnique_world in Ec|now injection Ec]. }
           unfold bind, lift, ret in Ep. destruct (encodeIdxKey _ _ _ _);
             now injection Ep.
        -- injection Ep as _ <-.
           destruct (idx_unique ix);
             [now apply checkUnique_world in Ec|discriminate Ec].
    + injection Run as _ <-.
      destruct (negb (isNullish (readProperty oldDoc (idx_field ix))));
        [|discriminate Ed].
      unfold bind, lift, ret in Ed. destruct (encodeIdxKey _ _ _ _);
        now injection Ed.
Qed.

(** X20. [onInsert] and [onUpdate] make their checks before they write:
    when one of them fails, with a duplicate key or with a value that
    cannot be encoded, it has written nothing. *)
Theorem index_hooks_fail_without_writing
        (collectionName : string) (indexes : list IndexDefinition)
        (doc newDoc : document) (docId : string) (w w' : world) (e : exn) :
  (onInsert collectionName indexes doc docId w = (Err e, w') -> w' = w)
  /\ (onUpdate collectionName indexes doc newDoc docId w = (Err e, w') -> w' = w).
Proof.
  split.
  - rewrite onInsert_run.
    destruct (onInsert_plan collectionName indexes doc docId w) as [[puts|e'] w1];
      [discriminate|]. intros H. now injection H.
  - unfold onUpdate. unfold bind at 1.
    destruct (onUpdate_plan collectionName indexes doc newDoc docId w)
      as [[plan|e'] w1] eqn:E; apply onUpdate_plan_world in E; subst w1.
    + unfold bind. rewrite deleteAll_run, putAll_run. discriminate.
    + intros H. now injection H.
Qed.

(** What [onDelete] deletes when [onInsert] has planned [puts]. *)
Lemma onDelete_after_plan (collectionName : string) (indexes : list IndexDefinition)
      (doc : document) (docId : string) :
  forall (puts : list KVEntry) (w : world),
    onInsert_plan collectionName indexes doc docId w = (Ok puts, w) ->
    forall w1,
      onDelete collectionName indexes doc docId w1
      = (Ok tt, withKv w1 (fold_left (fun s k => kv_delete k s) (map fst puts) (kv w1)))
      /\ forall key, In key (map fst puts) ->
           exists index enc,
             In index indexes
             /\ isNullish (readProperty doc (idx_field index)) = false
             /\ encodeValue (readProperty doc (idx_field index)) = Ok enc
             /\ key = idxPrefix collectionName (idx_field index) ++ enc
                      ++ IDX_ID_SEP ++ docId.
Proof.
  induction indexes as [|ix rest IH]; intros puts w Run w1;
    cbn [onInsert_plan onDelete] in *.
  - injection Run as <-. split; [destruct w1; reflexivity|intros key []].
  - destruct (isNullish (readProperty doc (idx_field ix))) eqn:En.
    { destruct (IH _ _ Run w1) as [R K].
      split; [exact R|]. intros key Hk.
      destruct (K key Hk) as (index & enc & Hin & rest').
      exists index, enc. split; [now right|exact rest']. }
    apply bind_Ok_inv in Run. destruct Run as (u & wa & Hc & Run).
    assert (wa = w) as ->.
    { destruct (idx_unique ix); [now apply checkUnique_world in Hc|now injection Hc]. }
    apply bind_Ok_inv in Run. destruct Run as (key & wb & Hkey & Run).
    apply lift_Ok_inv in Hkey. destruct Hkey as [Hkey ->].
    apply bind_Ok_inv in Run. destruct Run as (more & wc & Hmore & Run).
    pose proof (onInsert_plan_world _ _ _ _ _ _ _ Hmore) as ->.
    injection Run as <-.
    rewrite Hkey. unfold lift at 1. unfold bind at 1. unfold bind at 1.
    unfold kvDelete at 1.
    destruct (IH _ _ Hmore (withKv w1 (kv_delete key (kv w1)))) as [R K].
    rewrite R. split; [destruct w1; reflexivity|].
    intros k [<-|Hk].
    + unfold encodeIdxKey in Hkey.
      destruct (encodeValue (readProperty doc (idx_field ix))) as [enc|] eqn:Ee;
        [|discriminate].
      injection Hkey as <-.
      exists ix, enc. split; [now left|]. split; [exact En|].
      split; [exact Ee|]. unfold idxPrefix. now rewrite !str_app_assoc.
    + destruct (K k Hk) as (index & enc & Hin & rest').
      exists index, enc. split; [now right|exact rest'].
Qed.

(** X21. [onDelete] undoes [onInsert]: if the store held none of the
    index rows of the document (one for every index at whose field the
    document's value, read as the index manager reads it, is neither
    [undefined] nor [null]), then after a successful [onInsert] of the
    document an [onDelete] of it succeeds and gives back the store as it
    was. *)
Theorem onDelete_undoes_onInsert
        (collectionName : string) (indexes : list IndexDefinition)
        (doc : document) (docId : string) (w w1 : world) :
  kv_wf (kv w) ->
  (forall index enc,
      In index indexes ->
      isNullish (readProperty doc (idx_field index)) = false ->
      encodeValue (readProperty doc (idx_field index)) = Ok enc ->
      kv_has (idxPrefix collectionName (idx_field index) ++ enc ++ IDX_ID_SEP ++ docId)
             (kv w) = false) ->
  onInsert collectionName indexes doc docId w = (Ok tt, w1) ->
  exists w2,
    onDelete collectionName indexes doc docId w1 = (Ok tt, w2) /\ kv w2 = kv w.
Proof.
  intros W Absent Run. rewrite onInsert_run in Run.
  destruct (onInsert_plan collectionName indexes doc docId w) as [[puts|e] w0] eqn:Ep;
    [|discriminate Run].
  pose proof (onInsert_plan_world _ _ _ _ _ _ _ Ep) as ->.
  injection Run as <-.
  destruct (onDelete_after_plan _ _ _ _ _ _ Ep
              (withKv w (fold_left (fun s e => kv_put (fst e) (snd e) s) puts (kv w))))
    as [R K].
  eexists. split; [exact R|]. cbn [kv withKv].
  apply kv_ext.
  - apply fold_delete_wf. now apply fold_put_wf.
  - exact W.
  - intros key. rewrite fold_delete_get.
    destruct (in_dec string_dec key (map fst puts)) as [Hin|Hn].
    + destruct (K key Hin) as (index & enc & Hi & Hn & He & ->).
      specialize (Absent index enc Hi Hn He). unfold kv_has in Absent.
      now destruct (kv_get _ (kv w)).
    + now apply fold_put_get_other.
Qed.

Lemma jsonText_eqb_refl (v : propertyValue) :
  match jsonStringifyOpt v, jsonStringifyOpt v with
  | Some a, Some b => String.eqb a b
  | None, None => true
  | _, _ => false
  end = true.
Proof. destruct (jsonStringifyOpt v); [apply String.eqb_refl|reflexivity]. Qed.

(** X22. [onUpdate] skips every index at whose field the old and the
    new document have the same JSON text: if that is so for all the
    indexes, in particular if the documents are the same, [onUpdate]
    succeeds, reads nothing and writes nothing. *)
Theorem onUpdate_unchanged_fields
        (collectionName : string) (indexes : list IndexDefinition)
        (oldDoc newDoc : document) (docId : string) (w : world) :
  (forall index, In index indexes ->
                 jsonStringifyOpt (readProperty oldDoc (idx_field index))
                 = jsonStringifyOpt (readProperty newDoc (idx_field index))) ->
  onUpdate collectionName indexes oldDoc newDoc docId w = (Ok tt, w).
Proof.
  intros Same.
  assert (P : onUpdate_plan collectionName indexes oldDoc newDoc docId w
              = (Ok ([], []), w)).
  { induction indexes as [|ix rest IH]; [reflexivity|].
    cbn [onUpdate_plan]. rewrite (Same ix (or_introl eq_refl)), jsonText_eqb_refl.
    apply IH. intros index Hin. apply Same. now right. }
  unfold onUpdate, bind. rewrite P. reflexivity.
Qed.

End IndexHooks.

Lemma index_hooks_fail_without_writing_witness :
  let doc := [("_id", VStr "2"); ("a", VStr "x")] in
  snd (onInsert "c" [idIndex; {| idx_name := "a_1"; idx_field := "a";
                                 idx_unique := true |}] doc "2"
                (snd (onInsert "c" [{| idx_name := "a_1"; idx_field := "a";
                                       idx_unique := true |}]
                               [("_id", VStr "1"); ("a", VStr "x")] "1" emptyWorld)))
  = snd (onInsert "c" [{| idx_name := "a_1"; idx_field := "a"; idx_unique := true |}]
                  [("_id", VStr "1"); ("a", VStr "x")] "1" emptyWorld).
Proof.
  cbv zeta.
  apply (proj1 (index_hooks_fail_without_writing
                  "c" [idIndex; {| idx_name := "a_1"; idx_field := "a";
                                   idx_unique := true |}]
                  [("_id", VStr "2"); ("a", VStr "x")] [] "2" _ _
                  (IndexError ErrorCodes.DuplicateKey))).
  reflexivity.
Defined.

Lemma onDelete_undoes_onInsert_witness :
  let indexes := [idIndex; ageIndex;
                  {| idx_name := "toString_1"; idx_field := "toString";
                     idx_unique := false |}] in
  let doc := [("_id", VStr "1"); ("age", VNum ten)] in
  kv_has (idxPrefix "c" "toString" ++ "3:undefined" ++ IDX_ID_SEP ++ "1")
         (kv (snd (onInsert "c" indexes doc "1" emptyWorld))) = true
  /\ exists w2,
       onDelete "c" indexes doc "1" (snd (onInsert "c" indexes doc "1" emptyWorld))
       = (Ok tt, w2)
       /\ kv w2 = kv emptyWorld.
Proof.
  cbv zeta. split; [reflexivity|].
  apply (onDelete_undoes_onInsert
           "c" [idIndex; ageIndex;
                {| idx_name := "toString_1"; idx_field := "toString";
                   idx_unique := false |}]
           [("_id", VStr "1"); ("age", VNum ten)] "1" emptyWorld).
  - constructor.
  - intros index enc _ _ _. reflexivity.
  - reflexivity.
Defined.

Lemma onUpdate_unchanged_fields_witness :
  onUpdate "c" [idIndex; ageIndex] [("_id", VStr "1"); ("age", VNum ten)]
           [("_id", VStr "1"); ("age", VNum ten); ("name", VStr "x")] "1" emptyWorld
  = (Ok tt, emptyWorld).
Proof.
  apply (onUpdate_unchanged_fields "c" [idIndex; ageIndex]).
  intros index [<-|[<-|[]]]; reflexivity.
Defined.

(** ** index-manager.ts: [DocumentStore] *)

Lemma chunksOf_loop_length {A} (n : nat) (l : list A) (fuel : nat) :
  (0 < n)%nat -> (List.length l <= fuel)%nat ->
  List.length (List.concat (chunksOf_loop fuel n l)) = List.length l.
Proof.
  intros Hn. revert l. induction fuel as [|fuel IH]; intros l Hl.
  - destruct l; [reflexivity|cbn in Hl; lia].
  - destruct l as [|x l]; [reflexivity|].
    cbn [chunksOf_loop List.concat]. rewrite length_app, IH.
    + rewrite <- length_app, firstn_skipn. reflexivity.
    + rewrite length_skipn. cbn [List.length] in *. lia.
Qed.

Lemma sanitizeAll_Ok (docs : list document) :
  sanitizeAll docs = Ok tt ->
  Forall (fun d => sanitizeDocument (VObj d) 0 = Ok tt) docs.
Proof.
  induction docs as [|d docs IH]; cbn [sanitizeAll]; [constructor|].
  destruct (sanitizeDocument (VObj d) 0) as [[]|] eqn:E; [|discriminate].
  intros H. constructor; [exact E|now apply IH].
Qed.

Section StoreFacts.
Context {B : JsBuiltins}.
Variable maxDocumentSize : Z.

(** X23. [insert] checks every document before it writes: if one
    document of the batch holds one of the keys [__proto__],
    [constructor] and [prototype], at any depth, the call fails and the
    store, metadata included, is as it was; no document of the batch is
    stored. *)
Theorem insert_rejects_batch_with_dangerous_key
        (collection : string) (docs : list document) (w : world) :
  (exists doc, In doc docs /\ dangerFree (VObj doc) = false) ->
  exists e, insert maxDocumentSize collection docs w = (Err e, w).
Proof.
  intros (doc & Hin & Hd). unfold insert, bind, lift.
  destruct (validateCollectionName collection) as [u|e]; [|now exists e].
  destruct (sanitizeAll docs) as [[]|e] eqn:E; [|now exists e].
  exfalso. apply sanitizeAll_Ok in E. rewrite Forall_forall in E.
  specialize (E doc Hin).
  pose proof (proj1 (sanitizeSound_all (VObj doc)) O E). congruence.
Qed.

(** What [getOrCreateCollection] returns, when it returns. *)
Lemma getOrCreateCollection_Ok (name : string) (w w1 : world)
      (metadata : CollectionMetadata) :
  getOrCreateCollection name w = (Ok metadata, w1) ->
  validateCollectionName name = Ok tt
  /\ ((kv_get (encodeMetaKey name) (kv w) = Some (BufMeta metadata) /\ w1 = w)
      \/ (kv_get (encodeMetaKey name) (kv w) = None
          /\ cm_name metadata = name
          /\ cm_indexes metadata = [idIndex]
          /\ cm_documentCount metadata = 0
          /\ kv w1 = kv_put (encodeMetaKey name) (BufMeta metadata) (kv w))).
Proof.
  unfold getOrCreateCollection. intros H.
  apply bind_Ok_inv in H. destruct H as ([] & w0 & Hv & H).
  apply lift_Ok_inv in Hv. destruct Hv as [Hv ->]. split; [exact Hv|].
  apply bind_Ok_inv in H. destruct H as (existing & w0 & Hg & H).
  injection Hg as <- <-.
  destruct (kv_get (encodeMetaKey name) (kv w)) as [buf|].
  - left. apply lift_Ok_inv in H. destruct H as [H ->].
    destruct buf; try discriminate H. injection H as ->. now split.
  - right. unfold bind, DateNow, kvPut, ret in H. injection H as <- <-.
    repeat split.
Qed.

Lemma insertChunk_length (collection : string) (metadata : CollectionMetadata)
      (insertedIds : list string) (chunk : list document) :
  forall (acc : list string) (w w' : world) (ids : list string),
    insertChunk maxDocumentSize collection metadata insertedIds chunk acc w = (Ok ids, w') ->
    List.length ids = (List.length acc + List.length chunk)%nat.
Proof.
  induction chunk as [|doc chunk IH]; intros acc w w' ids H; cbn [insertChunk] in H.
  - injection H as <- _. cbn [List.length]. lia.
  - apply bind_Ok_inv in H. destruct H as (id & w1 & _ & H).
    destruct (maxDocumentSize <? _).
    + apply bind_Ok_inv in H. destruct H as (u & w2 & _ & H). discriminate H.
    + apply bind_Ok_inv in H. destruct H as (u & w2 & _ & H).
      apply bind_Ok_inv in H. destruct H as (u' & w3 & _ & H).
      apply IH in H. rewrite H, length_app. cbn [List.length]. lia.
Qed.

Lemma insertChunks_length (collection : string) (metadata : CollectionMetadata)
      (chunks : list (list document)) :
  forall (insertedIds : list string) (w w' : world) (ids : list string),
    insertChunks maxDocumentSize collection metadata chunks insertedIds w = (Ok ids, w') ->
    List.length ids = (List.length insertedIds + List.length (List.concat chunks))%nat.
Proof.
  induction chunks as [|chunk chunks IH]; intros insertedIds w w' ids H;
    cbn [insertChunks] in H.
  - injection H as <- _. cbn [List.concat List.length]. lia.
  - apply bind_Ok_inv in H. destruct H as (chunkIds & w1 & Hc & H).
    apply insertChunk_length in Hc. apply IH in H.
    rewrite H, !length_app, Hc. cbn [List.concat List.length]. rewrite length_app. lia.
Qed.

(** X24. A successful [insert] reports as [insertedCount] the number of
    documents it was given, and leaves in the metadata of the collection
    a [documentCount] that is the count before the call, zero for a
    collection that did not exist, plus that number. *)
Theorem insert_counts_documents
        (collection : string) (docs : list document) (w w' : world)
        (r : InsertResult) :
  insert maxDocumentSize collection docs w = (Ok r, w') ->
  match kv_get (encodeMetaKey collection) (kv w) with
  | Some (BufMeta before) => cm_name before = collection
  | _ => True
  end ->
  insertedCount r = List.length docs
  /\ exists metadata,
       kv_get (encodeMetaKey collection) (kv w') = Some (BufMeta metadata)
       /\ cm_documentCount metadata
          = match kv_get (encodeMetaKey collection) (kv w) with
            | Some (BufMeta before) => cm_documentCount before
            | _ => 0
            end + Z.of_nat (List.length docs).
Proof.
  intros Run Hname. unfold insert in Run.
  apply bind_Ok_inv in Run. destruct Run as ([] & w0 & Hv & Run).
  apply lift_Ok_inv in Hv. destruct Hv as [_ ->].
  apply bind_Ok_inv in Run. destruct Run as ([] & w0 & Hs & Run).
  apply lift_Ok_inv in Hs. destruct Hs as [_ ->].
  apply bind_Ok_inv in Run. destruct Run as ([] & w0 & Hl & Run).
  apply lockCollection_Ok_inv in Hl. destruct Hl as [_ ->].
  unfold _insertInternal in Run.
  apply bind_Ok_inv in Run. destruct Run as (metadata & w1 & Hm & Run).
  apply bind_Ok_inv in Run. destruct Run as (ids & w2 & Hids & Run).
  apply bind_Ok_inv in Run. destruct Run as ([] & w3 & Hsave & Run).
  injection Run as <- <-. cbn [insertedCount].
  apply insertChunks_length in Hids. cbn [List.length Nat.add] in Hids.
  unfold chunksOf in Hids.
  rewrite chunksOf_loop_length in Hids by (unfold BATCH_LIMIT; lia).
  split; [exact Hids|].
  unfold saveMetadata, kvPut in Hsave. injection Hsave as <-.
  cbn [kv withKv cm_name withDocumentCount].
  apply getOrCreateCollection_Ok in Hm. destruct Hm as [_ [[Hget ->]|Hnew]].
  - rewrite Hget in *. rewrite Hname.
    eexists. split; [apply kv_get_put_same|].
    cbn [cm_documentCount withDocumentCount]. now rewrite Hids.
  - destruct Hnew as (Hnone & Hn & _ & Hc & _). rewrite Hnone, Hn.
    eexists. split; [apply kv_get_put_same|].
    cbn [cm_documentCount withDocumentCount]. now rewrite Hids, Hc.
Qed.

Lemma tryCatch_Ok_inv {A} (m : M A) (h : exn -> M A) (w w' : world) (a : A) :
  (forall e w1 r w2, h e w1 = (r, w2) -> isOk r = false) ->
  tryCatch m h w = (Ok a, w') -> m w = (Ok a, w').
Proof.
  intros Hh. unfold tryCatch. destruct (m w) as [[x|e] w1]; [trivial|].
  intros H. specialize (Hh _ _ _ _ H). discriminate Hh.
Qed.

Lemma rethrow_fails {A} (e : exn) (w1 : world) (r : result A) (w2 : world) :
  match e with
  | IndexError code => throw (DocumentStoreError code None)
  | _ => throw e
  end w1 = (r, w2) -> isOk r = false.
Proof. destruct e; intros H; injection H as <- _; reflexivity. Qed.

Lemma docKey_not_metaKey (collection id name : string) :
  encodeMetaKey name <> encodeDocKey collection id.
Proof. discriminate. Qed.

(** X25. A successful [insert] of one document stores the document, as
    its JSON text reads back, under the identifier it reports: the
    [_id] of the document if that is truthy, a generated one otherwise,
    which is also the [_id] of the stored document. *)
Theorem insert_one_then_get
        (collection : string) (doc : document) (w w' : world) (r : InsertResult) :
  insert maxDocumentSize collection [doc] w = (Ok r, w') ->
  exists id,
    (forall v, truthyId doc = Some v -> id = v)
    /\ insertedId r = Some (idString (Some id))
    /\ insertedCount r = 1%nat
    /\ kv_get (encodeDocKey collection (idString (Some id))) (kv w')
       = Some (BufDoc (jsonRoundTripDoc (setField "_id" id doc))).
Proof.
  intros Run. unfold insert in Run.
  apply bind_Ok_inv in Run. destruct Run as ([] & w0 & Hv & Run).
  apply lift_Ok_inv in Hv. destruct Hv as [_ ->].
  apply bind_Ok_inv in Run. destruct Run as ([] & w0 & Hs & Run).
  apply lift_Ok_inv in Hs. destruct Hs as [_ ->].
  apply bind_Ok_inv in Run. destruct Run as ([] & w0 & Hl & Run).
  apply lockCollection_Ok_inv in Hl. destruct Hl as [_ ->].
  unfold _insertInternal in Run.
  apply bind_Ok_inv in Run. destruct Run as (metadata & w1 & Hm & Run).
  apply bind_Ok_inv in Run. destruct Run as (ids & w2 & Hids & Run).
  apply bind_Ok_inv in Run. destruct Run as ([] & w3 & Hsave & Run).
  injection Run as <- <-.
  rewrite chunksOf_single in Hids. cbn [insertChunks insertChunk] in Hids.
  apply bind_Ok_inv in Hids. destruct Hids as (chunkIds & w4 & Hc & Hids).
  injection Hids as <- <-.
  apply bind_Ok_inv in Hc. destruct Hc as (id & wg & Hid & Hc).
  destruct (maxDocumentSize <? _).
  { apply bind_Ok_inv in Hc. destruct Hc as (u & w5 & _ & Hc). discriminate Hc. }
  apply bind_Ok_inv in Hc. destruct Hc as (u & w5 & Hins & Hc).
  apply bind_Ok_inv in Hc. destruct Hc as (u' & w6 & Hput & Hc).
  injection Hc as <- <-. injection Hput as <- <-.
  exists id. split; [|split; [reflexivity|split; [reflexivity|]]].
  - intros v Hv. rewrite Hv in Hid. now injection Hid.
  - unfold saveMetadata, kvPut in Hsave. injection Hsave as <-.
    cbn [kv withKv].
    rewrite kv_get_put_other by apply docKey_not_metaKey.
    apply kv_get_put_same.
Qed.

(** *** Collections that do not exist *)

(** X26. On a collection that has no metadata, once the name and the
    arguments have passed the checks, [countDocuments] answers zero, and
    so do [deleteOne], [deleteMany] and [updateMany] without [upsert],
    unless [Object.prototype] has a property of the collection's name
    ([constructor], [toString], ...): then taking the lock of the
    collection throws a [TypeError].  In every case the store is left
    as it is, and the collection is not created. *)
Theorem operations_on_missing_collection
        (collection : string) (filter : document) (update : UpdateSpec) (w : world) :
  kv_get (encodeMetaKey collection) (kv w) = None ->
  validateCollectionName collection = Ok tt ->
  sanitizeDocument (VObj filter) 0 = Ok tt ->
  countDocuments collection filter w = (Ok 0, w)
  /\ (inObjectPrototype collection = false ->
      deleteOne collection filter w
      = (Ok {| del_acknowledged := true; deletedCount := 0 |}, w)
      /\ deleteMany collection filter w
         = (Ok {| del_acknowledged := true; deletedCount := 0 |}, w)
      /\ (sanitizeOpt (u_set update) = Ok tt ->
          sanitizeOpt (option_map incAsDocument (u_inc update)) = Ok tt ->
          sanitizeOpt (u_unset update) = Ok tt ->
          updateMany maxDocumentSize collection filter update false w
          = (Ok noMatch, w)))
  /\ (inObjectPrototype collection = true ->
      deleteOne collection filter w = (Err TypeError, w)
      /\ deleteMany collection filter w = (Err TypeError, w)
      /\ (sanitizeOpt (u_set update) = Ok tt ->
          sanitizeOpt (option_map incAsDocument (u_inc update)) = Ok tt ->
          sanitizeOpt (u_unset update) = Ok tt ->
          updateMany maxDocumentSize collection filter update false w
          = (Err TypeError, w))).
Proof.
  intros Hnone Hv Hs.
  assert (G : getCollection collection w = (Ok None, w)).
  { unfold getCollection, bind, kvGet. now rewrite Hnone. }
  assert (F : sanitizeFilter collection filter w = (Ok tt, w)).
  { unfold sanitizeFilter, bind, lift. now rewrite Hv, Hs. }
  assert (U : sanitizeOpt (u_set update) = Ok tt ->
              sanitizeOpt (option_map incAsDocument (u_inc update)) = Ok tt ->
              sanitizeOpt (u_unset update) = Ok tt ->
              sanitizeUpdate collection filter update w = (Ok tt, w)).
  { intros H1 H2 H3. unfold sanitizeUpdate, bind, lift. now rewrite Hv, Hs, H1, H2, H3. }
  split; [|split].
  - unfold countDocuments. rewrite (bind_Ok _ _ _ _ _ F), (bind_Ok _ _ _ _ _ G).
    reflexivity.
  - intros Free. pose proof (lockCollection_run collection w Free) as L.
    split; [|split].
    + unfold deleteOne.
      rewrite (bind_Ok _ _ _ _ _ F), (bind_Ok _ _ _ _ _ L), (bind_Ok _ _ _ _ _ G).
      reflexivity.
    + unfold deleteMany.
      rewrite (bind_Ok _ _ _ _ _ F), (bind_Ok _ _ _ _ _ L), (bind_Ok _ _ _ _ _ G).
      reflexivity.
    + intros H1 H2 H3. unfold updateMany.
      rewrite (bind_Ok _ _ _ _ _ (U H1 H2 H3)), (bind_Ok _ _ _ _ _ L),
        (bind_Ok _ _ _ _ _ G).
      reflexivity.
  - intros Inherited.
    assert (L : lockCollection collection w = (Err TypeError, w))
      by (unfold lockCollection; now rewrite Inherited).
    split; [|split].
    + unfold deleteOne. rewrite (bind_Ok _ _ _ _ _ F). now apply bind_Err.
    + unfold deleteMany. rewrite (bind_Ok _ _ _ _ _ F). now apply bind_Err.
    + intros H1 H2 H3. unfold updateMany.
      rewrite (bind_Ok _ _ _ _ _ (U H1 H2 H3)). now apply bind_Err.
Qed.

(** *** [createIndex] *)

Lemma find_app_none {A} (f : A -> bool) (l : list A) (x : A) :
  find f l = None -> f x = true -> find f (l ++ [x])%list = Some x.
Proof.
  induction l as [|y l IH]; cbn [find app]; intros Hn Hx; [now rewrite Hx|].
  destruct (f y); [discriminate|now apply IH].
Qed.

(** X27. [createIndex] is idempotent: after a successful call, a second
    call for the same field, with either value of [unique], returns the
    same index name and neither reads the documents again nor writes
    anything.  The metadata row of the collection, if there is one
    before the first call, must carry the name of the collection. *)
Theorem createIndex_twice
        (collection field : string) (unique unique' : bool) (w w1 : world)
        (r : CreateIndexResult) :
  match kv_get (encodeMetaKey collection) (kv w) with
  | Some (BufMeta before) => cm_name before = collection
  | _ => True
  end ->
  createIndex collection field unique w = (Ok r, w1) ->
  createIndex collection field unique' w1 = (Ok r, w1).
Proof.
  intros Hname Run. unfold createIndex in Run.
  apply bind_Ok_inv in Run. destruct Run as ([] & w0 & Hv & Run).
  apply lift_Ok_inv in Hv. destruct Hv as [Hv ->].
  apply bind_Ok_inv in Run. destruct Run as ([] & w0 & Hl & Run).
  apply lockCollection_Ok_inv in Hl. destruct Hl as [Hl ->].
  apply bind_Ok_inv in Run. destruct Run as (metadata & w2 & Hm & Run).
  apply getOrCreateCollection_Ok in Hm. destruct Hm as [_ Hm].
  assert (Hcm : cm_name metadata = collection).
  { destruct Hm as [[Hget _]|(_ & Hn & _)]; [|exact Hn].
    now rewrite Hget in Hname. }
  assert (Hget2 : kv_get (encodeMetaKey collection) (kv w2) = Some (BufMeta metadata)).
  { destruct Hm as [[Hget ->]|(_ & _ & _ & _ & Hkv)]; [exact Hget|].
    rewrite Hkv. apply kv_get_put_same. }
  clear Hm Hname.
  (* the second call on a store whose metadata holds an index on the field *)
  assert (Again : forall (w3 : world) (m : CollectionMetadata) (index : IndexDefinition),
             kv_get (encodeMetaKey collection) (kv w3) = Some (BufMeta m) ->
             findIndexByField (cm_indexes m) field = Some index ->
             createIndex collection field unique' w3
             = (Ok {| ci_acknowledged := true; ci_indexName := idx_name index |}, w3)).
  { intros w3 m index Hg Hf. unfold createIndex, getOrCreateCollection.
    rewrite Hv. unfold lift at 1. unfold bind at 1.
    rewrite (bind_Ok _ _ _ _ _ (lockCollection_run collection w3 Hl)).
    unfold lift at 1.
    unfold bind at 1. unfold bind at 1. unfold bind at 1. unfold kvGet.
    rewrite Hg. unfold asMetadata, lift. now rewrite Hf. }
  destruct (findIndexByField (cm_indexes metadata) field) as [existing|] eqn:Ef.
  - injection Run as <- <-. now apply (Again w2 metadata existing).
  - apply bind_Ok_inv in Run. destruct Run as (indexDef & w3 & Hc & Run).
    apply tryCatch_Ok_inv in Hc; [|intros e wa ra wb; apply rethrow_fails].
    unfold IndexManager_createIndex in Hc. rewrite Ef in Hc.
    apply bind_Ok_inv in Hc. destruct Hc as (u & w4 & _ & Hc).
    injection Hc as <- <-.
    apply bind_Ok_inv in Run. destruct Run as ([] & w5 & Hsave & Run).
    injection Run as <- <-.
    unfold saveMetadata, kvPut in Hsave. injection Hsave as <-.
    cbn [cm_name withIndexes] in *. rewrite Hcm.
    eapply (Again _ _ {| idx_name := field ++ "_1"; idx_field := field;
                         idx_unique := unique |}).
    + cbn [kv withKv]. apply kv_get_put_same.
    + cbn [cm_indexes withIndexes]. unfold findIndexByField in *.
      apply find_app_none; [exact Ef|]. cbn [idx_field]. apply String.eqb_refl.
Qed.

(** *** Reading *)

Lemma readOnly_collectionScan_entries (plan : QueryPlan) (filter : value)
      (maxNeeded : option nat) (entries : list KVEntry) :
  forall st, readOnly (collectionScan_entries plan filter maxNeeded entries st).
Proof.
  induction entries as [|entry entries IH]; intros st; cbn [collectionScan_entries];
    [apply readOnly_ret|].
  apply readOnly_bind; [apply readOnly_lift|intros doc].
  apply readOnly_bind; [apply readOnly_lift|intros ok].
  destruct ok; [destruct (enough _ _); [apply readOnly_ret|]|]; apply IH.
Qed.

Lemma readOnly_collectionScan_loop (plan : QueryPlan) (collection : string)
      (filter : value) (maxNeeded : option nat) (fuel : nat) :
  forall st, readOnly (collectionScan_loop fuel plan collection filter maxNeeded st).
Proof.
  induction fuel as [|fuel IH]; intros st; cbn [collectionScan_loop];
    [apply readOnly_throw|].
  apply readOnly_bind; [apply readOnly_kvScan|intros entries].
  destruct (List.length entries =? 0)%nat; [apply readOnly_ret|].
  apply readOnly_bind; [apply readOnly_collectionScan_entries|intros st'].
  destruct (enough _ _); [apply readOnly_ret|].
  destruct (List.length entries <? BATCH_LIMIT)%nat; [apply readOnly_ret|apply IH].
Qed.

Lemma readOnly_indexScan_entries (plan : QueryPlan) (collection : string)
      (filter : value) (maxNeeded : option nat) (entries : list KVEntry) :
  forall st, readOnly (indexScan_entries plan collection filter maxNeeded entries st).
Proof.
  induction entries as [|entry entries IH]; intros st; cbn [indexScan_entries];
    [apply readOnly_ret|].
  destruct (decodeIdxKey (fst entry)); [|apply IH].
  apply readOnly_bind; [apply readOnly_kvGet|intros docData].
  destruct docData; [|apply IH].
  apply readOnly_bind; [apply readOnly_lift|intros doc].
  apply readOnly_bind; [apply readOnly_lift|intros ok].
  destruct ok; [destruct (enough _ _); [apply readOnly_ret|]|]; apply IH.
Qed.

Lemma readOnly_indexScan_loop (plan : QueryPlan) (collection : string)
      (filter : value) (maxNeeded : option nat) (endK : string) (fuel : nat) :
  forall st, readOnly (indexScan_loop fuel plan collection filter maxNeeded endK st).
Proof.
  induction fuel as [|fuel IH]; intros st; cbn [indexScan_loop];
    [apply readOnly_throw|].
  apply readOnly_bind; [apply readOnly_kvScan|intros entries].
  destruct (List.length entries =? 0)%nat; [apply readOnly_ret|].
  apply readOnly_bind; [apply readOnly_indexScan_entries|intros st'].
  destruct (enough _ _); [apply readOnly_ret|].
  destruct (List.length entries <? BATCH_LIMIT)%nat; [apply readOnly_ret|apply IH].
Qed.

Lemma readOnly_executeQuery (plan : QueryPlan) (collection : string) (filter : value)
      (options : QueryOptions) :
  readOnly (executeQuery plan collection filter options).
Proof.
  unfold executeQuery.
  apply readOnly_bind; [apply readOnly_DateNow|intros startTime].
  apply readOnly_bind.
  - destruct (plan_type plan);
      [destruct (truthyString (startKey plan));
         [destruct (truthyString (endKey plan))|]|];
      intros w r w' E;
      first [exact (readOnly_indexScan_loop _ _ _ _ _ _ _ w r w' E)
            |exact (readOnly_collectionScan_loop _ _ _ _ _ _ w r w' E)].
  - intros st. apply readOnly_bind; [apply readOnly_DateNow|intros endTime].
    apply readOnly_ret.
Qed.

(** X28. [countDocuments] never writes: whatever it answers, a count or
    an error, the store is as it was before the call; a collection that
    does not exist is not created. *)
Theorem countDocuments_never_writes
        (collection : string) (filter : document) (w w' : world) (r : result Z) :
  countDocuments collection filter w = (r, w') -> kv w' = kv w.
Proof.
  revert w r w'. change (readOnly (countDocuments collection filter)).
  unfold countDocuments, sanitizeFilter, getCollection.
  apply readOnly_bind.
  { apply readOnly_bind; [apply readOnly_lift|intros _; apply readOnly_lift]. }
  intros _. apply readOnly_bind.
  { apply readOnly_bind; [apply readOnly_kvGet|intros data].
    destruct data; [|apply readOnly_ret].
    apply readOnly_bind; [apply readOnly_lift|intros m; apply readOnly_ret]. }
  intros metadata. destruct metadata as [metadata|]; [|apply readOnly_ret].
  destruct (List.length filter =? 0)%nat; [apply readOnly_ret|].
  apply readOnly_bind; [apply readOnly_lift|intros plan].
  apply readOnly_bind; [apply readOnly_executeQuery|intros result].
  apply readOnly_ret.
Qed.

End StoreFacts.

Lemma insert_rejects_batch_with_dangerous_key_witness :
  exists e,
    insert defaultMaxDocumentSize "c"
           [[("_id", VStr "1")]; [("a", VObj [("__proto__", VNull)])]] emptyWorld
    = (Err e, emptyWorld).
Proof.
  apply (insert_rejects_batch_with_dangerous_key defaultMaxDocumentSize "c").
  exists [("a", VObj [("__proto__", VNull)])]. split; [right; now left|reflexivity].
Defined.

Lemma insert_counts_documents_witness :
  let run := insert defaultMaxDocumentSize "c"
                    [[("_id", VStr "2")]; [("_id", VStr "3")]] oneDocWorld in
  exists metadata,
    kv_get (encodeMetaKey "c") (kv (snd run)) = Some (BufMeta metadata)
    /\ cm_documentCount metadata = 1 + Z.of_nat 2.
Proof.
  cbv zeta.
  destruct (insert defaultMaxDocumentSize "c"
                   [[("_id", VStr "2")]; [("_id", VStr "3")]] oneDocWorld)
    as [[r|e] w'] eqn:E.
  - exact (proj2 (insert_counts_documents defaultMaxDocumentSize "c"
                    [[("_id", VStr "2")]; [("_id", VStr "3")]] oneDocWorld w' r E
                    eq_refl)).
  - vm_compute in E. discriminate E.
Defined.

Lemma insert_one_then_get_witness :
  exists id,
    (forall v, truthyId [("_id", VStr "1"); ("a", VStr "x")] = Some v -> id = v)
    /\ kv_get (encodeDocKey "c" (idString (Some id))) (kv oneDocWorld)
       = Some (BufDoc (jsonRoundTripDoc
                         (setField "_id" id [("_id", VStr "1"); ("a", VStr "x")]))).
Proof.
  destruct (insert_one_then_get defaultMaxDocumentSize "c"
              [("_id", VStr "1"); ("a", VStr "x")] emptyWorld oneDocWorld
              {| ins_acknowledged := true; insertedId := Some "1";
                 insertedIds := None; insertedCount := 1 |} eq_refl)
    as (id & H1 & _ & _ & H2).
  exists id. split; assumption.
Defined.

Lemma operations_on_missing_collection_witness :
  (countDocuments "ghost" [("a", VStr "x")] emptyWorld = (Ok 0, emptyWorld)
   /\ deleteOne "ghost" [("a", VStr "x")] emptyWorld
      = (Ok {| del_acknowledged := true; deletedCount := 0 |}, emptyWorld))
  /\ (validateCollectionName "constructor" = Ok tt
      /\ countDocuments "constructor" [("a", VStr "x")] emptyWorld = (Ok 0, emptyWorld)
      /\ deleteOne "constructor" [("a", VStr "x")] emptyWorld
         = (Err TypeError, emptyWorld)).
Proof.
  split.
  - destruct (operations_on_missing_collection
                defaultMaxDocumentSize "ghost" [("a", VStr "x")] (setOnly [])
                emptyWorld eq_refl eq_refl eq_refl) as (C & D & _).
    split; [exact C|exact (proj1 (D eq_refl))].
  - destruct (operations_on_missing_collection
                defaultMaxDocumentSize "constructor" [("a", VStr "x")] (setOnly [])
                emptyWorld eq_refl eq_refl eq_refl) as (C & _ & T).
    split; [reflexivity|]. split; [exact C|exact (proj1 (T eq_refl))].
Defined.

Lemma createIndex_twice_witness :
  createIndex "users" "email" false uniqueEmailWorld
  = (Ok {| ci_acknowledged := true; ci_indexName := "email_1" |}, uniqueEmailWorld).
Proof.
  apply (createIndex_twice "users" "email" true false emptyWorld); reflexivity.
Defined.

Lemma countDocuments_never_writes_witness :
  fst (countDocuments "c" [("a", VStr "x")] oneDocWorld) = Ok 1
  /\ kv (snd (countDocuments "c" [("a", VStr "x")] oneDocWorld)) = kv oneDocWorld.
Proof.
  split; [vm_compute; reflexivity|].
  apply (countDocuments_never_writes
           "c" [("a", VStr "x")] oneDocWorld
           (snd (countDocuments "c" [("a", VStr "x")] oneDocWorld))
           (fst (countDocuments "c" [("a", VStr "x")] oneDocWorld))).
  vm_compute. reflexivity.
Defined.

(** ** index-manager.ts: dropping rows *)

(** A key above [x] is not below [x] followed by the code unit 0. *)
Lemma above_successor (x k : string) :
  str_lt x k -> str_ltb k (x ++ String (ascii_of_nat 0) EmptyString) = false.
Proof.
  unfold str_lt, str_ltb, String.ltb. revert k.
  induction x as [|a x IH]; intros [|c k]; cbn [String.append String.compare];
    try discriminate.
  - intros _. rewrite ascii_compare_nat.
    destruct (Nat.compare_spec (nat_of_ascii c) (nat_of_ascii (ascii_of_nat 0)))
      as [E|L|G]; try reflexivity.
    + now destruct k.
    + rewrite nat_ascii_embedding in L by lia. lia.
  - rewrite (Ascii.compare_antisym c a).
    destruct (Ascii.compare a c) eqn:C; cbn [CompOpp]; try discriminate.
    + intros H. specialize (IH k H).
      destruct (String.compare k _); [reflexivity|discriminate IH|reflexivity].
    + reflexivity.
Qed.

Lemma kv_get_filter (f : string -> bool) (s : kvstore) (key : string) :
  kv_get key (List.filter (fun e => f (fst e)) s) = if f key then kv_get key s else None.
Proof.
  induction s as [|[k x] s IH]; cbn [List.filter kv_get fst]; [now destruct (f key)|].
  destruct (f k) eqn:Ek; cbn [kv_get];
    destruct (String.eqb_spec k key) as [->|NE]; try exact IH.
  - now rewrite Ek.
  - rewrite IH, Ek. reflexivity.
Qed.

Lemma filter_wf (f : KVEntry -> bool) (s : kvstore) : kv_wf s -> kv_wf (List.filter f s).
Proof.
  induction s as [|[k x] s IH]; intros W; [exact W|].
  destruct (kv_wf_cons_inv _ _ _ W) as [Ws Hall]. cbn [List.filter].
  destruct (f (k, x)); [|now apply IH].
  apply kv_wf_cons; [now apply IH|].
  apply Forall_forall. intros e He. apply filter_In in He.
  rewrite Forall_forall in Hall. now apply Hall.
Qed.

Lemma kv_wf_app_lt (a b : kvstore) :
  kv_wf (a ++ b)%list ->
  forall x y, In x a -> In y b -> str_lt (fst x) (fst y).
Proof.
  induction a as [|[k v] a IH]; intros W x y Hx Hy; [destruct Hx|].
  cbn [app] in W. destruct (kv_wf_cons_inv _ _ _ W) as [Ws Hall].
  destruct Hx as [<-|Hx]; [|now apply IH].
  rewrite Forall_forall in Hall. apply (Hall y). apply in_or_app. now right.
Qed.

Lemma fold_delete_In (keys : list string) (s : kvstore) (e : KVEntry) :
  In e (fold_left (fun s k => kv_delete k s) keys s) <-> In e s /\ ~ In (fst e) keys.
Proof.
  revert s. induction keys as [|k keys IH]; intros s; cbn [fold_left In]; [tauto|].
  rewrite IH, kv_delete_In. split.
  - intros [[H1 H2] H3]. split; [exact H1|]. intros [E|E]; [congruence|contradiction].
  - intros [H1 H2]. repeat split; [exact H1| |]; intros E; apply H2; [left|right];
      congruence.
Qed.

Lemma kv_delete_length_le (key : string) (s : kvstore) :
  (List.length (kv_delete key s) <= List.length s)%nat.
Proof.
  induction s as [|[k x] s IH]; [apply Nat.le_refl|]. cbn [kv_delete].
  destruct (String.eqb k key); cbn [List.length]; lia.
Qed.

Lemma kv_delete_length_lt (key : string) (s : kvstore) :
  kv_has key s = true -> (List.length (kv_delete key s) < List.length s)%nat.
Proof.
  unfold kv_has. induction s as [|[k x] s IH]; cbn [kv_get kv_delete]; [discriminate|].
  destruct (String.eqb k key).
  - intros _. pose proof (kv_delete_length_le key s). cbn [List.length]. lia.
  - intros H. specialize (IH H). cbn [List.length]. lia.
Qed.

Lemma fold_delete_length_le (keys : list string) (s : kvstore) :
  (List.length (fold_left (fun s k => kv_delete k s) keys s) <= List.length s)%nat.
Proof.
  revert s. induction keys as [|k keys IH]; intros s; [apply Nat.le_refl|].
  cbn [fold_left]. etransitivity; [apply IH|apply kv_delete_length_le].
Qed.

Lemma kv_get_none_not_In (key : string) (s : kvstore) :
  kv_get key s = None -> forall v, ~ In (key, v) s.
Proof.
  induction s as [|[k x] s IH]; cbn [kv_get]; intros H v; [tauto|].
  destruct (String.eqb_spec k key) as [->|NE]; [discriminate|].
  intros [E|Hin]; [congruence|exact (IH H v Hin)].
Qed.

(** The loop that deletes the rows under a prefix ends within its
    bound, with the rows under the prefix gone and the others kept. *)
Lemma dropRows_loop_correct (prefix : string) :
  prefix <> EmptyString ->
  forall (fuel : nat) (w : world) (lastKey : option string),
    kv_wf (kv w) ->
    (List.length (kv w) < fuel)%nat ->
    match afterKey lastKey with
    | Some start =>
        forall e, In e (kv w) -> startsWith prefix (fst e) = true ->
                  str_ltb (fst e) start = false
    | None => True
    end ->
    exists w',
      dropRows_loop fuel prefix lastKey w = (Ok tt, w')
      /\ kv_wf (kv w')
      /\ forall key, kv_get key (kv w')
                     = if startsWith prefix key then None else kv_get key (kv w).
Proof.
  intros NE. induction fuel as [|fuel IH]; intros w lastKey W Hfuel Hlast; [lia|].
  cbn [dropRows_loop]. unfold bind at 1. unfold kvScan at 1.
  set (s := kv w) in *.
  set (F := List.filter (fun e => startsWith prefix (fst e)) s).
  assert (Scan : kv_scan (scanPrefix prefix (afterKey lastKey) BATCH_LIMIT) s
                 = firstn BATCH_LIMIT F).
  { rewrite kv_scan_both_directions by exact W.
    cbn [scanPrefix scan_limit scan_reverse applyLimit]. f_equal.
    apply filter_ext_in. intros e He.
    unfold inScanRange. cbn [scanPrefix scan_prefix scan_startKey scan_endKey].
    destruct prefix as [|c p]; [congruence|]. cbn [truthyString].
    rewrite andb_true_r.
    destruct (startsWith (String c p) (fst e)) eqn:Ep; [|reflexivity].
    cbn [andb].
    destruct (afterKey lastKey) as [start|] eqn:Ea.
    - assert (T : truthyString (Some start) = Some start).
      { unfold afterKey in Ea. destruct (truthyString lastKey); [|discriminate].
        injection Ea as <-. now destruct s0. }
      rewrite T. now rewrite (Hlast e He Ep).
    - reflexivity. }
  rewrite Scan. cbv beta iota.
  assert (FIn : forall e, In e F <-> In e s /\ startsWith prefix (fst e) = true)
    by (intros e; apply filter_In).
  assert (Gone : forall key, startsWith prefix key = true ->
                             ~ In key (map fst F) -> kv_get key s = None).
  { intros key Hp Hn. destruct (kv_get key s) as [v|] eqn:G; [|reflexivity].
    exfalso. apply Hn. apply in_map_iff. exists (key, v). split; [reflexivity|].
    apply FIn. split; [now apply kv_get_In|exact Hp]. }
  assert (Keep : forall key, startsWith prefix key = false -> ~ In key (map fst F)).
  { intros key Hp Hin. apply in_map_iff in Hin. destruct Hin as (e & <- & He).
    apply FIn in He. destruct He as [_ He]. congruence. }
  remember (firstn BATCH_LIMIT F) as E eqn:HE.
  assert (Enil : E = [] \/ E <> [])
    by (destruct E; [left; reflexivity|right; discriminate]).
  destruct Enil as [Enil|NE_E].
  { rewrite Enil in *. cbn [List.length Nat.eqb].
    exists w. split; [reflexivity|]. split; [exact W|].
    intros key. destruct (startsWith prefix key) eqn:Hp; [|reflexivity].
    apply Gone; [exact Hp|].
    assert (F = []) as ->.
    { destruct F as [|f F']; [reflexivity|discriminate HE]. }
    cbn [map In]. tauto. }
  match goal with
  | |- context [Nat.eqb ?n 0] =>
      replace (Nat.eqb n 0) with false
        by (symmetry; apply Nat.eqb_neq; destruct E; [congruence|discriminate])
  end.
  cbv beta iota. unfold bind at 1. rewrite deleteAll_run. cbv beta iota.
  set (s1 := fold_left (fun s k => kv_delete k s) (map fst E) s).
  assert (W1 : kv_wf s1) by now apply fold_delete_wf.
  match goal with
  | |- context [Nat.ltb ?n BATCH_LIMIT] => destruct (Nat.ltb n BATCH_LIMIT) eqn:El
  end.
  - exists (withKv w s1). split; [reflexivity|]. split; [exact W1|].
    intros key. cbn [kv withKv]. unfold s1. rewrite fold_delete_get.
    assert (EF : E = F).
    { rewrite HE. apply firstn_all2. apply Nat.ltb_lt in El. rewrite HE in El.
      rewrite length_firstn in El. lia. }
    rewrite EF.
    destruct (in_dec string_dec key (map fst F)) as [Hin|Hn];
      destruct (startsWith prefix key) eqn:Hp; try reflexivity.
    + exfalso. exact (Keep key Hp Hin).
    + now apply Gone.
  - (* a full batch: the loop goes on after its last key *)
    assert (Split : F = (E ++ skipn BATCH_LIMIT F)%list)
      by (rewrite HE; now rewrite firstn_skipn).
    assert (Lt : (List.length s1 < List.length s)%nat).
    { unfold s1. clear HE. destruct E as [|[k v] E']; [congruence|].
      cbn [map fold_left fst].
      eapply Nat.le_lt_trans; [apply fold_delete_length_le|].
      apply kv_delete_length_lt. unfold kv_has.
      assert (In (k, v) s).
      { apply (proj1 (FIn (k, v))). rewrite Split. now left. }
      now rewrite (kv_In_get _ _ _ W H). }
    destruct (IH (withKv w s1)
                 (option_map fst (last (map Some E) None))) as (w' & R & W' & G).
    + exact W1.
    + cbn [kv withKv]. lia.
    + cbn [kv withKv].
      destruct (afterKey (option_map fst (last (map Some E) None))) as [start|] eqn:Ea;
        [|exact I].
      intros e He Hp.
      apply fold_delete_In in He. destruct He as [He Hn].
      assert (HF : In e F) by (apply FIn; now split).
      rewrite Split in HF. apply in_app_or in HF. destruct HF as [HinE|HS].
      { exfalso. apply Hn. now apply in_map. }
      (* the last key of the batch *)
      assert (exists lastE, last (map Some E) None = Some lastE /\ In lastE E)
        as (lastE & Hl & HlE).
      { clear - NE_E. induction E as [|x E' IHE]; [congruence|].
        destruct E' as [|y E'']; [exists x; split; [reflexivity|now left]|].
        destruct IHE as (z & Hz & Hin); [discriminate|].
        exists z. split; [exact Hz|now right]. }
      rewrite Hl in Ea. cbn [option_map] in Ea. unfold afterKey in Ea.
      destruct (truthyString (Some (fst lastE))) as [k|] eqn:Et; [|discriminate].
      injection Ea as <-.
      assert (k = fst lastE) as ->.
      { destruct (fst lastE); [discriminate|]. now injection Et. }
      apply above_successor.
      assert (WF : kv_wf (E ++ skipn BATCH_LIMIT F)%list).
      { rewrite <- Split. now apply filter_wf. }
      exact (kv_wf_app_lt _ _ WF lastE e HlE HS).
    + exists w'. split; [exact R|]. split; [exact W'|].
      intros key. rewrite G. cbn [kv withKv].
      destruct (startsWith prefix key) eqn:Hp; [reflexivity|].
      unfold s1. rewrite fold_delete_get.
      destruct (in_dec string_dec key (map fst E)) as [Hin|Hn]; [|reflexivity].
      exfalso. apply (Keep key Hp). rewrite Split, map_app. apply in_or_app. now left.
Qed.

Section Dropping.
Context {B : JsBuiltins}.

(** X29. [IndexManager.dropIndex] ends, deletes every row of the index
    of the field, and deletes nothing else: on a store with sorted keys,
    a [get] afterwards gives nothing for the keys under the prefix of
    the index and what it gave before for every other key. *)
Theorem dropIndex_rows_deleted (collectionName field : string) (w : world) :
  kv_wf (kv w) ->
  exists w',
    IndexManager_dropIndex collectionName field w = (Ok tt, w')
    /\ forall key,
         kv_get key (kv w')
         = if startsWith (idxPrefix collectionName field) key then None
           else kv_get key (kv w).
Proof.
  intros W. unfold IndexManager_dropIndex.
  destruct (dropRows_loop_correct (idxPrefix collectionName field) ltac:(discriminate)
              (S (List.length (kv w))) w None W ltac:(lia) I) as (w' & R & _ & G).
  now exists w'.
Qed.

(** X30. [dropCollection] of a collection that has metadata ends with
    [true] and deletes the document rows, the index rows and the
    metadata of the collection, and nothing else; of a collection
    without metadata it returns [false] and changes nothing. *)
Theorem dropCollection_deletes_collection (name : string) (w : world) :
  kv_wf (kv w) ->
  match kv_get (encodeMetaKey name) (kv w) with
  | Some (BufMeta _) =>
      exists w',
        dropCollection name w = (Ok true, w')
        /\ forall key,
             kv_get key (kv w')
             = if startsWith (docPrefix name) key
                  || startsWith (idxCollectionPrefix name) key
                  || String.eqb (encodeMetaKey name) key
               then None else kv_get key (kv w)
  | Some _ => True
  | None => dropCollection name w = (Ok false, w)
  end.
Proof.
  intros W. unfold dropCollection, getCollection, dropAllIndexes.
  unfold bind, kvGet, kvDelete, lift, ret.
  destruct (kv_get (encodeMetaKey name) (kv w)) as [[ |d|m]|] eqn:Em;
    [exact I|exact I| |reflexivity].
  cbn [asMetadata].
  destruct (dropRows_loop_correct (docPrefix name) ltac:(discriminate)
              (S (List.length (kv w))) w None W ltac:(lia) I) as (w1 & R1 & W1 & G1).
  rewrite R1.
  destruct (dropRows_loop_correct (idxCollectionPrefix name) ltac:(discriminate)
              (S (List.length (kv w1))) w1 None W1 ltac:(lia) I) as (w2 & R2 & W2 & G2).
  rewrite R2.
  eexists. split; [reflexivity|].
  intros key. cbn [kv withKv].
  destruct (String.eqb_spec (encodeMetaKey name) key) as [E|NEk].
  - subst key. rewrite kv_get_delete_same. now rewrite orb_true_r.
  - rewrite kv_get_delete_other by exact NEk. rewrite G2, G1, orb_false_r.
    destruct (startsWith (idxCollectionPrefix name) key);
      destruct (startsWith (docPrefix name) key); reflexivity.
Qed.

End Dropping.

Lemma dropIndex_rows_deleted_witness :
  exists w',
    IndexManager_dropIndex "c" "n" maxValueWorld = (Ok tt, w')
    /\ forall key,
         kv_get key (kv w')
         = if startsWith (idxPrefix "c" "n") key then None
           else kv_get key (kv maxValueWorld).
Proof.
  apply (dropIndex_rows_deleted "c" "n" maxValueWorld).
  vm_compute. repeat constructor.
Defined.

Lemma dropCollection_deletes_collection_witness :
  match kv_get (encodeMetaKey "c") (kv oneDocWorld) with
  | Some (BufMeta _) =>
      exists w',
        dropCollection "c" oneDocWorld = (Ok true, w')
        /\ forall key,
             kv_get key (kv w')
             = if startsWith (docPrefix "c") key
                  || startsWith (idxCollectionPrefix "c") key
                  || String.eqb (encodeMetaKey "c") key
               then None else kv_get key (kv oneDocWorld)
  | Some _ => True
  | None => dropCollection "c" oneDocWorld = (Ok false, oneDocWorld)
  end.
Proof.
  apply (dropCollection_deletes_collection "c" oneDocWorld).
  vm_compute. repeat constructor.
Defined.

